(** * AstroAlert backend: orbit propagation, conjunction detection, alerts

    A shallow embedding of [backend/propagate.py] (class [OrbitPropagator]),
    of the update loop and the maneuver route of [backend/main.py] and of
    the risk model of [backend/ml_model.py], with the properties of the
    specification, and further properties of the code, stated and proved
    over it.

    Modelling conventions.
    - Python [float] values are idealised as real numbers ([R]): rounding,
      overflow, NaN and signed zeros are outside the model.
    - [datetime] values are integers counting microseconds ([Z]); the
      difference of two of them is a [timedelta], and
      [total_seconds() > 10] is [> 10_000_000] microseconds.
      [isoformat()] is an injective rendering and is modelled by the same
      integer.
    - [datetime.now()] and the [random] module read from oracles indexed by
      the number of reads made so far; the two counters are part of the
      modelled state.
    - Python dictionaries with a fixed set of keys are records; the lists of
      the program are lists, updated by index where the program mutates the
      dictionary an index refers to. *)

From Stdlib Require Import Reals Lra Lia ZArith List.
From stdpp Require Import base decidable relations list strings gmap.
Import ListNotations.

(** ** Preliminaries *)

#[global] Instance Rlt_decision (x y : R) : Decision (x < y)%R := Rlt_dec x y.
#[global] Instance Rle_decision (x y : R) : Decision (x <= y)%R := Rle_dec x y.
#[global] Instance Req_decision : EqDecision R := Req_dec_T.

(** The exceptions the modelled code can raise. *)
Inductive exn := ValueError | ZeroDivisionError.

Inductive result (A : Type) :=
| Ok (a : A)
| Raise (e : exn).
Arguments Ok {A} a.
Arguments Raise {A} e.

(** A [datetime], in microseconds. *)
Abbreviation datetime := Z (only parsing).

(** Microseconds in [n] seconds. *)
Definition seconds (n : Z) : Z := (n * 1000000)%Z.

(** The oracles: the wall clock and the random number generator. *)
Record Env := {
  now_at : nat -> datetime;   (* value of the k-th [datetime.now()] *)
  rand_at : nat -> R          (* sample behind the k-th call into [random] *)
}.

(** ** Data model *)

Inductive RiskLevel := High | Medium | Low.

#[global] Instance RiskLevel_eq_dec : EqDecision RiskLevel.
Proof. solve_decision. Defined.

(** The strings the source uses for the three levels. *)
Definition risk_level_str (l : RiskLevel) : string :=
  match l with High => "High" | Medium => "Medium" | Low => "Low" end.

(** An entry of [obj["risk_objects"]]. *)
Record RiskData := {
  object_id : string;
  distance_km : R;
  velocity_kmps : R;
  time_to_conjunction : R;
  risk_level : RiskLevel
}.

(** An element of [self.space_objects]. *)
Record SpaceObject := {
  obj_id : string;
  name : string;
  type_ : string;
  orbit_type : string;
  altitude : R;
  inclination : R;
  position : list R;
  velocity : R;
  last_update : datetime;
  risk_objects : list RiskData
}.

Definition set_position (p : list R) (o : SpaceObject) : SpaceObject :=
  {| obj_id := obj_id o; name := name o; type_ := type_ o;
     orbit_type := orbit_type o; altitude := altitude o;
     inclination := inclination o; position := p; velocity := velocity o;
     last_update := last_update o; risk_objects := risk_objects o |}.

Definition set_last_update (t : datetime) (o : SpaceObject) : SpaceObject :=
  {| obj_id := obj_id o; name := name o; type_ := type_ o;
     orbit_type := orbit_type o; altitude := altitude o;
     inclination := inclination o; position := position o;
     velocity := velocity o; last_update := t;
     risk_objects := risk_objects o |}.

Definition set_risk_objects (l : list RiskData) (o : SpaceObject) : SpaceObject :=
  {| obj_id := obj_id o; name := name o; type_ := type_ o;
     orbit_type := orbit_type o; altitude := altitude o;
     inclination := inclination o; position := position o;
     velocity := velocity o; last_update := last_update o;
     risk_objects := l |}.

(** The text of an alert is an f-string over the two names and the two
    numbers rounded to two decimals; the model keeps its four arguments. *)
Record Message := {
  msg_name1 : string;
  msg_name2 : string;
  msg_distance : R;
  msg_time_to_conjunction : R
}.

(** An element of [self.alerts]. *)
Record Alert := {
  alert_id : Z;
  timestamp : datetime;
  severity : string;
  message : Message;
  object_ids : list string
}.

(** The propagator object, with the two oracle counters and one ghost
    field: [emitted] records, for every alert the detection pass creates,
    the clock value the cooldown test used and the alert.  No function reads
    it. *)
Record State := {
  space_objects : list SpaceObject;
  alerts : list Alert;
  last_alert_time : datetime;
  clock_reads : nat;
  rng_calls : nat;
  emitted : list (datetime * Alert)
}.

Definition set_space_objects (l : list SpaceObject) (s : State) : State :=
  {| space_objects := l; alerts := alerts s;
     last_alert_time := last_alert_time s; clock_reads := clock_reads s;
     rng_calls := rng_calls s; emitted := emitted s |}.

Definition set_alerts (l : list Alert) (s : State) : State :=
  {| space_objects := space_objects s; alerts := l;
     last_alert_time := last_alert_time s; clock_reads := clock_reads s;
     rng_calls := rng_calls s; emitted := emitted s |}.

Definition set_last_alert_time (t : datetime) (s : State) : State :=
  {| space_objects := space_objects s; alerts := alerts s;
     last_alert_time := t; clock_reads := clock_reads s;
     rng_calls := rng_calls s; emitted := emitted s |}.

Definition set_emitted (l : list (datetime * Alert)) (s : State) : State :=
  {| space_objects := space_objects s; alerts := alerts s;
     last_alert_time := last_alert_time s; clock_reads := clock_reads s;
     rng_calls := rng_calls s; emitted := l |}.

(** One more [datetime.now()] has been made. *)
Definition tick_clock (s : State) : State :=
  {| space_objects := space_objects s; alerts := alerts s;
     last_alert_time := last_alert_time s; clock_reads := S (clock_reads s);
     rng_calls := rng_calls s; emitted := emitted s |}.

(** One more call into [random] has been made. *)
Definition tick_rng (s : State) : State :=
  {| space_objects := space_objects s; alerts := alerts s;
     last_alert_time := last_alert_time s; clock_reads := clock_reads s;
     rng_calls := S (rng_calls s); emitted := emitted s |}.

(** ** Numeric functions *)

Section Numeric.
Local Open Scope R_scope.

Definition EARTH_RADIUS : R := 6371.0.

(** Gravitational parameter of the Earth, the literal of [_update_position]. *)
Definition MU : R := 398600.4418.

(** [math.atan2(y, x)] on reals. *)
Definition atan2 (y x : R) : R :=
  if decide (0 < x) then atan (y / x)
  else if decide (x < 0) then
         if decide (0 <= y) then atan (y / x) + PI else atan (y / x) - PI
       else if decide (0 < y) then PI / 2
            else if decide (y < 0) then - (PI / 2) else 0.

(** [random.uniform(a, b)] from the unit sample [u]. *)
Definition uniform (a b u : R) : R := a + (b - a) * u.

(** [random.gauss(mu, sigma)] from the standard normal sample [g]. *)
Definition gauss (mu sigma g : R) : R := mu + g * sigma.

(** [sum(...)] of Python: a left fold from [0]. *)
Definition sum (l : list R) : R := foldl Rplus 0 l.

(** [OrbitPropagator._random_position]; [u_theta] and [u_phi] are the unit
    samples behind its two [random.uniform] calls. *)
Definition _random_position (altitude u_theta u_phi : R) : list R :=
  let radius := EARTH_RADIUS + altitude in
  let theta := uniform 0 (2 * PI) u_theta in
  let phi := uniform 0 PI u_phi in
  let x := radius * sin phi * cos theta in
  let y := radius * sin phi * sin theta in
  let z := radius * cos phi in
  [x; y; z].

(** [OrbitPropagator._update_position]; [g] is the sample behind its
    [random.gauss] call.  The object is returned instead of mutated; every
    exception is raised before the assignment to [obj["position"]] and
    before the call to [random.gauss]. *)
Definition _update_position (obj : SpaceObject) (dt g : R) : result SpaceObject :=
  match position obj with
  | [x; y; z] =>
      let r := sqrt (x ^ 2 + y ^ 2 + z ^ 2) in
      let theta := atan2 y x in
      if decide (r = 0) then Raise ZeroDivisionError
      else if decide (1 < Rabs (z / r)) then Raise ValueError
      else
        let phi := acos (z / r) in
        let altitude := altitude obj in
        let orbital_radius := EARTH_RADIUS + altitude in
        if decide (orbital_radius ^ 3 / MU < 0) then Raise ValueError
        else
          let orbital_period := 2 * PI * sqrt (orbital_radius ^ 3 / MU) in
          if decide (orbital_period = 0) then Raise ZeroDivisionError
          else
            let angular_velocity := 2 * PI / orbital_period in
            let theta := theta + angular_velocity * dt in
            let phi := phi + gauss 0 0.001 g in
            let x := r * sin phi * cos theta in
            let y := r * sin phi * sin theta in
            let z := r * cos phi in
            Ok (set_position [x; y; z] obj)
  | _ => Raise ValueError
  end.

(** [OrbitPropagator._calculate_distance] *)
Definition _calculate_distance (pos1 pos2 : list R) : R :=
  sqrt (sum (map (fun ab : R * R => (ab.1 - ab.2) ^ 2) (zip pos1 pos2))).

(** [OrbitPropagator._calculate_risk_level] *)
Definition _calculate_risk_level (distance time_to_conjunction : R) : RiskLevel :=
  if decide (distance < 20 /\ time_to_conjunction < 2) then High
  else if decide (distance < 50 /\ time_to_conjunction < 12) then Medium
  else Low.

(** The magnitude of a position vector. *)
Definition magnitude (p : list R) : R := sqrt (sum (map (fun a => a ^ 2) p)).

End Numeric.

(** ** The propagator *)

(** [l[-n:]] for a positive [n]. *)
Definition last_n {A : Type} (n : nat) (l : list A) : list A :=
  drop (length l - n) l.

Section Engine.
Variable env : Env.

(** [datetime.now()] *)
Definition now (s : State) : datetime * State :=
  (now_at env (clock_reads s), tick_clock s).

(** [OrbitPropagator.__init__].  The dictionary literals are evaluated in
    order: two [random.uniform] calls for the position, then
    [datetime.now()], for each of the three objects. *)
Definition __init__ : State :=
  {| space_objects :=
       [ {| obj_id := "25544"; name := "ISS (ZARYA)"; type_ := "satellite";
            orbit_type := "LEO"; altitude := 408.0; inclination := 51.6;
            position := _random_position 408.0 (rand_at env 0) (rand_at env 1);
            velocity := 7.66; last_update := now_at env 0;
            risk_objects := [] |};
         {| obj_id := "48274"; name := "COSMOS 2251 DEB"; type_ := "debris";
            orbit_type := "LEO"; altitude := 385.0; inclination := 74.2;
            position := _random_position 385.0 (rand_at env 2) (rand_at env 3);
            velocity := 7.7; last_update := now_at env 1;
            risk_objects := [] |};
         {| obj_id := "33692"; name := "FENGYUN 1C DEB"; type_ := "debris";
            orbit_type := "LEO"; altitude := 420.0; inclination := 98.5;
            position := _random_position 420.0 (rand_at env 4) (rand_at env 5);
            velocity := 7.62; last_update := now_at env 2;
            risk_objects := [] |} ];
     alerts := [];
     last_alert_time := (now_at env 3 - seconds 300)%Z;
     clock_reads := 4;
     rng_calls := 6;
     emitted := [] |}.

(** The dictionary [_generate_alert] builds in state [s]. *)
Definition new_alert (obj1 obj2 : SpaceObject) (distance time_to_conjunction : R)
    (s : State) : Alert :=
  {| alert_id := (Z.of_nat (length (alerts s)) + 1)%Z;
     timestamp := now_at env (clock_reads s);
     severity := "high";
     message := {| msg_name1 := name obj1; msg_name2 := name obj2;
                   msg_distance := distance;
                   msg_time_to_conjunction := time_to_conjunction |};
     object_ids := [obj_id obj1; obj_id obj2] |}.

(** [OrbitPropagator._generate_alert] *)
Definition _generate_alert (obj1 obj2 : SpaceObject)
    (distance time_to_conjunction : R) (s : State) : State :=
  let alert := new_alert obj1 obj2 distance time_to_conjunction s in
  let s := tick_clock s in
  let s := set_alerts (alerts s ++ [alert]) s in
  if decide (100 < length (alerts s)) then set_alerts (last_n 100 (alerts s)) s
  else s.

(** [self.space_objects[i]["risk_objects"].append(rd)] *)
Definition append_risk (i : nat) (rd : RiskData) (s : State) : State :=
  match space_objects s !! i with
  | Some o =>
      set_space_objects
        (<[i := set_risk_objects (risk_objects o ++ [rd]) o]> (space_objects s)) s
  | None => s
  end.

(** The body of the inner loop of [_check_conjunctions] for the objects at
    indices [i] and [j]. *)
Definition check_pair (i j : nat) (s : State) : State :=
  match space_objects s !! i, space_objects s !! j with
  | Some obj1, Some obj2 =>
      let distance := _calculate_distance (position obj1) (position obj2) in
      let rel_velocity := Rabs (velocity obj1 - velocity obj2) in
      let time_to_conjunction :=
        Rmax 0.1 (distance / (rel_velocity + 0.001)) in
      if decide (distance < 100)%R then
        let risk_data :=
          {| object_id := obj_id obj2; distance_km := distance;
             velocity_kmps := rel_velocity;
             time_to_conjunction := time_to_conjunction;
             risk_level := _calculate_risk_level distance time_to_conjunction |} in
        let s := append_risk i risk_data s in
        let risk_data :=
          {| object_id := obj_id obj1; distance_km := distance;
             velocity_kmps := rel_velocity;
             time_to_conjunction := time_to_conjunction;
             risk_level := _calculate_risk_level distance time_to_conjunction |} in
        let s := append_risk j risk_data s in
        let '(current_time, s) := now s in
        if decide (risk_level risk_data = High /\
                   (current_time - last_alert_time s > seconds 10)%Z) then
          let alert := new_alert obj1 obj2 distance time_to_conjunction s in
          let s := _generate_alert obj1 obj2 distance time_to_conjunction s in
          let s := set_last_alert_time current_time s in
          set_emitted (emitted s ++ [(current_time, alert)]) s
        else s
      else s
  | _, _ => s
  end.

(** The first loop of [_check_conjunctions]. *)
Definition clear_risk_objects (s : State) : State :=
  set_space_objects (map (set_risk_objects []) (space_objects s)) s.

(** [OrbitPropagator._check_conjunctions]: [i] runs over all indices and
    [j] over the indices of the slice [space_objects[i+1:]]. *)
Definition _check_conjunctions (s : State) : State :=
  let s := clear_risk_objects s in
  let n := length (space_objects s) in
  foldl (fun s i => foldl (fun s j => check_pair i j s) s (seq (S i) (n - S i)))
        s (seq 0 n).

(** What a method leaves behind: its value and the state, or the exception
    and the state as mutated up to the raise. *)
Inductive outcome (A : Type) :=
| Returned (a : A) (s : State)
| Raised (e : exn) (s : State).
Arguments Returned {A} a s.
Arguments Raised {A} e s.

(** One iteration of the loop of [update], for the object at index [i]. *)
Definition update_object (dt : R) (i : nat) (s : State) : outcome unit :=
  match space_objects s !! i with
  | Some obj =>
      match _update_position obj dt (rand_at env (rng_calls s)) with
      | Ok obj' =>
          let s := tick_rng s in
          let '(t, s) := now s in
          Returned tt (set_space_objects
                         (<[i := set_last_update t obj']> (space_objects s)) s)
      | Raise e => Raised e s
      end
  | None => Returned tt s
  end.

Fixpoint update_objects (dt : R) (idx : list nat) (s : State) : outcome unit :=
  match idx with
  | [] => Returned tt s
  | i :: idx' =>
      match update_object dt i s with
      | Returned _ s' => update_objects dt idx' s'
      | Raised e s' => Raised e s'
      end
  end.

(** The serialisable copy [get_objects] and [get_object_by_id] build. *)
Definition serialize (obj : SpaceObject) : SpaceObject :=
  {| obj_id := obj_id obj; name := name obj; type_ := type_ obj;
     orbit_type := orbit_type obj; altitude := altitude obj;
     inclination := inclination obj; position := position obj;
     velocity := velocity obj; last_update := last_update obj;
     risk_objects := risk_objects obj |}.

(** [OrbitPropagator.get_objects] *)
Definition get_objects (s : State) : list SpaceObject :=
  map serialize (space_objects s).

(** [OrbitPropagator.get_alerts] *)
Definition get_alerts (s : State) : list Alert := alerts s.

(** [OrbitPropagator.get_object_by_id]; [None] is Python's [None]. *)
Definition get_object_by_id (object_id : string) (s : State) : option SpaceObject :=
  match find (fun obj => bool_decide (obj_id obj = object_id)) (space_objects s) with
  | Some obj => Some (serialize obj)
  | None => None
  end.

(** [OrbitPropagator.update] *)
Definition update (dt : R) (s : State)
    : outcome (list SpaceObject * list Alert) :=
  match update_objects dt (seq 0 (length (space_objects s))) s with
  | Returned _ s =>
      let s := _check_conjunctions s in
      Returned (get_objects s, get_alerts s) s
  | Raised e s => Raised e s
  end.

(** [dts] successive calls of [update], stopping at the first that raises. *)
Fixpoint run_updates (dts : list R) (s : State) : outcome unit :=
  match dts with
  | [] => Returned tt s
  | dt :: dts' =>
      match update dt s with
      | Returned _ s' => run_updates dts' s'
      | Raised e s' => Raised e s'
      end
  end.

End Engine.

Arguments Returned {A} a s.
Arguments Raised {A} e s.

(** ** The API layer and the update task ([main.py]) *)

(** What a route handler produces: a response body, or the [HTTPException]
    it raises. *)
Inductive http (A : Type) :=
| Response (body : A)
| HTTPException (status_code : Z) (detail : string).
Arguments Response {A} body.
Arguments HTTPException {A} status_code detail.

(** [get_object], the handler of [GET /objects/{object_id}] *)
Definition get_object (object_id : string) (propagator : State) : http SpaceObject :=
  match get_object_by_id object_id propagator with
  | None => HTTPException 404 "Object not found"
  | Some obj => Response obj
  end.

(** A connected WebSocket is named by a number. *)
Definition WebSocket := nat.

(** The only record the update task writes to the log. *)
Inductive LogRecord :=
| ErrorSendingToClient (client : WebSocket).

(** The state the update task works on: the propagator singleton, the
    module-level list [connected_clients], the number of [send_json] calls
    the task has made so far and the records it has written to the log.
    What the endpoints of the clients do while the task is suspended is
    left to [broadcast_interleaved]. *)
Record TaskState := {
  propagator : State;
  connected_clients : list WebSocket;
  sends : nat;
  log : list LogRecord
}.

(** [l.remove(x)], with the [ValueError] of an absent [x] passed over as
    the task does. *)
Fixpoint remove_first (x : WebSocket) (l : list WebSocket) : list WebSocket :=
  match l with
  | [] => []
  | y :: l' => if decide (y = x) then l' else y :: remove_first x l'
  end.

(** The task state around a propagator as [update] left it. *)
Definition with_propagator (p : State) (ts : TaskState) : TaskState :=
  {| propagator := p; connected_clients := connected_clients ts;
     sends := sends ts; log := log ts |}.

Section Task.
Variable env : Env.
(** Whether the k-th [send_json] of the task raises. *)
Variable send_fails : nat -> bool.

(** The body of [for client in connected_clients.copy()]. *)
Definition send_to (ts : TaskState) (client : WebSocket) : TaskState :=
  if send_fails (sends ts) then
    {| propagator := propagator ts;
       connected_clients := remove_first client (connected_clients ts);
       sends := S (sends ts);
       log := log ts ++ [ErrorSendingToClient client] |}
  else
    {| propagator := propagator ts;
       connected_clients := connected_clients ts;
       sends := S (sends ts);
       log := log ts |}.

Definition broadcast (ts : TaskState) : TaskState :=
  foldl send_to ts (connected_clients ts).

(** How the task stands after some iterations: suspended in its loop, or
    ended by an exception. *)
Inductive TaskOutcome :=
| Looping (ts : TaskState)
| Terminated (e : exn) (ts : TaskState).

(** [update_orbits_task], run for at most [fuel] iterations of its
    [while True] loop.  [propagator.update()] is called outside any [try]. *)
Fixpoint update_orbits_task (fuel : nat) (ts : TaskState) : TaskOutcome :=
  match fuel with
  | O => Looping ts
  | S fuel' =>
      match update env 60 (propagator ts) with
      | Raised e p => Terminated e (with_propagator p ts)
      | Returned _ p =>
          update_orbits_task fuel' (broadcast (with_propagator p ts))
      end
  end.

End Task.

(** ** Notions the statements use *)

Definition outcome_state {A : Type} (o : outcome A) : State :=
  match o with
  | Returned _ s => s
  | Raised _ s => s
  end.

(** [n] successive calls of [_generate_alert] with the same arguments. *)
Fixpoint emit_alerts (env : Env) (obj1 obj2 : SpaceObject) (d t : R)
    (n : nat) (s : State) : State :=
  match n with
  | O => s
  | S n' => _generate_alert env obj1 obj2 d t (emit_alerts env obj1 obj2 d t n' s)
  end.

(** The atomic mutations of the propagator: one iteration of the loop of
    [update], the clearing loop of [_check_conjunctions], one iteration of
    its inner loop.  Every run of [update] is a sequence of them. *)
Inductive step (env : Env) : State -> State -> Prop :=
| step_update_object dt i s s' :
    update_object env dt i s = Returned tt s' -> step env s s'
| step_clear s :
    step env s (clear_risk_objects s)
| step_check_pair i j s :
    step env s (check_pair env i j s).

(** A clock that never runs backwards. *)
Definition monotone_clock (env : Env) : Prop :=
  forall k k', k <= k' -> (now_at env k <= now_at env k')%Z.

(** The throttle as [__init__] leaves it: nothing emitted, and
    [last_alert_time] five minutes before some clock value already read. *)
Definition fresh_throttle (env : Env) (s : State) : Prop :=
  alerts s = [] /\ emitted s = [] /\
  exists k, k <= clock_reads s /\
            last_alert_time s = (now_at env k - seconds 300)%Z.

(** The numbers [_check_conjunctions] computes for the pair
    ([obj1], [obj2]), [obj1] being the object of the outer loop. *)
Definition pair_distance (obj1 obj2 : SpaceObject) : R :=
  _calculate_distance (position obj1) (position obj2).

Definition pair_rel_velocity (obj1 obj2 : SpaceObject) : R :=
  Rabs (velocity obj1 - velocity obj2).

Definition pair_time (obj1 obj2 : SpaceObject) : R :=
  Rmax 0.1 (pair_distance obj1 obj2 / (pair_rel_velocity obj1 obj2 + 0.001)).

Definition pair_risk (obj1 obj2 : SpaceObject) : RiskLevel :=
  _calculate_risk_level (pair_distance obj1 obj2) (pair_time obj1 obj2).

(** The entry naming [peer] that the pair ([obj1], [obj2]) gives rise to. *)
Definition risk_entry (obj1 obj2 : SpaceObject) (peer : string) : RiskData :=
  {| object_id := peer;
     distance_km := pair_distance obj1 obj2;
     velocity_kmps := pair_rel_velocity obj1 obj2;
     time_to_conjunction := pair_time obj1 obj2;
     risk_level := pair_risk obj1 obj2 |}.

(** The two appends of one iteration. *)
Definition annotate (i j : nat) (obj1 obj2 : SpaceObject) (s : State) : State :=
  append_risk j (risk_entry obj1 obj2 (obj_id obj1))
    (append_risk i (risk_entry obj1 obj2 (obj_id obj2)) s).

(** The catalog without its risk lists: what a detection pass reads. *)
Definition geometry (l : list SpaceObject) : list SpaceObject :=
  map (set_risk_objects []) l.

(** The index pairs of the two loops of [_check_conjunctions], in order. *)
Definition all_pairs (n : nat) : list (nat * nat) :=
  flat_map (fun i => map (fun j => (i, j)) (seq (S i) (n - S i))) (seq 0 n).

(** The entries the pairs [ps] add to the object at index [k], computed
    from the catalog [g]. *)
Definition entries_for (g : list SpaceObject) (k : nat) (ps : list (nat * nat))
    : list RiskData :=
  flat_map (fun p : nat * nat =>
    match g !! p.1, g !! p.2 with
    | Some obj1, Some obj2 =>
        if decide (pair_distance obj1 obj2 < 100)%R then
          (if decide (p.1 = k) then [risk_entry obj1 obj2 (obj_id obj2)] else []) ++
          (if decide (p.2 = k) then [risk_entry obj1 obj2 (obj_id obj1)] else [])
        else []
    | _, _ => []
    end) ps.

(** What never changes about an object. *)
Definition identity_of (o : SpaceObject) : string * string * string :=
  (obj_id o, name o, type_ o).

(** The history of emissions is well spaced: the cooldown tests of any two
    of them read clock values more than ten seconds apart. *)
Definition spaced (h : list (datetime * Alert)) : Prop :=
  forall p q cp ap cq aq,
    p < q -> h !! p = Some (cp, ap) -> h !! q = Some (cq, aq) ->
    (cq - cp > seconds 10)%Z.

(** The invariant of the throttle. *)
Definition throttle_inv (env : Env) (s : State) : Prop :=
  alerts s = last_n 100 (snd <$> emitted s) /\
  spaced (emitted s) /\
  (forall c a, (c, a) ∈ emitted s ->
     (c <= last_alert_time s)%Z /\
     exists k, c = now_at env k /\ timestamp a = now_at env (S k)) /\
  (emitted s = [] ->
     exists k, k <= clock_reads s /\
               last_alert_time s = (now_at env k - seconds 300)%Z).

(** The risk list of the object at index [k], if there is one. *)
Definition risk_at (s : State) (k : nat) : option (list RiskData) :=
  risk_objects <$> space_objects s !! k.

(** The inner and outer loop of [_check_conjunctions] as one loop over
    index pairs. *)
Definition check_pairs (env : Env) (ps : list (nat * nat)) (s : State) : State :=
  foldl (fun s (p : nat * nat) => check_pair env p.1 p.2 s) s ps.

(** The radius invariant of an object: a position of three coordinates
    whose magnitude is the orbital radius, the latter positive. *)
Definition radius_ok (o : SpaceObject) : Prop :=
  length (position o) = 3 /\
  magnitude (position o) = (EARTH_RADIUS + altitude o)%R /\
  (0 < EARTH_RADIUS + altitude o)%R.

(** ** Concrete inputs *)

(** A clock that advances by one microsecond per reading, and a generator
    whose samples are all [0]. *)
Definition clock0 : Env :=
  {| now_at := fun k => Z.of_nat k; rand_at := fun _ => 0%R |}.

(** A piece of debris at altitude 400 km, with the given identifier,
    position and speed. *)
Definition debris (id : string) (pos : list R) (v : R) : SpaceObject :=
  {| obj_id := id; name := id; type_ := "debris"; orbit_type := "LEO";
     altitude := 400; inclination := 0; position := pos; velocity := v;
     last_update := 0; risk_objects := [] |}.

(** A propagator over the catalog [objs] that has just been created. *)
Definition propagator_of (objs : list SpaceObject) : State :=
  {| space_objects := objs; alerts := [];
     last_alert_time := (- seconds 300)%Z;
     clock_reads := 0; rng_calls := 0; emitted := [] |}.

(** A task whose catalog holds one object at the centre of the Earth. *)
Definition task_at_origin : TaskState :=
  {| propagator := propagator_of [debris "X" [0; 0; 0]%R 7.7%R];
     connected_clients := [1; 2];
     sends := 0;
     log := [] |}.

(** Two objects at the same point of the 400 km orbit. *)
Definition colocated : State :=
  propagator_of [debris "A" [6771; 0; 0]%R 7.66%R; debris "B" [6771; 0; 0]%R 7.7%R].

(** A clock that never runs backwards: the cooldown test of the first tick
    reads 2 and the alert it emits reads 42; the cooldown test of the second
    tick reads 10000003 and its alert 10000004. *)
Definition late_stamp_clock : Env :=
  {| now_at := fun k =>
       match k with
       | 0 => 0%Z | 1 => 1%Z | 2 => 2%Z | 3 => 42%Z
       | 4 => 10000001%Z | 5 => 10000002%Z | 6 => 10000003%Z
       | _ => 10000004%Z
       end;
     rand_at := fun _ => 0%R |}.

(** A wall clock that is set back by one hour after its second reading,
    and a generator whose samples are all [0]. *)
Definition set_back_clock : Env :=
  {| now_at := fun k =>
       match k with
       | 0 => 0%Z | 1 => 0%Z
       | _ => (- seconds 3600)%Z
       end;
     rand_at := fun _ => 0%R |}.

(** ** The propagator over a store of list objects

    The embedding above passes lists by value.  To say what a reader that
    holds a value returned by [get_objects] or [get_alerts] can observe or
    change, this second embedding of the same methods keeps every Python list
    the propagator creates in a store and lets dictionaries and the
    propagator hold references to them.  The elements of the lists (floats,
    risk entries, alert dictionaries) are kept by value; the numbers are
    computed by the functions of the first embedding. *)

Module Aliasing.

(** The store: the lists of floats, of risk entries and of alerts that
    have been created, and the next unused reference. *)
Record Heap := {
  float_lists : gmap nat (list R);
  risk_lists : gmap nat (list RiskData);
  alert_lists : gmap nat (list Alert);
  next_ref : nat
}.

(** The creation of a new list object. *)
Definition alloc_floats (l : list R) (h : Heap) : nat * Heap :=
  (next_ref h,
   {| float_lists := <[next_ref h := l]> (float_lists h);
      risk_lists := risk_lists h; alert_lists := alert_lists h;
      next_ref := S (next_ref h) |}).

Definition alloc_risks (l : list RiskData) (h : Heap) : nat * Heap :=
  (next_ref h,
   {| float_lists := float_lists h;
      risk_lists := <[next_ref h := l]> (risk_lists h);
      alert_lists := alert_lists h;
      next_ref := S (next_ref h) |}).

Definition alloc_alerts (l : list Alert) (h : Heap) : nat * Heap :=
  (next_ref h,
   {| float_lists := float_lists h; risk_lists := risk_lists h;
      alert_lists := <[next_ref h := l]> (alert_lists h);
      next_ref := S (next_ref h) |}).

(** [l.append(x)] on the list object [r]. *)
Definition append_risk_list (r : nat) (x : RiskData) (h : Heap) : Heap :=
  {| float_lists := float_lists h;
     risk_lists := alter (fun l => l ++ [x]) r (risk_lists h);
     alert_lists := alert_lists h; next_ref := next_ref h |}.

Definition append_alert_list (r : nat) (x : Alert) (h : Heap) : Heap :=
  {| float_lists := float_lists h; risk_lists := risk_lists h;
     alert_lists := alter (fun l => l ++ [x]) r (alert_lists h);
     next_ref := next_ref h |}.

(** An element of [self.space_objects], or a dictionary built by
    [get_objects]: the keys ["position"] and ["risk_objects"] hold
    references. *)
Record ObjectDict := {
  d_id : string;
  d_name : string;
  d_type : string;
  d_orbit_type : string;
  d_altitude : R;
  d_inclination : R;
  d_position : nat;
  d_velocity : R;
  d_last_update : Z;
  d_risk_objects : nat
}.

Definition set_d_position (r : nat) (d : ObjectDict) : ObjectDict :=
  {| d_id := d_id d; d_name := d_name d; d_type := d_type d;
     d_orbit_type := d_orbit_type d; d_altitude := d_altitude d;
     d_inclination := d_inclination d; d_position := r;
     d_velocity := d_velocity d; d_last_update := d_last_update d;
     d_risk_objects := d_risk_objects d |}.

Definition set_d_last_update (t : Z) (d : ObjectDict) : ObjectDict :=
  {| d_id := d_id d; d_name := d_name d; d_type := d_type d;
     d_orbit_type := d_orbit_type d; d_altitude := d_altitude d;
     d_inclination := d_inclination d; d_position := d_position d;
     d_velocity := d_velocity d; d_last_update := t;
     d_risk_objects := d_risk_objects d |}.

Definition set_d_risk_objects (r : nat) (d : ObjectDict) : ObjectDict :=
  {| d_id := d_id d; d_name := d_name d; d_type := d_type d;
     d_orbit_type := d_orbit_type d; d_altitude := d_altitude d;
     d_inclination := d_inclination d; d_position := d_position d;
     d_velocity := d_velocity d; d_last_update := d_last_update d;
     d_risk_objects := r |}.

(** What a dictionary shows in the store [h]: its lists read through its
    references (a reference to no list reads as the empty list). *)
Definition read_object (h : Heap) (d : ObjectDict) : SpaceObject :=
  {| obj_id := d_id d; name := d_name d; type_ := d_type d;
     orbit_type := d_orbit_type d; altitude := d_altitude d;
     inclination := d_inclination d;
     position := default [] (float_lists h !! d_position d);
     velocity := d_velocity d; last_update := d_last_update d;
     risk_objects := default [] (risk_lists h !! d_risk_objects d) |}.

(** The propagator object: [p_alerts] is a reference to the list
    [self.alerts]. *)
Record Propagator := {
  p_space_objects : list ObjectDict;
  p_alerts : nat;
  p_last_alert_time : Z;
  p_clock_reads : nat;
  p_rng_calls : nat;
  p_heap : Heap
}.

Definition read_alerts (h : Heap) (r : nat) : list Alert :=
  default [] (alert_lists h !! r).

Section Methods.
Variable env : Env.

(** [OrbitPropagator._generate_alert]: [append] works on the list object
    in place; the slice at the cap is a new list object, to which
    [self.alerts] is rebound. *)
Definition _generate_alert (obj1 obj2 : SpaceObject)
    (distance time_to_conjunction : R) (p : Propagator) : Propagator :=
  let alert :=
    {| alert_id := (Z.of_nat (length (read_alerts (p_heap p) (p_alerts p))) + 1)%Z;
       timestamp := now_at env (p_clock_reads p);
       severity := "high";
       message := {| msg_name1 := name obj1; msg_name2 := name obj2;
                     msg_distance := distance;
                     msg_time_to_conjunction := time_to_conjunction |};
       object_ids := [obj_id obj1; obj_id obj2] |} in
  let h := append_alert_list (p_alerts p) alert (p_heap p) in
  if decide (100 < length (read_alerts h (p_alerts p))) then
    let '(r, h) := alloc_alerts (last_n 100 (read_alerts h (p_alerts p))) h in
    {| p_space_objects := p_space_objects p; p_alerts := r;
       p_last_alert_time := p_last_alert_time p;
       p_clock_reads := S (p_clock_reads p); p_rng_calls := p_rng_calls p;
       p_heap := h |}
  else
    {| p_space_objects := p_space_objects p; p_alerts := p_alerts p;
       p_last_alert_time := p_last_alert_time p;
       p_clock_reads := S (p_clock_reads p); p_rng_calls := p_rng_calls p;
       p_heap := h |}.

Definition set_objects_heap (ds : list ObjectDict) (h : Heap) (p : Propagator)
    : Propagator :=
  {| p_space_objects := ds; p_alerts := p_alerts p;
     p_last_alert_time := p_last_alert_time p;
     p_clock_reads := p_clock_reads p; p_rng_calls := p_rng_calls p;
     p_heap := h |}.

Definition set_heap (h : Heap) (p : Propagator) : Propagator :=
  set_objects_heap (p_space_objects p) h p.

(** One iteration of the loop of [update]: [_update_position] binds
    ["position"] to a new list, then ["last_update"] is set. *)
Definition update_object (dt : R) (i : nat) (p : Propagator)
    : result Propagator :=
  match p_space_objects p !! i with
  | Some d =>
      match _update_position (read_object (p_heap p) d) dt
              (rand_at env (p_rng_calls p)) with
      | Ok obj' =>
          let '(r, h) := alloc_floats (position obj') (p_heap p) in
          let d' := set_d_last_update (now_at env (p_clock_reads p))
                      (set_d_position r d) in
          Ok {| p_space_objects := <[i := d']> (p_space_objects p);
                p_alerts := p_alerts p;
                p_last_alert_time := p_last_alert_time p;
                p_clock_reads := S (p_clock_reads p);
                p_rng_calls := S (p_rng_calls p);
                p_heap := h |}
      | Raise e => Raise e
      end
  | None => Ok p
  end.

(** The loop of [update]; on a raise the propagator stays as mutated so
    far. *)
Fixpoint update_objects (dt : R) (idx : list nat) (p : Propagator)
    : option exn * Propagator :=
  match idx with
  | [] => (None, p)
  | i :: idx' =>
      match update_object dt i p with
      | Ok p' => update_objects dt idx' p'
      | Raise e => (Some e, p)
      end
  end.

(** The first loop of [_check_conjunctions]: every dictionary gets a new
    empty list of its own. *)
Fixpoint clear_risk_objects (ds : list ObjectDict) (h : Heap)
    : list ObjectDict * Heap :=
  match ds with
  | [] => ([], h)
  | d :: ds' =>
      let '(r, h) := alloc_risks [] h in
      let '(ds'', h) := clear_risk_objects ds' h in
      (set_d_risk_objects r d :: ds'', h)
  end.

(** The body of the inner loop of [_check_conjunctions]. *)
Definition check_pair (i j : nat) (p : Propagator) : Propagator :=
  match p_space_objects p !! i, p_space_objects p !! j with
  | Some d1, Some d2 =>
      let obj1 := read_object (p_heap p) d1 in
      let obj2 := read_object (p_heap p) d2 in
      if decide (pair_distance obj1 obj2 < 100)%R then
        let h := append_risk_list (d_risk_objects d1)
                   (risk_entry obj1 obj2 (obj_id obj2)) (p_heap p) in
        let h := append_risk_list (d_risk_objects d2)
                   (risk_entry obj1 obj2 (obj_id obj1)) h in
        let current_time := now_at env (p_clock_reads p) in
        let p := {| p_space_objects := p_space_objects p; p_alerts := p_alerts p;
                    p_last_alert_time := p_last_alert_time p;
                    p_clock_reads := S (p_clock_reads p);
                    p_rng_calls := p_rng_calls p; p_heap := h |} in
        if decide (pair_risk obj1 obj2 = High /\
                   (current_time - p_last_alert_time p > seconds 10)%Z) then
          let p := _generate_alert obj1 obj2 (pair_distance obj1 obj2)
                     (pair_time obj1 obj2) p in
          {| p_space_objects := p_space_objects p; p_alerts := p_alerts p;
             p_last_alert_time := current_time;
             p_clock_reads := p_clock_reads p; p_rng_calls := p_rng_calls p;
             p_heap := p_heap p |}
        else p
      else p
  | _, _ => p
  end.

(** [OrbitPropagator._check_conjunctions] *)
Definition _check_conjunctions (p : Propagator) : Propagator :=
  let '(ds, h) := clear_risk_objects (p_space_objects p) (p_heap p) in
  let p := set_objects_heap ds h p in
  let n := length (p_space_objects p) in
  foldl (fun p i => foldl (fun p j => check_pair i j p) p (seq (S i) (n - S i)))
        p (seq 0 n).

(** [OrbitPropagator.get_objects]: a new list of new dictionaries; the
    values of ["position"] and ["risk_objects"] are the references the
    catalog holds. *)
Definition get_objects (p : Propagator) : list ObjectDict :=
  map (fun d =>
         {| d_id := d_id d; d_name := d_name d; d_type := d_type d;
            d_orbit_type := d_orbit_type d; d_altitude := d_altitude d;
            d_inclination := d_inclination d; d_position := d_position d;
            d_velocity := d_velocity d; d_last_update := d_last_update d;
            d_risk_objects := d_risk_objects d |})
      (p_space_objects p).

(** [OrbitPropagator.get_alerts]: the reference [self.alerts] itself. *)
Definition get_alerts (p : Propagator) : nat := p_alerts p.

(** [OrbitPropagator.update]; the propagator it leaves behind, and the
    exception if it raised. *)
Definition update (dt : R) (p : Propagator) : option exn * Propagator :=
  match update_objects dt (seq 0 (length (p_space_objects p))) p with
  | (None, p) => (None, _check_conjunctions p)
  | (Some e, p) => (Some e, p)
  end.

End Methods.



End Aliasing.




(** Two objects exactly 100 km apart. *)
Definition far_apart : State :=
  propagator_of [debris "A" [6771; 0; 0]%R 7.66%R; debris "C" [6671; 0; 0]%R 7.7%R].

(** A clock that advances by three seconds per reading, and a generator
    whose samples are all [0]. *)
Definition slow_clock : Env :=
  {| now_at := fun k => (3000000 * Z.of_nat k)%Z; rand_at := fun _ => 0%R |}.

(** The propagator of two co-located objects after [m] calls of [update]
    under the slow clock: every call has emitted an alert. *)
Definition alerting (m : nat) (s : State) : Prop :=
  (exists o1 o2, space_objects s = [o1; o2] /\ position o1 = position o2 /\
                 altitude o1 = altitude o2 /\ radius_ok o1) /\
  clock_reads s = 4 * m /\
  rand_at slow_clock (rng_calls s) = rand_at slow_clock (S (rng_calls s)) /\
  (last_alert_time s <= seconds (12 * Z.of_nat m - 6))%Z /\
  length (alerts s) = Nat.min m 100.







(** ** The risk model ([ml_model.py])

    [CollisionRiskModel] keeps no state its methods read: [feature_names]
    and [model_ready] are written by [__init__] only, so the methods are
    functions of their arguments and [get_model] always hands out an object
    that behaves the same.  The feature dictionary is a finite map from
    keys to floats, read with [features.get(key, default)].  The texts the
    model builds are f-strings over numbers rounded to one decimal; the
    model keeps the numbers. *)

Module Model.

(** The exceptions the module can raise: the division of
    [_calculate_risk_score] and the subscript [RISK_LEVELS[...]]. *)
Inductive exception := ZeroDivisionError | KeyError.

Inductive raised (A : Type) :=
| Value (a : A)
| Exception (e : exception).
Arguments Value {A} a.
Arguments Exception {A} e.

Definition RISK_LEVELS : gmap Z string :=
  <[0%Z := "Low"]> (<[1%Z := "Medium"]> (<[2%Z := "High"]> ∅)).

(** [features.get(key, default)] *)
Definition get (features : gmap string R) (key : string) (default_value : R) : R :=
  default default_value (features !! key).

(** [CollisionRiskModel._calculate_risk_score].  The two divisions are
    evaluated left to right; either raises on a zero divisor. *)
Definition _calculate_risk_score (features : gmap string R) : raised R :=
  let distance := get features "distance_km" 50%R in
  let velocity := get features "velocity_kmps" 7.5%R in
  let time_to_conjunction := get features "time_to_conjunction" 48%R in
  if decide (distance + 1 = 0)%R then Exception ZeroDivisionError
  else if decide (time_to_conjunction + 1 = 0)%R then Exception ZeroDivisionError
  else
    let risk_score :=
      ((1 / (distance + 1)) * velocity * (1 / (time_to_conjunction + 1)))%R in
    let normalized_score := Rmin (Rmax (risk_score * 10) 0) 1 in
    Value normalized_score.

(** The four texts of [_generate_maneuver_suggestion], each with the
    numbers it prints. *)
Inductive Suggestion :=
| NoManeuverRequired
| ConsiderAdjustment (km : R) (within_hours : Z)
| ImmediateManeuver (km : R)
| ExecuteManeuver (km : R) (within_hours : R).

(** [CollisionRiskModel._generate_maneuver_suggestion]; [None] is the
    [None] Python returns when the body falls off its end. *)
Definition _generate_maneuver_suggestion (risk_level : string)
    (features : gmap string R) : option Suggestion :=
  if decide (risk_level = "Low") then Some NoManeuverRequired
  else
    let distance := get features "distance_km" 100%R in
    let time_to_conjunction := get features "time_to_conjunction" 24%R in
    if decide (risk_level = "Medium") then
      if decide (time_to_conjunction < 12)%R
      then Some (ConsiderAdjustment (distance / 20)%R 12)
      else Some (ConsiderAdjustment (distance / 40)%R 48)
    else if decide (risk_level = "High") then
      if decide (time_to_conjunction < 6)%R
      then Some (ImmediateManeuver (distance / 10)%R)
      else Some (ExecuteManeuver (distance / 15)%R
                   (Rmin 24 (time_to_conjunction / 2)))
    else None.

(** The three texts of [_generate_explanation], each with the numbers it
    prints. *)
Inductive Explanation :=
| LowRiskDetected (distance time_to_conjunction : R)
| MediumRiskDetected (distance velocity : R)
| HighRiskDetected (distance time_to_conjunction : R).

(** [CollisionRiskModel._generate_explanation] *)
Definition _generate_explanation (features : gmap string R) (risk_level_idx : Z)
    : Explanation :=
  let distance := get features "distance_km" 100%R in
  let velocity := get features "velocity_kmps" 7.5%R in
  let time_to_conjunction := get features "time_to_conjunction" 24%R in
  if decide (risk_level_idx = 0%Z) then LowRiskDetected distance time_to_conjunction
  else if decide (risk_level_idx = 1%Z) then MediumRiskDetected distance velocity
  else HighRiskDetected distance time_to_conjunction.

(** [CollisionRiskModel._get_feature_importance]: name and importance. *)
Definition _get_feature_importance : list (string * R) :=
  [("distance_km", 0.4%R); ("velocity_kmps", 0.3%R);
   ("time_to_conjunction", 0.2%R); ("altitude", 0.05%R);
   ("inclination", 0.05%R)].

(** The dictionary [predict_risk] returns. *)
Record Prediction := {
  probability : R;
  risk_level : string;
  maneuver_suggestion : option Suggestion;
  explanation : Explanation;
  feature_importance : list (string * R)
}.

(** [CollisionRiskModel.predict_risk] *)
Definition predict_risk (features : gmap string R) : raised Prediction :=
  match _calculate_risk_score features with
  | Exception e => Exception e
  | Value risk_score =>
      let risk_level_idx :=
        if decide (0.6 < risk_score)%R then 2%Z
        else if decide (0.2 < risk_score)%R then 1%Z
        else 0%Z in
      match RISK_LEVELS !! risk_level_idx with
      | None => Exception KeyError
      | Some risk_level =>
          let probability :=
            if decide (risk_level_idx = 2%Z) then risk_score
            else if decide (risk_level_idx = 1%Z) then (0.5 + risk_score / 2)%R
            else (1 - risk_score)%R in
          let maneuver_suggestion :=
            _generate_maneuver_suggestion risk_level features in
          let explanation := _generate_explanation features risk_level_idx in
          Value {| probability := probability;
                   risk_level := risk_level;
                   maneuver_suggestion := maneuver_suggestion;
                   explanation := explanation;
                   feature_importance := _get_feature_importance |}
      end
  end.

End Model.

(** ** The maneuver route ([main.py]) *)

Module Api.

(** The request body of [POST /objects/{object_id}/suggest_maneuver]. *)
Record ManeuverRequest := {
  object_id : string;
  distance_km : R;
  velocity_kmps : R;
  altitude : R;
  inclination : R;
  time_to_conjunction : R
}.

(** The dictionary literal [features] of [suggest_maneuver]. *)
Definition features (request : ManeuverRequest) : gmap string R :=
  <["distance_km" := distance_km request]>
    (<["velocity_kmps" := velocity_kmps request]>
       (<["altitude" := altitude request]>
          (<["inclination" := inclination request]>
             (<["time_to_conjunction" := time_to_conjunction request]> ∅)))).

(** [suggest_maneuver]: the response, the [HTTPException] the handler
    raises itself, or the exception of the model it lets through. *)
Definition suggest_maneuver (object_id : string) (request : ManeuverRequest)
    (propagator : State) : Model.raised (http Model.Prediction) :=
  match get_object_by_id object_id propagator with
  | None => Model.Value (HTTPException 404 "Object not found")
  | Some obj =>
      match Model.predict_risk (features request) with
      | Model.Value prediction => Model.Value (Response prediction)
      | Model.Exception e => Model.Exception e
      end
  end.

End Api.

(** The orbital period and the angular velocity [_update_position]
    computes for an altitude. *)
Definition orbital_period (altitude : R) : R :=
  (2 * PI * sqrt ((EARTH_RADIUS + altitude) ^ 3 / MU))%R.

Definition angular_velocity (altitude : R) : R :=
  (2 * PI / orbital_period altitude)%R.

(** The keys of an object no method assigns. *)
Definition static_of (o : SpaceObject)
    : string * string * string * string * R * R * R :=
  (obj_id o, name o, type_ o, orbit_type o, altitude o, inclination o, velocity o).

(** Orbits that keep the detection pass from a classification: the
    altitudes of any two objects of the catalog differ by [dmin] km or
    more, or by at least [tmin] times their relative speed plus 0.001. *)
Definition orbits_apart (dmin tmin : R) (l : list SpaceObject) : Prop :=
  forall i j o1 o2, i < j -> l !! i = Some o1 -> l !! j = Some o2 ->
    (dmin <= Rabs (altitude o1 - altitude o2) \/
     tmin * (Rabs (velocity o1 - velocity o2) + 0.001)
       <= Rabs (altitude o1 - altitude o2))%R.

(** The entries the object at index [k] of the catalog [g] holds after a
    detection pass, said directly: one for every other object closer than
    100 km, in the order of the catalog. *)
Definition close_peers (g : list SpaceObject) (k : nat) : list RiskData :=
  match g !! k with
  | Some o =>
      flat_map (fun j =>
        match g !! j with
        | Some peer =>
            if decide (j <> k /\ (pair_distance o peer < 100)%R)
            then [risk_entry o peer (obj_id peer)] else []
        | None => []
        end) (seq 0 (length g))
  | None => []
  end.

(** An alert as [_generate_alert] builds them, over a catalog with the
    identifiers [ids]. *)
Definition alert_wf (ids : list string) (a : Alert) : Prop :=
  severity a = "high" /\ (1 <= alert_id a <= 101)%Z /\
  exists id1 id2, object_ids a = [id1; id2] /\ id1 ∈ ids /\ id2 ∈ ids.

(** The log holds at most 100 alerts, all of them well formed. *)
Definition log_wf (s : State) : Prop :=
  length (alerts s) <= 100 /\
  Forall (alert_wf (obj_id <$> space_objects s)) (alerts s).

(** The argument of [asyncio.sleep] at the end of an iteration of
    [update_orbits_task], from the value of [time.time()]: [x % 1] is the
    fractional part of [x]. *)
Definition sleep_interval (time_time : R) : R := (2 + 3 * frac_part time_time)%R.

(** The [i]-th alert ever emitted has the id [min (i + 1) 101]. *)
Definition ids_inv (s : State) : Prop :=
  forall i c a, emitted s !! i = Some (c, a) ->
    alert_id a = Z.of_nat (Nat.min (S i) 101).

(** ** More concrete inputs *)

(** The features of the example at the end of [ml_model.py], as a request
    about the first object of the catalog. *)
Definition example_request : Api.ManeuverRequest :=
  {| Api.object_id := "25544"; Api.distance_km := 15; Api.velocity_kmps := 10;
     Api.altitude := 450; Api.inclination := 51.6;
     Api.time_to_conjunction := 8 |}.

(** The same conjunction seen from twice as far, twice as late and at half
    the speed. *)
Definition milder_request : Api.ManeuverRequest :=
  {| Api.object_id := "25544"; Api.distance_km := 30; Api.velocity_kmps := 5;
     Api.altitude := 450; Api.inclination := 51.6;
     Api.time_to_conjunction := 16 |}.

(** What the model answers to the example request. *)
Definition example_prediction : Model.Prediction :=
  {| Model.probability := (25 / 36)%R;
     Model.risk_level := "High";
     Model.maneuver_suggestion := Some (Model.ExecuteManeuver 1 4);
     Model.explanation := Model.HighRiskDetected 15 8;
     Model.feature_importance := Model._get_feature_importance |}.

(** The first two objects of the catalog [__init__] builds under
    [clock0]. *)
Definition station : SpaceObject :=
  default (debris "" [] 0) (space_objects (__init__ clock0) !! 0%nat).

Definition fragment : SpaceObject :=
  default (debris "" [] 0) (space_objects (__init__ clock0) !! 1%nat).

(** The clients a broadcast keeps and the clients it drops, by their place
    in the copy of the list it iterates over: the send to the client at
    place [i] is send number [k + i] of the task. *)
Fixpoint delivered (send_fails : nat -> bool) (k : nat) (clients : list WebSocket)
    : list WebSocket :=
  match clients with
  | [] => []
  | client :: clients' =>
      if send_fails k then delivered send_fails (S k) clients'
      else client :: delivered send_fails (S k) clients'
  end.

Fixpoint dropped (send_fails : nat -> bool) (k : nat) (clients : list WebSocket)
    : list WebSocket :=
  match clients with
  | [] => []
  | client :: clients' =>
      if send_fails k then client :: dropped send_fails (S k) clients'
      else dropped send_fails (S k) clients'
  end.

(** What [websocket_endpoint] does to [connected_clients]: after
    [accept], [connected_clients.append(websocket)]; in the handler of
    [WebSocketDisconnect], [connected_clients.remove(websocket)], outside
    any [try], so that the [ValueError] of an absent element leaves the
    handler.  The messages the endpoint sends and the record it logs after
    the removal are not modelled. *)
Definition websocket_accepted (websocket : WebSocket) (ts : TaskState) : TaskState :=
  {| propagator := propagator ts;
     connected_clients := connected_clients ts ++ [websocket];
     sends := sends ts; log := log ts |}.

Definition websocket_disconnected (websocket : WebSocket) (ts : TaskState)
    : result TaskState :=
  if decide (websocket ∈ connected_clients ts) then
    Ok {| propagator := propagator ts;
          connected_clients := remove_first websocket (connected_clients ts);
          sends := sends ts; log := log ts |}
  else Raise ValueError.

(** The sends of a task whose first send fails and whose later sends
    succeed. *)
Definition first_send_fails (k : nat) : bool := Nat.eqb k 0.

(** What the endpoints of the clients do to [connected_clients] while the
    update task is suspended in [await client.send_json(message)]: a
    client that has been accepted is appended; a client that has
    disconnected is removed, and if it is not in the list the [ValueError]
    is raised in its own endpoint and the list stays as it is. *)
Inductive ClientEvent :=
| ClientAccepted (websocket : WebSocket)
| ClientDisconnected (websocket : WebSocket).

Definition client_event (ts : TaskState) (ev : ClientEvent) : TaskState :=
  match ev with
  | ClientAccepted websocket => websocket_accepted websocket ts
  | ClientDisconnected websocket =>
      match websocket_disconnected websocket ts with
      | Ok ts' => ts'
      | Raise _ => ts
      end
  end.

(** The body of [for client in connected_clients.copy()], with the events
    [during_send k] taking place while send number [k] of the task is
    awaited: the outcome of the send is handled after them. *)
Definition send_to_interleaved (send_fails : nat -> bool)
    (during_send : nat -> list ClientEvent) (ts : TaskState) (client : WebSocket)
    : TaskState :=
  let k := sends ts in
  let ts := foldl client_event ts (during_send k) in
  if send_fails k then
    {| propagator := propagator ts;
       connected_clients := remove_first client (connected_clients ts);
       sends := S (sends ts);
       log := log ts ++ [ErrorSendingToClient client] |}
  else
    {| propagator := propagator ts;
       connected_clients := connected_clients ts;
       sends := S (sends ts);
       log := log ts |}.

(** The loop of the broadcast over the copy of [connected_clients] taken
    before the first send. *)
Definition broadcast_interleaved (send_fails : nat -> bool)
    (during_send : nat -> list ClientEvent) (ts : TaskState) : TaskState :=
  foldl (send_to_interleaved send_fails during_send) ts (connected_clients ts).

(** A catalog whose second object is at the centre of the Earth. *)
Definition half_broken : State :=
  propagator_of [debris "A" [6771; 0; 0]%R 7.66%R; debris "X" [0; 0; 0]%R 7.7%R].

(** * Properties *)

(** ** Risk classification *)

Section RiskLevelFacts.
Local Open Scope R_scope.

Lemma risk_level_high (d t : R) :
  _calculate_risk_level d t = High <-> d < 20 /\ t < 2.
Proof.
  unfold _calculate_risk_level.
  repeat case_decide; split; intros; try done; try lra.
Qed.

Lemma risk_level_medium (d t : R) :
  _calculate_risk_level d t = Medium <->
  ~ (d < 20 /\ t < 2) /\ d < 50 /\ t < 12.
Proof.
  unfold _calculate_risk_level.
  repeat case_decide; split; intros; try done; try tauto.
Qed.

Lemma risk_level_low (d t : R) :
  _calculate_risk_level d t = Low <->
  ~ (d < 20 /\ t < 2) /\ ~ (d < 50 /\ t < 12).
Proof.
  unfold _calculate_risk_level.
  repeat case_decide; split; intros; try done; try tauto.
Qed.

(** C2. The risk level depends on the two arguments only and follows the
    three-tier table with strict inequalities: High exactly when
    [distance < 20] and [time < 2]; otherwise Medium exactly when
    [distance < 50] and [time < 12]; otherwise Low.  At the boundary,
    (19.99, 1.99) is High and (20, 2) is not. *)
Theorem risk_level_table :
  (forall d t : R,
      (_calculate_risk_level d t = High <-> d < 20 /\ t < 2) /\
      (_calculate_risk_level d t = Medium <->
         ~ (d < 20 /\ t < 2) /\ d < 50 /\ t < 12) /\
      (_calculate_risk_level d t = Low <->
         ~ (d < 20 /\ t < 2) /\ ~ (d < 50 /\ t < 12))) /\
  _calculate_risk_level 19.99 1.99 = High /\
  _calculate_risk_level 20 2 <> High.
Proof.
  split; [|split].
  - intros d t. split; [apply risk_level_high|].
    split; [apply risk_level_medium | apply risk_level_low].
  - apply risk_level_high. lra.
  - intros H. apply risk_level_high in H. lra.
Qed.

End RiskLevelFacts.

(** ** The alert log *)

Section AlertLog.
Variable env : Env.

Lemma last_n_short {A : Type} (n : nat) (l : list A) :
  length l <= n -> last_n n l = l.
Proof.
  intros H. unfold last_n.
  replace (length l - n) with 0 by lia. reflexivity.
Qed.

Lemma length_last_n {A : Type} (n : nat) (l : list A) :
  length (last_n n l) = Nat.min n (length l).
Proof. unfold last_n. rewrite length_drop. lia. Qed.

Lemma generate_alert_alerts obj1 obj2 d t s :
  alerts (_generate_alert env obj1 obj2 d t s) =
  last_n 100 (alerts s ++ [new_alert env obj1 obj2 d t s]).
Proof.
  unfold _generate_alert. cbn. case_decide as Hlen; cbn; [reflexivity|].
  symmetry. apply last_n_short. lia.
Qed.

Lemma generate_alert_frame obj1 obj2 d t s :
  let s' := _generate_alert env obj1 obj2 d t s in
  space_objects s' = space_objects s /\
  last_alert_time s' = last_alert_time s /\
  clock_reads s' = S (clock_reads s) /\
  rng_calls s' = rng_calls s /\
  emitted s' = emitted s.
Proof. unfold _generate_alert. cbn. case_decide; cbn; done. Qed.

Lemma generate_alert_length obj1 obj2 d t s :
  length (alerts (_generate_alert env obj1 obj2 d t s)) =
  Nat.min 100 (S (length (alerts s))).
Proof.
  rewrite generate_alert_alerts, length_last_n, length_app.
  simpl (length [_]). lia.
Qed.

Lemma last_n_snoc_full {A : Type} (n : nat) (l : list A) (a : A) :
  0 < n -> length l = n -> last_n n (l ++ [a]) = drop 1 l ++ [a].
Proof.
  intros Hn H. unfold last_n. rewrite length_app. simpl (length [_]).
  replace (length l + 1 - n) with 1 by lia.
  destruct l as [|x l]; cbn in *; [lia|].
  rewrite drop_0. reflexivity.
Qed.

End AlertLog.

Section AlertLogClaims.
Variable env : Env.

Lemma generate_alert_log obj1 obj2 d t s :
  let a := new_alert env obj1 obj2 d t s in
  let s' := _generate_alert env obj1 obj2 d t s in
  last (alerts s') = Some a /\
  (length (alerts s) < 100 -> alerts s' = alerts s ++ [a]) /\
  (length (alerts s) = 100 -> alerts s' = drop 1 (alerts s) ++ [a]).
Proof.
  cbn zeta. rewrite generate_alert_alerts. split; [|split].
  - unfold last_n. rewrite length_app. simpl (length [_]).
    destruct (decide (length (alerts s) + 1 - 100 <= length (alerts s))) as [Hle|]; [|lia].
    rewrite drop_app_le by exact Hle. apply last_snoc.
  - intros Hlt. apply last_n_short. rewrite length_app. simpl (length [_]). lia.
  - intros Hfull. apply last_n_snoc_full; [lia | exact Hfull].
Qed.

(** C6. The log is a bounded FIFO.  After any call of [_generate_alert] it
    holds at most 100 entries and is the last 100 of the old log followed by
    the new alert: below the cap the alert is appended and nothing else
    changes; at the cap (the 101st entry) exactly the oldest entry goes and
    the new one is last. *)
Theorem alert_log_bounded_fifo obj1 obj2 d t s :
  let a := new_alert env obj1 obj2 d t s in
  let s' := _generate_alert env obj1 obj2 d t s in
  length (alerts s') <= 100 /\
  alerts s' = last_n 100 (alerts s ++ [a]) /\
  last (alerts s') = Some a /\
  (length (alerts s) < 100 -> alerts s' = alerts s ++ [a]) /\
  (length (alerts s) = 100 -> alerts s' = drop 1 (alerts s) ++ [a]).
Proof.
  cbn zeta. split; [rewrite generate_alert_length; lia|].
  split; [apply generate_alert_alerts|].
  apply generate_alert_log.
Qed.

Lemma emit_alerts_length obj1 obj2 d t n s :
  length (alerts s) <= 100 ->
  length (alerts (emit_alerts env obj1 obj2 d t n s)) =
  Nat.min 100 (n + length (alerts s)).
Proof.
  intros Hs. induction n as [|n IH]; cbn [emit_alerts].
  - lia.
  - rewrite generate_alert_length, IH. lia.
Qed.

Lemma new_alert_id obj1 obj2 d t s :
  alert_id (new_alert env obj1 obj2 d t s) = (Z.of_nat (length (alerts s)) + 1)%Z.
Proof. reflexivity. Qed.

Lemma generate_alert_last_id obj1 obj2 d t s :
  alert_id <$> last (alerts (_generate_alert env obj1 obj2 d t s)) =
  Some (Z.of_nat (length (alerts s)) + 1)%Z.
Proof.
  destruct (generate_alert_log obj1 obj2 d t s) as (-> & _).
  reflexivity.
Qed.

(** Starting from the empty log of [__init__], the 101st and the 102nd
    alert are both created with id 101, and both are in the log afterwards:
    once the log is full, [len(self.alerts) + 1] is 101 for every new
    alert. *)
Lemma generate_alert_id_at_cap obj1 obj2 d t :
  let s100 := emit_alerts env obj1 obj2 d t 100 (__init__ env) in
  let s101 := _generate_alert env obj1 obj2 d t s100 in
  let s102 := _generate_alert env obj1 obj2 d t s101 in
  alert_id (new_alert env obj1 obj2 d t s100) = 101%Z /\
  alert_id (new_alert env obj1 obj2 d t s101) = 101%Z /\
  alert_id <$> alerts s102 !! 98 = Some 101%Z /\
  alert_id <$> alerts s102 !! 99 = Some 101%Z /\
  length (alerts s102) = 100.
Proof.
  cbn zeta.
  set (s100 := emit_alerts env obj1 obj2 d t 100 (__init__ env)).
  set (s101 := _generate_alert env obj1 obj2 d t s100).
  assert (H100 : length (alerts s100) = 100).
  { unfold s100. rewrite emit_alerts_length; cbn; lia. }
  assert (H101 : length (alerts s101) = 100).
  { unfold s101. rewrite generate_alert_length. lia. }
  pose proof (generate_alert_log obj1 obj2 d t s100) as (_ & _ & E1).
  pose proof (generate_alert_log obj1 obj2 d t s101) as (_ & _ & E2).
  cbn zeta in E1, E2. specialize (E1 H100). specialize (E2 H101).
  fold s101 in E1, E2.
  rewrite !new_alert_id, H100, H101.
  split; [reflexivity|]. split; [reflexivity|].
  rewrite E2. rewrite length_app, length_drop, H101. simpl (length [_]).
  split; [|split; [|lia]].
  - rewrite lookup_app_l by (rewrite length_drop; lia).
    rewrite lookup_drop. rewrite E1.
    rewrite lookup_app_r by (rewrite length_drop; lia).
    rewrite length_drop, H100. reflexivity.
  - rewrite lookup_app_r by (rewrite length_drop; lia).
    rewrite length_drop, H101. cbn. rewrite H101. reflexivity.
Qed.

End AlertLogClaims.

(** ** Frame facts of the atomic steps *)

Section Steps.
Variable env : Env.

Lemma append_risk_frame i rd s :
  let s' := append_risk i rd s in
  alerts s' = alerts s /\ last_alert_time s' = last_alert_time s /\
  clock_reads s' = clock_reads s /\ rng_calls s' = rng_calls s /\
  emitted s' = emitted s.
Proof. unfold append_risk. destruct (space_objects s !! i); cbn; done. Qed.

Lemma annotate_frame i j obj1 obj2 s :
  let s' := annotate i j obj1 obj2 s in
  alerts s' = alerts s /\ last_alert_time s' = last_alert_time s /\
  clock_reads s' = clock_reads s /\ rng_calls s' = rng_calls s /\
  emitted s' = emitted s.
Proof.
  unfold annotate. cbn zeta.
  destruct (append_risk_frame j (risk_entry obj1 obj2 (obj_id obj1))
              (append_risk i (risk_entry obj1 obj2 (obj_id obj2)) s))
    as (-> & -> & -> & -> & ->).
  apply append_risk_frame.
Qed.

(** [check_pair] in terms of the notions above. *)
Lemma check_pair_unfold i j s obj1 obj2 :
  space_objects s !! i = Some obj1 ->
  space_objects s !! j = Some obj2 ->
  check_pair env i j s =
  if decide (pair_distance obj1 obj2 < 100)%R then
    let s1 := tick_clock (annotate i j obj1 obj2 s) in
    let c := now_at env (clock_reads s) in
    if decide (pair_risk obj1 obj2 = High /\
               (c - last_alert_time s > seconds 10)%Z) then
      set_emitted
        (emitted s ++
           [(c, new_alert env obj1 obj2 (pair_distance obj1 obj2)
                  (pair_time obj1 obj2) s1)])
        (set_last_alert_time c
           (_generate_alert env obj1 obj2 (pair_distance obj1 obj2)
              (pair_time obj1 obj2) s1))
    else s1
  else s.
Proof.
  intros Hi Hj. unfold check_pair. rewrite Hi, Hj.
  fold (pair_distance obj1 obj2). fold (pair_rel_velocity obj1 obj2).
  fold (pair_time obj1 obj2). fold (pair_risk obj1 obj2).
  case_decide; [|reflexivity].
  fold (risk_entry obj1 obj2 (obj_id obj2)).
  fold (risk_entry obj1 obj2 (obj_id obj1)).
  fold (annotate i j obj1 obj2 s).
  unfold now. cbn zeta.
  destruct (annotate_frame i j obj1 obj2 s) as (Ha & Hl & Hc & Hr & He).
  cbn zeta in *.
  cbn [tick_clock last_alert_time risk_level risk_entry].
  rewrite Hl, Hc.
  case_decide; [|reflexivity].
  f_equal.
  destruct (generate_alert_frame env obj1 obj2 (pair_distance obj1 obj2)
              (pair_time obj1 obj2) (tick_clock (annotate i j obj1 obj2 s)))
    as (_ & _ & _ & _ & Hem).
  cbn [set_last_alert_time emitted]. cbn zeta in Hem. rewrite Hem.
  cbn [tick_clock emitted]. rewrite He. reflexivity.
Qed.

Lemma check_pair_out_of_range i j s :
  space_objects s !! i = None \/ space_objects s !! j = None ->
  check_pair env i j s = s.
Proof.
  unfold check_pair. intros [H|H]; rewrite H; [reflexivity|].
  destruct (space_objects s !! i); reflexivity.
Qed.

(** The three things one iteration can do. *)
Lemma check_pair_cases i j s :
  check_pair env i j s = s \/
  exists obj1 obj2,
    space_objects s !! i = Some obj1 /\ space_objects s !! j = Some obj2 /\
    (pair_distance obj1 obj2 < 100)%R /\
    let s1 := tick_clock (annotate i j obj1 obj2 s) in
    let c := now_at env (clock_reads s) in
    check_pair env i j s = s1 \/
    (pair_risk obj1 obj2 = High /\
     (c - last_alert_time s > seconds 10)%Z /\
     check_pair env i j s =
     set_emitted
       (emitted s ++
          [(c, new_alert env obj1 obj2 (pair_distance obj1 obj2)
                 (pair_time obj1 obj2) s1)])
       (set_last_alert_time c
          (_generate_alert env obj1 obj2 (pair_distance obj1 obj2)
             (pair_time obj1 obj2) s1))).
Proof.
  destruct (space_objects s !! i) as [obj1|] eqn:Hi;
    [|left; apply check_pair_out_of_range; auto].
  destruct (space_objects s !! j) as [obj2|] eqn:Hj;
    [|left; apply check_pair_out_of_range; auto].
  rewrite (check_pair_unfold i j s obj1 obj2 Hi Hj).
  case_decide as Hd; [|left; reflexivity].
  right. exists obj1, obj2. repeat split; try assumption.
  cbn zeta. case_decide as Hc; [right|left; reflexivity].
  destruct Hc. repeat split; assumption.
Qed.

Lemma update_object_frame dt i s s' :
  update_object env dt i s = Returned tt s' ->
  alerts s' = alerts s /\ last_alert_time s' = last_alert_time s /\
  emitted s' = emitted s /\ clock_reads s <= clock_reads s'.
Proof.
  unfold update_object.
  destruct (space_objects s !! i) as [obj|].
  - destruct (_update_position obj dt (rand_at env (rng_calls s))); [|discriminate].
    cbn. intros [= <-]. cbn. repeat split; lia.
  - intros [= <-]. repeat split; lia.
Qed.

Lemma last_n_last_n_snoc {A : Type} (n : nat) (l : list A) (a : A) :
  0 < n -> last_n n (last_n n l ++ [a]) = last_n n (l ++ [a]).
Proof.
  intros Hn. destruct (decide (length l <= n)) as [Hle|Hgt].
  - rewrite (last_n_short n l Hle). reflexivity.
  - rewrite last_n_snoc_full; [|exact Hn|rewrite length_last_n; lia].
    unfold last_n. rewrite drop_drop, length_app. simpl (length [_]).
    rewrite drop_app_le by lia. f_equal. f_equal. lia.
Qed.

Lemma throttle_inv_frame s s' :
  alerts s' = alerts s -> last_alert_time s' = last_alert_time s ->
  emitted s' = emitted s -> clock_reads s <= clock_reads s' ->
  throttle_inv env s -> throttle_inv env s'.
Proof.
  intros Ha Hl He Hc (I1 & I2 & I3 & I4).
  unfold throttle_inv. rewrite Ha, Hl, He.
  split; [exact I1|]. split; [exact I2|]. split; [exact I3|].
  intros Hnil. destruct (I4 Hnil) as (k & Hk & Hlast).
  exists k. split; [lia | assumption].
Qed.

Lemma throttle_inv_emit s obj1 obj2 d t s1 :
  alerts s1 = alerts s -> last_alert_time s1 = last_alert_time s ->
  emitted s1 = emitted s -> clock_reads s1 = S (clock_reads s) ->
  (now_at env (clock_reads s) - last_alert_time s > seconds 10)%Z ->
  throttle_inv env s ->
  throttle_inv env
    (set_emitted
       (emitted s ++ [(now_at env (clock_reads s), new_alert env obj1 obj2 d t s1)])
       (set_last_alert_time (now_at env (clock_reads s))
          (_generate_alert env obj1 obj2 d t s1))).
Proof.
  intros Ha Hl He Hc Hcool (I1 & I2 & I3 & I4).
  set (c := now_at env (clock_reads s)) in *.
  set (a := new_alert env obj1 obj2 d t s1).
  unfold throttle_inv. cbn [set_emitted set_last_alert_time alerts emitted
                            last_alert_time clock_reads].
  split; [|split; [|split]].
  - rewrite generate_alert_alerts. fold a. rewrite Ha, I1.
    rewrite fmap_app. cbn [fmap list_fmap snd].
    apply last_n_last_n_snoc. lia.
  - intros p q cp ap cq aq Hpq Hp Hq.
    assert (Hqlen : q < length (emitted s ++ [(c, a)]))
      by (apply lookup_lt_Some in Hq; exact Hq).
    rewrite length_app in Hqlen. simpl (length [_]) in Hqlen.
    rewrite lookup_app_l in Hp by lia.
    destruct (decide (q < length (emitted s))) as [Hq'|Hq'].
    + rewrite lookup_app_l in Hq by lia. exact (I2 p q cp ap cq aq Hpq Hp Hq).
    + rewrite lookup_app_r in Hq by lia.
      replace (q - length (emitted s)) with 0 in Hq by lia.
      cbn in Hq. injection Hq as <- <-.
      assert (Hin : (cp, ap) ∈ emitted s)
        by (apply list_elem_of_lookup; eauto).
      destruct (I3 cp ap Hin) as [Hle _]. lia.
  - intros c0 a0 Hin. apply elem_of_app in Hin as [Hin|Hin].
    + destruct (I3 c0 a0 Hin) as [Hle Hk]. split; [|exact Hk].
      unfold seconds in Hcool. lia.
    + apply list_elem_of_singleton in Hin. injection Hin as -> ->.
      split; [lia|]. exists (clock_reads s). split; [reflexivity|].
      unfold a, new_alert. cbn. rewrite Hc. reflexivity.
  - intros Hnil. destruct (emitted s); discriminate.
Qed.

Lemma step_throttle_inv s s' :
  step env s s' -> throttle_inv env s -> throttle_inv env s'.
Proof.
  intros Hstep Hinv. destruct Hstep as [dt i s s' Hu | s | i j s].
  - destruct (update_object_frame dt i s s' Hu) as (Ha & Hl & He & Hc).
    eapply throttle_inv_frame; eassumption.
  - apply (throttle_inv_frame s); try reflexivity. assumption.
  - destruct (check_pair_cases i j s) as [->|(obj1 & obj2 & _ & _ & _ & Hcase)];
      [assumption|].
    cbn zeta in Hcase.
    destruct (annotate_frame i j obj1 obj2 s) as (Ha & Hl & Hc & _ & He).
    cbn zeta in *.
    destruct Hcase as [-> | (_ & Hcool & ->)].
    + apply (throttle_inv_frame s); cbn; try assumption. lia.
    + apply throttle_inv_emit; cbn; try assumption. congruence.
Qed.

Lemma fresh_throttle_inv s : fresh_throttle env s -> throttle_inv env s.
Proof.
  intros (Ha & He & Hk). unfold throttle_inv. rewrite Ha, He.
  split; [reflexivity|]. split; [|split].
  - intros p q cp ap cq aq _ Hp. rewrite lookup_nil in Hp. discriminate.
  - intros c a Hin. apply elem_of_nil in Hin. contradiction.
  - intros _. exact Hk.
Qed.

Lemma reachable_throttle_inv s0 s :
  rtc (step env) s0 s -> throttle_inv env s0 -> throttle_inv env s.
Proof.
  induction 1 as [|s1 s2 s3 Hstep _ IH]; [auto|].
  intros H1. apply IH. eapply step_throttle_inv; eassumption.
Qed.

End Steps.

(** ** Every run of [update] is a sequence of atomic steps *)

Section Runs.
Variable env : Env.

Lemma update_object_raised dt i s e s' :
  update_object env dt i s = Raised e s' -> s' = s.
Proof.
  unfold update_object.
  destruct (space_objects s !! i) as [obj|]; [|discriminate].
  destruct (_update_position obj dt (rand_at env (rng_calls s))).
  - cbn. discriminate.
  - intros [= _ <-]. reflexivity.
Qed.

Lemma update_objects_steps dt idx s :
  rtc (step env) s (outcome_state (update_objects env dt idx s)).
Proof.
  revert s. induction idx as [|i idx IH]; intros s; cbn [update_objects].
  - apply rtc_refl.
  - destruct (update_object env dt i s) as [[] s'|e s'] eqn:Hu.
    + eapply rtc_l; [|apply IH]. eapply step_update_object. exact Hu.
    + apply update_object_raised in Hu as ->. apply rtc_refl.
Qed.

Lemma check_pairs_steps i js s :
  rtc (step env) s (foldl (fun s j => check_pair env i j s) s js).
Proof.
  revert s. induction js as [|j js IH]; intros s; cbn [foldl].
  - apply rtc_refl.
  - eapply rtc_l; [apply step_check_pair | apply IH].
Qed.

Lemma check_conjunctions_steps s :
  rtc (step env) s (_check_conjunctions env s).
Proof.
  unfold _check_conjunctions. cbn zeta.
  eapply rtc_l; [apply step_clear|].
  generalize (length (space_objects (clear_risk_objects s))) as n.
  generalize (clear_risk_objects s) as s1. intros s1 n.
  generalize (seq 0 n) as idx. intros idx. revert s1.
  induction idx as [|i idx IH]; intros s1; cbn [foldl].
  - apply rtc_refl.
  - etrans; [apply check_pairs_steps | apply IH].
Qed.

Lemma update_steps dt s :
  rtc (step env) s (outcome_state (update env dt s)).
Proof.
  unfold update.
  pose proof (update_objects_steps dt (seq 0 (length (space_objects s))) s) as H.
  destruct (update_objects env dt (seq 0 (length (space_objects s))) s)
    as [u s'|e s']; cbn [outcome_state] in *.
  - etrans; [exact H | apply check_conjunctions_steps].
  - exact H.
Qed.

Lemma run_updates_steps dts s :
  rtc (step env) s (outcome_state (run_updates env dts s)).
Proof.
  revert s. induction dts as [|dt dts IH]; intros s; cbn [run_updates].
  - apply rtc_refl.
  - pose proof (update_steps dt s) as H.
    destruct (update env dt s) as [r s'|e s']; cbn [outcome_state] in *.
    + etrans; [exact H | apply IH].
    + exact H.
Qed.

End Runs.

(** ** The cooldown *)

Section Cooldown.
Variable env : Env.

Lemma high_is_close obj1 obj2 :
  pair_risk obj1 obj2 = High -> (pair_distance obj1 obj2 < 100)%R.
Proof.
  unfold pair_risk. intros H. apply risk_level_high in H. lra.
Qed.

(** While nothing has been emitted, a High pair is emitted exactly when
    its cooldown test passes. *)
Lemma first_high_pair_by_cooldown s i j obj1 obj2 :
  throttle_inv env s -> emitted s = [] ->
  space_objects s !! i = Some obj1 -> space_objects s !! j = Some obj2 ->
  pair_risk obj1 obj2 = High ->
  ((now_at env (clock_reads s) - last_alert_time s > seconds 10)%Z ->
   exists a,
     emitted (check_pair env i j s) = [(now_at env (clock_reads s), a)] /\
     alerts (check_pair env i j s) = [a] /\
     object_ids a = [obj_id obj1; obj_id obj2]) /\
  (~ (now_at env (clock_reads s) - last_alert_time s > seconds 10)%Z ->
   emitted (check_pair env i j s) = [] /\ alerts (check_pair env i j s) = []).
Proof.
  intros (I1 & _) Hnil Hi Hj Hhigh.
  rewrite (check_pair_unfold env i j s obj1 obj2 Hi Hj).
  rewrite decide_True by (apply high_is_close; exact Hhigh).
  cbn zeta.
  destruct (annotate_frame i j obj1 obj2 s) as (Ha & _ & _ & _ & He).
  cbn zeta in Ha, He.
  split; intros Hcool.
  - rewrite decide_True by (split; assumption).
    eexists. cbn [set_emitted set_last_alert_time emitted alerts].
    rewrite Hnil. split; [reflexivity|].
    rewrite generate_alert_alerts.
    cbn [tick_clock alerts]. rewrite Ha, I1, Hnil.
    split; reflexivity.
  - rewrite decide_False by tauto.
    cbn [tick_clock emitted alerts]. rewrite He, Ha, I1, Hnil.
    split; reflexivity.
Qed.

(** C3, as the code has it.  From a state with the throttle as [__init__]
    leaves it, at every point of every run of [update] and whatever the
    clock does: the cooldown tests of any two emitted alerts read the clock
    more than ten seconds apart, whatever the number of High pairs, and
    the log is the last 100 emitted alerts.  Under a clock that never runs
    backwards the timestamp of an alert is a later reading than its
    cooldown test, hence more than ten seconds after the cooldown test of
    any earlier alert.  As long as nothing has been emitted,
    [last_alert_time] is 300 seconds before a reading [now_at env k] taken
    earlier, and the iteration of a High pair emits an alert exactly when
    the clock reads less than 290 seconds behind that reading: always
    under a clock that never runs backwards, never when the clock has been
    set back by 290 seconds or more. *)
Theorem cooldown_between_checks s0 :
  fresh_throttle env s0 ->
  (forall dts, rtc (step env) s0 (outcome_state (run_updates env dts s0))) /\
  (forall s, rtc (step env) s0 s ->
     (forall p q cp ap cq aq,
        p < q -> emitted s !! p = Some (cp, ap) -> emitted s !! q = Some (cq, aq) ->
        (cq - cp > seconds 10)%Z /\
        (monotone_clock env ->
         (cp <= timestamp ap)%Z /\ (cq <= timestamp aq)%Z /\
         (timestamp aq - cp > seconds 10)%Z)) /\
     alerts s = last_n 100 (snd <$> emitted s) /\
     (emitted s = [] ->
      exists k,
        k <= clock_reads s /\
        last_alert_time s = (now_at env k - seconds 300)%Z /\
        (monotone_clock env ->
         (now_at env k - now_at env (clock_reads s) < seconds 290)%Z) /\
        forall i j obj1 obj2,
          space_objects s !! i = Some obj1 -> space_objects s !! j = Some obj2 ->
          pair_risk obj1 obj2 = High ->
          ((now_at env k - now_at env (clock_reads s) < seconds 290)%Z ->
           exists a,
             emitted (check_pair env i j s) = [(now_at env (clock_reads s), a)] /\
             alerts (check_pair env i j s) = [a] /\
             object_ids a = [obj_id obj1; obj_id obj2]) /\
          ((seconds 290 <= now_at env k - now_at env (clock_reads s))%Z ->
           emitted (check_pair env i j s) = [] /\
           alerts (check_pair env i j s) = []))).
Proof.
  intros Hfresh. split; [intros dts; apply run_updates_steps|].
  intros s Hreach.
  pose proof (reachable_throttle_inv env s0 s Hreach
                (fresh_throttle_inv env s0 Hfresh)) as Hinv.
  pose proof Hinv as (I1 & I2 & I3 & I4).
  split; [|split; [exact I1|]].
  - intros p q cp ap cq aq Hpq Hp Hq.
    pose proof (I2 p q cp ap cq aq Hpq Hp Hq) as Hgap.
    split; [exact Hgap|]. intros Hmono.
    assert (Hinp : (cp, ap) ∈ emitted s) by (apply list_elem_of_lookup; eauto).
    assert (Hinq : (cq, aq) ∈ emitted s) by (apply list_elem_of_lookup; eauto).
    destruct (I3 cp ap Hinp) as (_ & kp & -> & ->).
    destruct (I3 cq aq Hinq) as (_ & kq & -> & ->).
    pose proof (Hmono kp (S kp)). pose proof (Hmono kq (S kq)).
    repeat split; lia.
  - intros Hnil. destruct (I4 Hnil) as (k & Hk & Hlast).
    exists k. split; [exact Hk|]. split; [exact Hlast|]. split.
    + intros Hmono. pose proof (Hmono k (clock_reads s) Hk).
      unfold seconds. lia.
    + intros i j obj1 obj2 Hi Hj Hhigh.
      destruct (first_high_pair_by_cooldown s i j obj1 obj2 Hinv Hnil Hi Hj Hhigh)
        as [Hemit Hsup].
      split.
      * intros Hc. apply Hemit. rewrite Hlast. unfold seconds in *. lia.
      * intros Hc. apply Hsup. rewrite Hlast. unfold seconds in *. lia.
Qed.

End Cooldown.

(** ** The detection pass *)

Section Detection.
Variable env : Env.

Lemma calculate_distance_sym (p q : list R) :
  _calculate_distance p q = _calculate_distance q p.
Proof.
  unfold _calculate_distance, sum. f_equal.
  generalize 0%R as acc. revert q.
  induction p as [|a p IH]; intros [|b q] acc; cbn; try reflexivity.
  rewrite IH. f_equal. ring.
Qed.

Lemma pair_distance_sym o1 o2 : pair_distance o1 o2 = pair_distance o2 o1.
Proof. apply calculate_distance_sym. Qed.

Lemma geometry_lookup l k :
  geometry l !! k = set_risk_objects [] <$> l !! k.
Proof. unfold geometry. apply list_lookup_fmap. Qed.

Lemma append_risk_geometry i rd s :
  geometry (space_objects (append_risk i rd s)) = geometry (space_objects s).
Proof.
  unfold append_risk. destruct (space_objects s !! i) as [o|] eqn:Hi;
    [|reflexivity].
  cbn [set_space_objects space_objects]. unfold geometry.
  rewrite list_fmap_insert. apply list_insert_id.
  rewrite list_lookup_fmap, Hi. reflexivity.
Qed.

Lemma append_risk_risk_at i rd s k :
  risk_at (append_risk i rd s) k =
  (fun r => r ++ if decide (i = k) then [rd] else []) <$> risk_at s k.
Proof.
  unfold risk_at, append_risk.
  destruct (space_objects s !! i) as [o|] eqn:Hi.
  - cbn [set_space_objects space_objects].
    destruct (decide (i = k)) as [<-|Hne].
    + rewrite list_lookup_insert_eq by (eapply lookup_lt_Some; exact Hi).
      rewrite Hi. reflexivity.
    + rewrite list_lookup_insert_ne by exact Hne.
      destruct (space_objects s !! k); cbn; [rewrite app_nil_r|]; reflexivity.
  - destruct (decide (i = k)) as [<-|Hne].
    + rewrite Hi. reflexivity.
    + destruct (space_objects s !! k); cbn; [rewrite app_nil_r|]; reflexivity.
Qed.

Lemma annotate_geometry i j obj1 obj2 s :
  geometry (space_objects (annotate i j obj1 obj2 s)) = geometry (space_objects s).
Proof. unfold annotate. rewrite !append_risk_geometry. reflexivity. Qed.

Lemma annotate_risk_at i j obj1 obj2 s k :
  risk_at (annotate i j obj1 obj2 s) k =
  (fun r => r ++
     (if decide (i = k) then [risk_entry obj1 obj2 (obj_id obj2)] else []) ++
     (if decide (j = k) then [risk_entry obj1 obj2 (obj_id obj1)] else []))
  <$> risk_at s k.
Proof.
  unfold annotate. rewrite !append_risk_risk_at.
  destruct (risk_at s k) as [r|]; cbn; [|reflexivity].
  rewrite <- app_assoc. reflexivity.
Qed.

(** A close pair changes the catalog by its two appends only, whether or
    not it emits an alert. *)
Lemma check_pair_space_objects i j s obj1 obj2 :
  space_objects s !! i = Some obj1 -> space_objects s !! j = Some obj2 ->
  space_objects (check_pair env i j s) =
  if decide (pair_distance obj1 obj2 < 100)%R
  then space_objects (annotate i j obj1 obj2 s)
  else space_objects s.
Proof.
  intros Hi Hj. rewrite (check_pair_unfold env i j s obj1 obj2 Hi Hj).
  case_decide; [|reflexivity]. cbn zeta. case_decide; [|reflexivity].
  cbn [set_emitted set_last_alert_time space_objects].
  destruct (generate_alert_frame env obj1 obj2 (pair_distance obj1 obj2)
              (pair_time obj1 obj2) (tick_clock (annotate i j obj1 obj2 s)))
    as (-> & _).
  reflexivity.
Qed.

Lemma check_pair_geometry i j s :
  geometry (space_objects (check_pair env i j s)) = geometry (space_objects s).
Proof.
  destruct (space_objects s !! i) as [obj1|] eqn:Hi;
    [|rewrite check_pair_out_of_range by auto; reflexivity].
  destruct (space_objects s !! j) as [obj2|] eqn:Hj;
    [|rewrite check_pair_out_of_range by auto; reflexivity].
  rewrite (check_pair_space_objects i j s obj1 obj2 Hi Hj).
  case_decide; [apply annotate_geometry | reflexivity].
Qed.

Lemma check_pair_risk_at i j s k :
  risk_at (check_pair env i j s) k =
  (fun r => r ++ entries_for (geometry (space_objects s)) k [(i, j)])
  <$> risk_at s k.
Proof.
  unfold entries_for. cbn [flat_map fst snd]. rewrite !geometry_lookup.
  destruct (space_objects s !! i) as [obj1|] eqn:Hi.
  2:{ rewrite check_pair_out_of_range by auto. cbn.
      destruct (risk_at s k); cbn; [rewrite app_nil_r|]; reflexivity. }
  destruct (space_objects s !! j) as [obj2|] eqn:Hj.
  2:{ rewrite check_pair_out_of_range by auto. cbn.
      destruct (risk_at s k); cbn; [rewrite app_nil_r|]; reflexivity. }
  cbn [fmap option_fmap option_map].
  change (pair_distance (set_risk_objects [] obj1) (set_risk_objects [] obj2))
    with (pair_distance obj1 obj2).
  change (risk_entry (set_risk_objects [] obj1) (set_risk_objects [] obj2))
    with (risk_entry obj1 obj2).
  change (obj_id (set_risk_objects [] obj1)) with (obj_id obj1).
  change (obj_id (set_risk_objects [] obj2)) with (obj_id obj2).
  pose proof (check_pair_space_objects i j s obj1 obj2 Hi Hj) as Hso.
  unfold risk_at at 1. rewrite Hso.
  destruct (decide (pair_distance obj1 obj2 < 100)%R) as [Hd|Hd].
  - fold (risk_at (annotate i j obj1 obj2 s) k).
    rewrite annotate_risk_at, app_nil_r. reflexivity.
  - fold (risk_at s k).
    destruct (risk_at s k); cbn; [rewrite app_nil_r|]; reflexivity.
Qed.

Lemma entries_for_app g k ps1 ps2 :
  entries_for g k (ps1 ++ ps2) = entries_for g k ps1 ++ entries_for g k ps2.
Proof. unfold entries_for. apply flat_map_app. Qed.

Lemma check_pairs_geometry ps s :
  geometry (space_objects (check_pairs env ps s)) = geometry (space_objects s).
Proof.
  revert s. induction ps as [|[i j] ps IH]; intros s; [reflexivity|].
  unfold check_pairs in *. cbn [foldl fst snd].
  rewrite IH. apply check_pair_geometry.
Qed.

(** The risk lists after a run of iterations, in closed form. *)
Lemma check_pairs_risk_at ps s k :
  risk_at (check_pairs env ps s) k =
  (fun r => r ++ entries_for (geometry (space_objects s)) k ps) <$> risk_at s k.
Proof.
  revert s. induction ps as [|[i j] ps IH]; intros s.
  - cbn. destruct (risk_at s k); cbn; [rewrite app_nil_r|]; reflexivity.
  - change ((i, j) :: ps) with ([(i, j)] ++ ps). rewrite entries_for_app.
    unfold check_pairs in *. cbn [foldl fst snd app].
    rewrite IH, check_pair_geometry, check_pair_risk_at.
    destruct (risk_at s k); cbn [fmap option_fmap option_map]; [|reflexivity].
    rewrite <- app_assoc. reflexivity.
Qed.

Lemma foldl_map_pairs (i : nat) (js : list nat) (s : State) :
  foldl (fun s (p : nat * nat) => check_pair env p.1 p.2 s) s
        (map (fun j => (i, j)) js) =
  foldl (fun s j => check_pair env i j s) s js.
Proof.
  revert s. induction js as [|j js IH]; intros s; [reflexivity|].
  cbn [map foldl fst snd]. apply IH.
Qed.

(** The two nested loops run [check_pair] over [all_pairs]. *)
Lemma check_conjunctions_pairs s :
  _check_conjunctions env s =
  check_pairs env (all_pairs (length (space_objects s))) (clear_risk_objects s).
Proof.
  unfold _check_conjunctions, check_pairs, all_pairs. cbn zeta.
  replace (length (space_objects (clear_risk_objects s)))
    with (length (space_objects s))
    by (unfold clear_risk_objects; cbn; rewrite length_map; reflexivity).
  generalize (length (space_objects s)) as n. intros n.
  generalize (clear_risk_objects s) as s1. generalize (seq 0 n) as idx.
  induction idx as [|i idx IH]; intros s1; [reflexivity|].
  cbn [flat_map foldl]. rewrite foldl_app, foldl_map_pairs. apply IH.
Qed.

Lemma clear_geometry s :
  geometry (space_objects (clear_risk_objects s)) = geometry (space_objects s).
Proof.
  unfold clear_risk_objects, geometry. cbn [set_space_objects space_objects].
  rewrite map_map. reflexivity.
Qed.

Lemma clear_risk_at s k :
  risk_at (clear_risk_objects s) k = (fun _ => []) <$> risk_at s k.
Proof.
  unfold risk_at, clear_risk_objects. cbn [set_space_objects space_objects].
  change (map (set_risk_objects [])) with (fmap (M:=list) (set_risk_objects [])).
  rewrite list_lookup_fmap. destruct (space_objects s !! k); reflexivity.
Qed.

Lemma check_conjunctions_geometry s :
  geometry (space_objects (_check_conjunctions env s)) = geometry (space_objects s).
Proof.
  rewrite check_conjunctions_pairs, check_pairs_geometry. apply clear_geometry.
Qed.

(** The risk lists after a detection pass: whatever they were before, the
    list of the object at index [k] holds the entries of the close pairs
    [k] belongs to, in the order of the loops. *)
Lemma check_conjunctions_risk_at s k :
  risk_at (_check_conjunctions env s) k =
  (fun _ => entries_for (geometry (space_objects s)) k
              (all_pairs (length (space_objects s))))
  <$> risk_at s k.
Proof.
  rewrite check_conjunctions_pairs, check_pairs_risk_at, clear_geometry,
    clear_risk_at.
  destruct (risk_at s k); reflexivity.
Qed.

Lemma elem_of_all_pairs n i j : (i, j) ∈ all_pairs n <-> i < j < n.
Proof.
  unfold all_pairs. rewrite list_elem_of_In, in_flat_map. split.
  - intros (i' & Hi' & Hin). apply in_map_iff in Hin as (j' & [= <- <-] & Hj').
    apply in_seq in Hi'. apply in_seq in Hj'. lia.
  - intros Hij. exists i. split; [apply in_seq; lia|].
    apply in_map_iff. exists j. split; [reflexivity|]. apply in_seq. lia.
Qed.

Lemma elem_of_entries_for g k ps e :
  e ∈ entries_for g k ps <->
  exists i j obj1 obj2,
    (i, j) ∈ ps /\ g !! i = Some obj1 /\ g !! j = Some obj2 /\
    (pair_distance obj1 obj2 < 100)%R /\
    ((i = k /\ e = risk_entry obj1 obj2 (obj_id obj2)) \/
     (j = k /\ e = risk_entry obj1 obj2 (obj_id obj1))).
Proof.
  unfold entries_for. rewrite list_elem_of_In, in_flat_map. split.
  - intros ([i j] & Hin & He). cbn [fst snd] in He.
    apply list_elem_of_In in Hin.
    destruct (g !! i) as [obj1|] eqn:Hi; [|destruct He].
    destruct (g !! j) as [obj2|] eqn:Hj; [|destruct He].
    destruct (decide (pair_distance obj1 obj2 < 100)%R) as [Hd|]; [|destruct He].
    exists i, j, obj1, obj2. repeat split; try assumption.
    apply in_app_or in He as [He|He].
    + destruct (decide (i = k)); [|destruct He].
      destruct He as [<-|[]]. left. auto.
    + destruct (decide (j = k)); [|destruct He].
      destruct He as [<-|[]]. right. auto.
  - intros (i & j & obj1 & obj2 & Hin & Hi & Hj & Hd & He).
    exists (i, j). split; [apply list_elem_of_In; exact Hin|].
    cbn [fst snd]. rewrite Hi, Hj, decide_True by exact Hd.
    apply in_or_app. destruct He as [[-> ->]|[-> ->]].
    + left. rewrite decide_True by reflexivity. left. reflexivity.
    + right. rewrite decide_True by reflexivity. left. reflexivity.
Qed.

Lemma elem_of_last_n {A : Type} (n : nat) (l : list A) (x : A) :
  x ∈ last_n n l -> x ∈ l.
Proof.
  unfold last_n. intros H. apply list_elem_of_lookup in H as [i Hi].
  rewrite lookup_drop in Hi. apply list_elem_of_lookup. eauto.
Qed.

(** What a run of iterations emits: only alerts for close, High pairs of
    the run, and the log gains nothing else. *)
Lemma check_pairs_emitted ps s :
  exists new,
    emitted (check_pairs env ps s) = emitted s ++ new /\
    (forall al, al ∈ alerts (check_pairs env ps s) ->
                al ∈ alerts s \/ al ∈ (snd <$> new)) /\
    (forall c al, (c, al) ∈ new ->
       exists i j obj1 obj2,
         (i, j) ∈ ps /\
         geometry (space_objects s) !! i = Some obj1 /\
         geometry (space_objects s) !! j = Some obj2 /\
         (pair_distance obj1 obj2 < 100)%R /\
         pair_risk obj1 obj2 = High /\
         object_ids al = [obj_id obj1; obj_id obj2]).
Proof.
  revert s. induction ps as [|[i j] ps IH]; intros s.
  - exists []. cbn. rewrite app_nil_r. split; [reflexivity|].
    split; [auto|]. intros c al Hin. apply elem_of_nil in Hin. contradiction.
  - unfold check_pairs in *. cbn [foldl fst snd].
    destruct (IH (check_pair env i j s)) as (new & Hem & Hal & Hnew).
    rewrite check_pair_geometry in Hnew.
    assert (Htail : forall c al, (c, al) ∈ new ->
       exists i0 j0 obj1 obj2,
         (i0, j0) ∈ (i, j) :: ps /\
         geometry (space_objects s) !! i0 = Some obj1 /\
         geometry (space_objects s) !! j0 = Some obj2 /\
         (pair_distance obj1 obj2 < 100)%R /\
         pair_risk obj1 obj2 = High /\
         object_ids al = [obj_id obj1; obj_id obj2]).
    { intros c al Hin.
      destruct (Hnew c al Hin) as (i0 & j0 & o1 & o2 & Hp & Hrest).
      exists i0, j0, o1, o2. split; [right; exact Hp | exact Hrest]. }
    destruct (check_pair_cases env i j s)
      as [Hsame|(obj1 & obj2 & Hi & Hj & Hd & Hcase)].
    + rewrite Hsame in Hem, Hal |- *. exists new. auto.
    + cbn zeta in Hcase.
      destruct (annotate_frame i j obj1 obj2 s) as (Ha & _ & _ & _ & He).
      cbn zeta in Ha, He.
      destruct Hcase as [Hs1|(Hhigh & _ & Hs1)].
      * rewrite Hs1 in Hem, Hal |- *. cbn [tick_clock emitted alerts] in Hem, Hal.
        rewrite He in Hem. rewrite Ha in Hal. exists new. auto.
      * set (a := new_alert env obj1 obj2 (pair_distance obj1 obj2)
                    (pair_time obj1 obj2)
                    (tick_clock (annotate i j obj1 obj2 s))) in *.
        rewrite Hs1 in Hem, Hal |- *.
        cbn [set_emitted set_last_alert_time emitted alerts] in Hem, Hal.
        rewrite generate_alert_alerts in Hal. fold a in Hal.
        cbn [tick_clock alerts] in Hal. rewrite Ha in Hal.
        exists ((now_at env (clock_reads s), a) :: new).
        split; [rewrite Hem, <- app_assoc; reflexivity|]. split.
        -- intros al Hin. destruct (Hal al Hin) as [Hold|Hin'].
           ++ apply elem_of_last_n in Hold.
              apply elem_of_app in Hold as [Hold|Hold]; [left; exact Hold|].
              apply list_elem_of_singleton in Hold as ->.
              right. cbn. left.
           ++ right. cbn. right. exact Hin'.
        -- intros c al Hin. apply elem_of_cons in Hin as [[= -> ->]|Hin];
             [|apply (Htail c al Hin)].
           exists i, j, (set_risk_objects [] obj1), (set_risk_objects [] obj2).
           rewrite !geometry_lookup, Hi, Hj.
           split; [left|]. repeat split; assumption.
Qed.

(** Unique identifiers name unique indices. *)
Lemma unique_id_index (g : list SpaceObject) i j o1 o2 :
  NoDup (obj_id <$> g) ->
  g !! i = Some o1 -> g !! j = Some o2 -> obj_id o1 = obj_id o2 -> i = j.
Proof.
  intros Hnd Hi Hj Hid.
  apply (NoDup_lookup (obj_id <$> g) i j (obj_id o1) Hnd).
  - rewrite list_lookup_fmap, Hi. reflexivity.
  - rewrite list_lookup_fmap, Hj, Hid. reflexivity.
Qed.

Lemma geometry_ids l : obj_id <$> geometry l = obj_id <$> l.
Proof.
  unfold geometry.
  change (map (set_risk_objects [])) with (fmap (M:=list) (set_risk_objects [])).
  rewrite <- list_fmap_compose. reflexivity.
Qed.

(** An entry of the object at index [a] that names the object at index [b]
    comes from the iteration of that pair, and that iteration gave [b] the
    entry with the same numbers naming [a]. *)
Lemma risk_entry_mirrored (g : list SpaceObject) n a b A B e :
  NoDup (obj_id <$> g) ->
  g !! a = Some A -> g !! b = Some B ->
  e ∈ entries_for g a (all_pairs n) -> object_id e = obj_id B ->
  (exists obj1 obj2, (pair_distance obj1 obj2 < 100)%R /\
     ((obj1 = A /\ obj2 = B) \/ (obj1 = B /\ obj2 = A))) /\
  {| object_id := obj_id A; distance_km := distance_km e;
     velocity_kmps := velocity_kmps e;
     time_to_conjunction := time_to_conjunction e;
     risk_level := risk_level e |} ∈ entries_for g b (all_pairs n).
Proof.
  intros Hnd Ha Hb Hin Hname.
  apply elem_of_entries_for in Hin
    as (i & j & obj1 & obj2 & Hp & Hi & Hj & Hd & [[-> ->]|[-> ->]]);
    cbn [risk_entry object_id] in Hname.
  - assert (j = b) as -> by (eapply unique_id_index; eassumption).
    rewrite Ha in Hi. rewrite Hb in Hj. injection Hi as <-. injection Hj as <-.
    split; [exists A, B; auto|].
    apply elem_of_entries_for. exists a, b, A, B.
    repeat split; try assumption. right. split; reflexivity.
  - assert (i = b) as -> by (eapply unique_id_index; eassumption).
    rewrite Hb in Hi. rewrite Ha in Hj. injection Hi as <-. injection Hj as <-.
    split; [exists B, A; auto|].
    apply elem_of_entries_for. exists b, a, B, A.
    repeat split; try assumption. left. split; reflexivity.
Qed.

(** The iteration of a pair at least 100 km apart changes nothing. *)
Lemma check_pair_far i j s obj1 obj2 :
  space_objects s !! i = Some obj1 -> space_objects s !! j = Some obj2 ->
  (100 <= pair_distance obj1 obj2)%R ->
  check_pair env i j s = s.
Proof.
  intros Hi Hj Hfar. rewrite (check_pair_unfold env i j s obj1 obj2 Hi Hj).
  apply decide_False. lra.
Qed.

(** The state after a pass, read at index [k]. *)
Lemma check_conjunctions_lookup s k A :
  space_objects (_check_conjunctions env s) !! k = Some A ->
  geometry (space_objects s) !! k = Some (set_risk_objects [] A) /\
  risk_objects A =
  entries_for (geometry (space_objects s)) k (all_pairs (length (space_objects s))).
Proof.
  intros Hk. split.
  - rewrite <- check_conjunctions_geometry, geometry_lookup, Hk. reflexivity.
  - pose proof (check_conjunctions_risk_at s k) as Hr.
    unfold risk_at at 1 in Hr. rewrite Hk in Hr. cbn in Hr.
    destruct (risk_at s k); cbn in Hr; [|discriminate].
    injection Hr as ->. reflexivity.
Qed.

(** C10. After a detection pass over a catalog with unique identifiers, the
    risk-peer relation is symmetric with equal data: the object at one index
    holds an entry naming the object at another exactly when the latter
    holds an entry naming the former, with the same distance, relative
    velocity, time to conjunction and risk level. *)
Theorem risk_peers_symmetric s a b A B d v t l :
  NoDup (obj_id <$> space_objects s) ->
  space_objects (_check_conjunctions env s) !! a = Some A ->
  space_objects (_check_conjunctions env s) !! b = Some B ->
  {| object_id := obj_id B; distance_km := d; velocity_kmps := v;
     time_to_conjunction := t; risk_level := l |} ∈ risk_objects A <->
  {| object_id := obj_id A; distance_km := d; velocity_kmps := v;
     time_to_conjunction := t; risk_level := l |} ∈ risk_objects B.
Proof.
  intros Hnd Ha Hb.
  destruct (check_conjunctions_lookup s a A Ha) as [Hga ->].
  destruct (check_conjunctions_lookup s b B Hb) as [Hgb ->].
  rewrite <- geometry_ids in Hnd.
  split; intros Hin.
  - exact (proj2 (risk_entry_mirrored _ _ a b _ _ _ Hnd Hga Hgb Hin eq_refl)).
  - exact (proj2 (risk_entry_mirrored _ _ b a _ _ _ Hnd Hgb Hga Hin eq_refl)).
Qed.

(** C7. After a detection pass over a catalog with unique identifiers, two
    objects at least 100 km apart hold no entry naming each other, and no
    alert emitted by the pass (and none the pass added to the log) is for
    that pair; their velocities play no part. *)
Theorem far_pair_not_annotated s a b A B :
  NoDup (obj_id <$> space_objects s) ->
  space_objects (_check_conjunctions env s) !! a = Some A ->
  space_objects (_check_conjunctions env s) !! b = Some B ->
  (100 <= _calculate_distance (position A) (position B))%R ->
  (forall e, e ∈ risk_objects A -> object_id e <> obj_id B) /\
  (forall e, e ∈ risk_objects B -> object_id e <> obj_id A) /\
  exists new,
    emitted (_check_conjunctions env s) = emitted s ++ new /\
    (forall al, al ∈ alerts (_check_conjunctions env s) ->
                al ∈ alerts s \/ al ∈ (snd <$> new)) /\
    (forall c al, (c, al) ∈ new ->
       object_ids al <> [obj_id A; obj_id B] /\
       object_ids al <> [obj_id B; obj_id A]).
Proof.
  intros Hnd Ha Hb Hfar.
  destruct (check_conjunctions_lookup s a A Ha) as [Hga HrA].
  destruct (check_conjunctions_lookup s b B Hb) as [Hgb HrB].
  rewrite <- geometry_ids in Hnd.
  set (g := geometry (space_objects s)) in *.
  assert (HAB : ~ (pair_distance (set_risk_objects [] A) (set_risk_objects [] B) < 100)%R).
  { change (~ (_calculate_distance (position A) (position B) < 100)%R). lra. }
  assert (HBA : ~ (pair_distance (set_risk_objects [] B) (set_risk_objects [] A) < 100)%R).
  { rewrite pair_distance_sym. exact HAB. }
  split; [|split].
  - intros e Hin Hname. rewrite HrA in Hin.
    destruct (risk_entry_mirrored g _ a b _ _ e Hnd Hga Hgb Hin Hname)
      as [(o1 & o2 & Hd & [[-> ->]|[-> ->]]) _]; auto.
  - intros e Hin Hname. rewrite HrB in Hin.
    destruct (risk_entry_mirrored g _ b a _ _ e Hnd Hgb Hga Hin Hname)
      as [(o1 & o2 & Hd & [[-> ->]|[-> ->]]) _]; auto.
  - rewrite check_conjunctions_pairs.
    destruct (check_pairs_emitted (all_pairs (length (space_objects s)))
                (clear_risk_objects s)) as (new & Hem & Hal & Hnew).
    rewrite clear_geometry in Hnew. fold g in Hnew.
    exists new. split; [exact Hem|]. split; [exact Hal|].
    intros c al Hin.
    destruct (Hnew c al Hin) as (i & j & o1 & o2 & _ & Hi & Hj & Hd & _ & ->).
    split; intros [= Hid1 Hid2].
    + assert (i = a) as -> by (eapply unique_id_index; eassumption).
      assert (j = b) as -> by (eapply unique_id_index; eassumption).
      rewrite Hga in Hi. rewrite Hgb in Hj.
      injection Hi as <-. injection Hj as <-. auto.
    + assert (i = b) as -> by (eapply unique_id_index; eassumption).
      assert (j = a) as -> by (eapply unique_id_index; eassumption).
      rewrite Hgb in Hi. rewrite Hga in Hj.
      injection Hi as <-. injection Hj as <-. auto.
Qed.

End Detection.

(** ** The orbital radius *)

Section Radius.
Variable env : Env.
Local Open Scope R_scope.

Lemma sum3 (x y z : R) : sum [x; y; z] = x + y + z.
Proof. unfold sum. cbn. ring. Qed.

Lemma magnitude3 (x y z : R) : magnitude [x; y; z] = sqrt (x ^ 2 + y ^ 2 + z ^ 2).
Proof. unfold magnitude. cbn [map]. rewrite sum3. reflexivity. Qed.

(** Spherical coordinates of radius [r] have magnitude [r]. *)
Lemma spherical_magnitude (r phi theta : R) :
  0 <= r ->
  magnitude [r * sin phi * cos theta; r * sin phi * sin theta; r * cos phi] = r.
Proof.
  intros Hr. rewrite magnitude3.
  pose proof (sin2_cos2 phi) as Hp. pose proof (sin2_cos2 theta) as Ht.
  unfold Rsqr in Hp, Ht.
  replace ((r * sin phi * cos theta) ^ 2 + (r * sin phi * sin theta) ^ 2 +
           (r * cos phi) ^ 2)
    with (r * r * (sin phi * sin phi * (sin theta * sin theta + cos theta * cos theta)
                   + cos phi * cos phi)) by ring.
  rewrite Ht, Rmult_1_r, Hp, Rmult_1_r. apply sqrt_square. exact Hr.
Qed.

Lemma random_position_magnitude (altitude u_theta u_phi : R) :
  0 <= EARTH_RADIUS + altitude ->
  magnitude (_random_position altitude u_theta u_phi) = EARTH_RADIUS + altitude.
Proof. intros H. unfold _random_position. apply spherical_magnitude. exact H. Qed.

Lemma EARTH_RADIUS_pos : 0 < EARTH_RADIUS.
Proof. unfold EARTH_RADIUS. lra. Qed.

Lemma MU_pos : 0 < MU.
Proof. unfold MU. lra. Qed.

(** On an object satisfying the radius invariant [_update_position] raises
    nothing, keeps the magnitude of the position and touches no other key. *)
Lemma update_position_ok (obj : SpaceObject) (dt g : R) :
  radius_ok obj ->
  exists p, _update_position obj dt g = Ok (set_position p obj) /\
            length p = 3%nat /\
            magnitude p = magnitude (position obj).
Proof.
  intros (Hlen & Hmag & Hpos). unfold _update_position.
  destruct (position obj) as [|x [|y [|z [|]]]]; try discriminate.
  clear Hlen. rewrite magnitude3 in Hmag. rewrite magnitude3.
  set (r := sqrt (x ^ 2 + y ^ 2 + z ^ 2)) in *.
  assert (Hr : 0 < r) by lra.
  assert (Hrr : r * r = x ^ 2 + y ^ 2 + z ^ 2).
  { unfold r. apply sqrt_sqrt. nra. }
  rewrite decide_False by lra.
  rewrite decide_False.
  2:{ apply Rle_not_lt. apply Rabs_le.
      pose proof (pow2_ge_0 x) as Hx. pose proof (pow2_ge_0 y) as Hy.
      assert (Hzz : z * z <= r * r) by (rewrite Hrr; nra).
      assert (Hzle : z <= r) by (apply Rnot_lt_le; intros Hc; nra).
      assert (Hzge : - r <= z) by (apply Rnot_lt_le; intros Hc; nra).
      split.
      - apply (Rmult_le_reg_r r); [exact Hr|].
        replace (z / r * r) with z by (field; lra). lra.
      - apply (Rmult_le_reg_r r); [exact Hr|].
        replace (z / r * r) with z by (field; lra). lra. }
  rewrite decide_False.
  2:{ apply Rle_not_lt. apply Rlt_le. apply Rdiv_lt_0_compat; [|apply MU_pos].
      apply pow_lt. exact Hpos. }
  rewrite decide_False.
  2:{ assert (0 < sqrt ((EARTH_RADIUS + altitude obj) ^ 3 / MU)).
      { apply sqrt_lt_R0. apply Rdiv_lt_0_compat; [|apply MU_pos].
        apply pow_lt. exact Hpos. }
      pose proof PI_RGT_0. nra. }
  eexists. split; [reflexivity|]. split; [reflexivity|].
  apply spherical_magnitude. lra.
Qed.

Lemma radius_ok_erase (o : SpaceObject) :
  radius_ok (set_risk_objects [] o) <-> radius_ok o.
Proof. reflexivity. Qed.

Lemma Forall_radius_ok_geometry (l l' : list SpaceObject) :
  geometry l = geometry l' -> Forall radius_ok l -> Forall radius_ok l'.
Proof.
  intros Hg Hl.
  assert (Hiff : forall k : list SpaceObject,
             Forall radius_ok k <-> Forall radius_ok (geometry k)).
  { intros k. unfold geometry.
    change (map (set_risk_objects [])) with (fmap (M:=list) (set_risk_objects [])).
    rewrite Forall_fmap. reflexivity. }
  apply (proj2 (Hiff l')). rewrite <- Hg. apply (proj1 (Hiff l)). exact Hl.
Qed.

Lemma update_object_radius (dt : R) (i : nat) (s : State) :
  Forall radius_ok (space_objects s) ->
  exists s', update_object env dt i s = Returned tt s' /\
             Forall radius_ok (space_objects s') /\
             length (space_objects s') = length (space_objects s).
Proof.
  intros Hall. unfold update_object.
  destruct (space_objects s !! i) as [obj|] eqn:Hi; [|eauto].
  assert (Hobj : radius_ok obj).
  { eapply Forall_lookup_1; eassumption. }
  destruct (update_position_ok obj dt (rand_at env (rng_calls s)) Hobj)
    as (p & -> & Hlen & Hmag).
  eexists. split; [reflexivity|].
  cbn [now tick_clock tick_rng set_space_objects space_objects].
  split; [|apply length_insert].
  apply Forall_insert; [exact Hall|].
  destruct Hobj as (_ & Hm & Hpos).
  unfold radius_ok. cbn. repeat split; [exact Hlen | congruence | exact Hpos].
Qed.

Lemma update_objects_radius (dt : R) (idx : list nat) (s : State) :
  Forall radius_ok (space_objects s) ->
  exists s', update_objects env dt idx s = Returned tt s' /\
             Forall radius_ok (space_objects s').
Proof.
  revert s. induction idx as [|i idx IH]; intros s Hall; cbn [update_objects].
  - eauto.
  - destruct (update_object_radius dt i s Hall) as (s' & -> & Hall' & _).
    apply IH. exact Hall'.
Qed.

Lemma check_conjunctions_radius (s : State) :
  Forall radius_ok (space_objects s) ->
  Forall radius_ok (space_objects (_check_conjunctions env s)).
Proof.
  apply Forall_radius_ok_geometry. symmetry. apply check_conjunctions_geometry.
Qed.

(** On a catalog satisfying the radius invariant [update] returns, and the
    catalog satisfies it again. *)
Lemma update_radius (dt : R) (s : State) :
  Forall radius_ok (space_objects s) ->
  exists r s', update env dt s = Returned r s' /\
               Forall radius_ok (space_objects s').
Proof.
  intros Hall. unfold update.
  destruct (update_objects_radius dt (seq 0 (length (space_objects s))) s Hall)
    as (s' & -> & Hall').
  eexists _, _. split; [reflexivity|].
  apply check_conjunctions_radius. exact Hall'.
Qed.

Lemma run_updates_radius (dts : list R) (s : State) :
  Forall radius_ok (space_objects s) ->
  exists s', run_updates env dts s = Returned tt s' /\
             Forall radius_ok (space_objects s').
Proof.
  revert s. induction dts as [|dt dts IH]; intros s Hall; cbn [run_updates].
  - eauto.
  - destruct (update_radius dt s Hall) as (r & s' & -> & Hall').
    apply IH. exact Hall'.
Qed.

Lemma random_position_radius_ok (o : SpaceObject) (u_theta u_phi : R) :
  0 < EARTH_RADIUS + altitude o ->
  position o = _random_position (altitude o) u_theta u_phi ->
  radius_ok o.
Proof.
  intros Hpos Hp. unfold radius_ok. rewrite Hp.
  split; [reflexivity|]. split; [|exact Hpos].
  apply random_position_magnitude. lra.
Qed.

Lemma init_radius_ok : Forall radius_ok (space_objects (__init__ env)).
Proof.
  unfold __init__. cbn [space_objects].
  constructor; [|constructor; [|constructor; [|constructor]]].
  - eapply random_position_radius_ok; [|reflexivity].
    cbn [altitude]. unfold EARTH_RADIUS. lra.
  - eapply random_position_radius_ok; [|reflexivity].
    cbn [altitude]. unfold EARTH_RADIUS. lra.
  - eapply random_position_radius_ok; [|reflexivity].
    cbn [altitude]. unfold EARTH_RADIUS. lra.
Qed.

(** C1, in real arithmetic.  The catalog [__init__] builds satisfies the
    radius invariant, whatever the random draws.  [_update_position] keeps
    the magnitude of the position of any object satisfying it, for every
    [dt] and every perturbation.  Hence from any catalog satisfying the
    invariant, any number of calls of [update], each with its own [dt],
    return, and afterwards the magnitude of the position of every object is
    exactly [EARTH_RADIUS + altitude]: the radius does not drift. *)
Theorem radius_invariant :
  Forall radius_ok (space_objects (__init__ env)) /\
  (forall obj dt g,
     radius_ok obj ->
     exists p, _update_position obj dt g = Ok (set_position p obj) /\
               magnitude p = EARTH_RADIUS + altitude obj) /\
  (forall s0 dts,
     Forall radius_ok (space_objects s0) ->
     exists s, run_updates env dts s0 = Returned tt s /\
               Forall (fun o => magnitude (position o) = EARTH_RADIUS + altitude o)
                      (space_objects s)).
Proof.
  split; [apply init_radius_ok|]. split.
  - intros obj dt g Hok.
    destruct (update_position_ok obj dt g Hok) as (p & Hp & _ & Hmag).
    exists p. split; [exact Hp|]. destruct Hok as (_ & Hm & _). congruence.
  - intros s0 dts Hall.
    destruct (run_updates_radius dts s0 Hall) as (s & Hrun & Hall').
    exists s. split; [exact Hrun|].
    eapply Forall_impl; [exact Hall'|]. intros o (_ & Hm & _). exact Hm.
Qed.

End Radius.

(** ** Lookups by identifier *)

Section Lookup.
Variable env : Env.

Lemma update_position_shape (obj obj' : SpaceObject) (dt g : R) :
  _update_position obj dt g = Ok obj' -> exists p, obj' = set_position p obj.
Proof.
  unfold _update_position.
  destruct (position obj) as [|x [|y [|z [|]]]]; try discriminate.
  repeat (case_decide; try discriminate).
  intros [= <-]. eauto.
Qed.

Lemma identity_geometry (l : list SpaceObject) :
  identity_of <$> geometry l = identity_of <$> l.
Proof.
  unfold geometry.
  change (map (set_risk_objects [])) with (fmap (M:=list) (set_risk_objects [])).
  rewrite <- list_fmap_compose. reflexivity.
Qed.

(** No atomic step changes the identifier, the name or the type of an
    object, or the order of the catalog. *)
Lemma step_identity (s s' : State) :
  step env s s' ->
  identity_of <$> space_objects s' = identity_of <$> space_objects s.
Proof.
  intros [dt i s1 s2 Hu | s1 | i j s1].
  - unfold update_object in Hu.
    destruct (space_objects s1 !! i) as [obj|] eqn:Hi;
      [|injection Hu as <-; reflexivity].
    destruct (_update_position obj dt (rand_at env (rng_calls s1)))
      as [obj'|e] eqn:Hp; [|discriminate].
    apply update_position_shape in Hp as [p ->].
    cbn in Hu. injection Hu as <-. cbn [set_space_objects space_objects].
    rewrite list_fmap_insert. apply list_insert_id.
    rewrite list_lookup_fmap, Hi. reflexivity.
  - rewrite <- identity_geometry, clear_geometry. apply identity_geometry.
  - rewrite <- identity_geometry, check_pair_geometry. apply identity_geometry.
Qed.

Lemma reachable_identity (s0 s : State) :
  rtc (step env) s0 s ->
  identity_of <$> space_objects s = identity_of <$> space_objects s0.
Proof.
  induction 1 as [|s1 s2 s3 Hstep _ IH]; [reflexivity|].
  rewrite IH. apply step_identity. exact Hstep.
Qed.

(** What [get_object_by_id] finds depends on the identities only. *)
Lemma find_by_id_identity (x : string) (l l' : list SpaceObject) :
  identity_of <$> l = identity_of <$> l' ->
  identity_of <$> find (fun obj => bool_decide (obj_id obj = x)) l =
  identity_of <$> find (fun obj => bool_decide (obj_id obj = x)) l'.
Proof.
  revert l'. induction l as [|o l IH]; intros [|o' l'] Heq;
    try discriminate; [reflexivity|].
  cbn in Heq. injection Heq as Hid Hname Htype Hl. cbn [find].
  rewrite Hid. case_bool_decide; [|apply IH; exact Hl].
  unfold identity_of. cbn. congruence.
Qed.

Lemma find_by_id_absent (x : string) (l : list SpaceObject) :
  x ∉ obj_id <$> l ->
  find (fun obj => bool_decide (obj_id obj = x)) l = None.
Proof.
  induction l as [|o l IH]; intros Hnot; [reflexivity|].
  cbn [find]. rewrite fmap_cons, not_elem_of_cons in Hnot.
  destruct Hnot as [Hne Hnot].
  rewrite bool_decide_eq_false_2 by congruence. apply IH. exact Hnot.
Qed.

Lemma find_by_id_unique (o : SpaceObject) (l : list SpaceObject) :
  NoDup (obj_id <$> l) -> o ∈ l ->
  find (fun obj => bool_decide (obj_id obj = obj_id o)) l = Some o.
Proof.
  induction l as [|o' l IH]; intros Hnd Hin.
  - apply elem_of_nil in Hin. contradiction.
  - cbn [find]. rewrite fmap_cons in Hnd. apply NoDup_cons in Hnd as [Hfresh Hnd].
    apply elem_of_cons in Hin as [->|Hin].
    + rewrite bool_decide_eq_true_2 by reflexivity. reflexivity.
    + case_bool_decide as Hid.
      * exfalso. apply Hfresh. rewrite Hid.
        apply list_elem_of_fmap_2. exact Hin.
      * apply IH; assumption.
Qed.

(** C8. After any number of calls of [update]: an identifier that is not in
    the catalog as created gets [None] from [get_object_by_id] and a 404
    from the route handler; for an object of a catalog created with unique
    identifiers, the lookup of its identifier returns a snapshot with the
    identifier, name and type the object was created with. *)
Theorem get_object_by_id_stable (s0 : State) (dts : list R) :
  let s := outcome_state (run_updates env dts s0) in
  (forall x, x ∉ obj_id <$> space_objects s0 ->
     get_object_by_id x s = None /\
     get_object x s = HTTPException 404 "Object not found") /\
  (NoDup (obj_id <$> space_objects s0) ->
   forall o, o ∈ space_objects s0 ->
     exists snap,
       get_object_by_id (obj_id o) s = Some snap /\
       get_object (obj_id o) s = Response snap /\
       obj_id snap = obj_id o /\ name snap = name o /\ type_ snap = type_ o).
Proof.
  cbn zeta. set (s := outcome_state (run_updates env dts s0)).
  assert (Hid : identity_of <$> space_objects s = identity_of <$> space_objects s0).
  { apply reachable_identity. apply run_updates_steps. }
  split.
  - intros x Hx.
    assert (Hnone : get_object_by_id x s = None).
    { unfold get_object_by_id.
      pose proof (find_by_id_identity x _ _ Hid) as Hf.
      rewrite (find_by_id_absent x (space_objects s0) Hx) in Hf.
      destruct (find _ (space_objects s)); [discriminate | reflexivity]. }
    split; [exact Hnone|]. unfold get_object. rewrite Hnone. reflexivity.
  - intros Hnd o Hin.
    pose proof (find_by_id_identity (obj_id o) _ _ Hid) as Hf.
    rewrite (find_by_id_unique o (space_objects s0) Hnd Hin) in Hf.
    unfold get_object, get_object_by_id.
    destruct (find _ (space_objects s)) as [o'|]; [|discriminate].
    cbn in Hf. injection Hf as H1 H2 H3.
    exists (serialize o'). repeat split; assumption.
Qed.

End Lookup.

(** ** The update task *)

Section TaskFacts.
Variable env : Env.
Variable send_fails : nat -> bool.

Lemma send_to_propagator ts client :
  propagator (send_to send_fails ts client) = propagator ts.
Proof. unfold send_to. destruct (send_fails (sends ts)); reflexivity. Qed.

Lemma broadcast_propagator ts :
  propagator (broadcast send_fails ts) = propagator ts.
Proof.
  unfold broadcast. generalize (connected_clients ts) as cs. intros cs.
  revert ts. induction cs as [|c cs IH]; intros ts; [reflexivity|].
  cbn [foldl]. rewrite IH. apply send_to_propagator.
Qed.

(** One more iteration, at the end. *)
Lemma update_orbits_task_snoc fuel ts :
  update_orbits_task env send_fails (S fuel) ts =
  match update_orbits_task env send_fails fuel ts with
  | Looping ts' => update_orbits_task env send_fails 1 ts'
  | Terminated e ts' => Terminated e ts'
  end.
Proof.
  revert ts. induction fuel as [|fuel IH]; intros ts; [reflexivity|].
  change (update_orbits_task env send_fails (S (S fuel)) ts)
    with (match update env 60 (propagator ts) with
          | Raised e p => Terminated e (with_propagator p ts)
          | Returned _ p =>
              update_orbits_task env send_fails (S fuel)
                (broadcast send_fails (with_propagator p ts))
          end).
  change (update_orbits_task env send_fails (S fuel) ts)
    with (match update env 60 (propagator ts) with
          | Raised e p => Terminated e (with_propagator p ts)
          | Returned _ p =>
              update_orbits_task env send_fails fuel
                (broadcast send_fails (with_propagator p ts))
          end).
  destruct (update env 60 (propagator ts)); [apply IH | reflexivity].
Qed.

Lemma terminated_is_final fuel fuel' ts e ts' :
  update_orbits_task env send_fails fuel ts = Terminated e ts' ->
  fuel <= fuel' ->
  update_orbits_task env send_fails fuel' ts = Terminated e ts'.
Proof.
  intros Hterm Hle. induction Hle as [|fuel' Hle IH]; [exact Hterm|].
  rewrite update_orbits_task_snoc, IH. reflexivity.
Qed.

Lemma terminated_cause fuel ts e ts' :
  update_orbits_task env send_fails fuel ts = Terminated e ts' ->
  exists k tsk p,
    k < fuel /\
    update_orbits_task env send_fails k ts = Looping tsk /\
    update env 60 (propagator tsk) = Raised e p /\
    ts' = with_propagator p tsk.
Proof.
  induction fuel as [|fuel IH]; [discriminate|].
  rewrite update_orbits_task_snoc.
  destruct (update_orbits_task env send_fails fuel ts) as [tsk|e0 ts0] eqn:Hk.
  - cbn [update_orbits_task].
    destruct (update env 60 (propagator tsk)) as [r p|e1 p] eqn:Hu; [discriminate|].
    intros [= <- <-]. exists fuel, tsk, p.
    split; [lia|]. split; [exact Hk|]. split; [exact Hu | reflexivity].
  - intros [= <- <-].
    destruct (IH eq_refl) as (k & tsk & p & Hlt & Hrun & Hu & Heq).
    exists k, tsk, p.
    split; [lia|]. split; [exact Hrun|]. split; [exact Hu | exact Heq].
Qed.

Lemma looping_radius fuel ts :
  Forall radius_ok (space_objects (propagator ts)) ->
  exists ts', update_orbits_task env send_fails fuel ts = Looping ts' /\
              Forall radius_ok (space_objects (propagator ts')).
Proof.
  revert ts. induction fuel as [|fuel IH]; intros ts Hall; [eauto|].
  cbn [update_orbits_task].
  destruct (update_radius env 60 (propagator ts) Hall) as (r & p & -> & Hall').
  apply IH. rewrite broadcast_propagator. exact Hall'.
Qed.

(** C5, as the code has it.  [propagator.update()] is called outside any
    [try]: when it raises, the task ends with that exception and no
    further iteration ever runs; the task ends in no other way.  Only a
    failing [send_json] is caught, logged and answered by dropping the
    client.  Over a catalog satisfying the radius invariant [update] never
    raises, so the task loops for ever, whatever the sends do. *)
Theorem update_orbits_task_outcome :
  (forall k ts tsk e p,
     update_orbits_task env send_fails k ts = Looping tsk ->
     update env 60 (propagator tsk) = Raised e p ->
     forall fuel, k < fuel ->
       update_orbits_task env send_fails fuel ts =
       Terminated e (with_propagator p tsk)) /\
  (forall fuel ts e ts',
     update_orbits_task env send_fails fuel ts = Terminated e ts' ->
     exists k tsk p,
       k < fuel /\
       update_orbits_task env send_fails k ts = Looping tsk /\
       update env 60 (propagator tsk) = Raised e p /\
       ts' = with_propagator p tsk) /\
  (forall ts client,
     send_fails (sends ts) = true ->
     log (send_to send_fails ts client) = log ts ++ [ErrorSendingToClient client] /\
     connected_clients (send_to send_fails ts client) =
       remove_first client (connected_clients ts) /\
     propagator (send_to send_fails ts client) = propagator ts) /\
  (forall fuel ts,
     Forall radius_ok (space_objects (propagator ts)) ->
     exists ts', update_orbits_task env send_fails fuel ts = Looping ts').
Proof.
  split; [|split; [|split]].
  - intros k ts tsk e p Hk Hu fuel Hlt.
    apply (terminated_is_final (S k)); [|lia].
    rewrite update_orbits_task_snoc, Hk. cbn [update_orbits_task].
    rewrite Hu. reflexivity.
  - apply terminated_cause.
  - intros ts client Hf. unfold send_to. rewrite Hf. cbn. auto.
  - intros fuel ts Hall.
    destruct (looping_radius fuel ts Hall) as (ts' & H & _). eauto.
Qed.

End TaskFacts.

Section TaskCounterexample.
Local Open Scope R_scope.

Lemma update_position_origin (obj : SpaceObject) (dt g : R) :
  position obj = [0; 0; 0] -> _update_position obj dt g = Raise ZeroDivisionError.
Proof.
  intros H. unfold _update_position. rewrite H.
  rewrite decide_True; [reflexivity|].
  replace (0 ^ 2 + 0 ^ 2 + 0 ^ 2) with 0 by ring. apply sqrt_0.
Qed.

Lemma update_object_raise (env : Env) (dt : R) (i : nat) (s : State)
    (obj : SpaceObject) (e : exn) :
  space_objects s !! i = Some obj ->
  _update_position obj dt (rand_at env (rng_calls s)) = Raise e ->
  update_object env dt i s = Raised e s.
Proof. intros Hi Hp. unfold update_object. rewrite Hi, Hp. reflexivity. Qed.

Lemma update_at_origin (env : Env) (dt v : R) (id : string) :
  update env dt (propagator_of [debris id [0; 0; 0] v]) =
  Raised ZeroDivisionError (propagator_of [debris id [0; 0; 0] v]).
Proof.
  unfold update.
  change (seq 0 (length (space_objects (propagator_of [debris id [0; 0; 0] v]))))
    with [0%nat].
  cbn [update_objects].
  rewrite (update_object_raise env dt 0 _ (debris id [0; 0; 0] v) ZeroDivisionError);
    [reflexivity | reflexivity | apply update_position_origin; reflexivity].
Qed.

(** C5 fails on the code: with an object at the centre of the Earth the
    first call of [update] raises [ZeroDivisionError] (the division [z / r]),
    and the task, given three iterations, has ended with that exception
    instead of looping on. *)
Lemma tick_fault_ends_task :
  update_orbits_task clock0 (fun _ => false) 3 task_at_origin =
    Terminated ZeroDivisionError task_at_origin.
Proof.
  apply (terminated_is_final clock0 (fun _ => false) 1); [|lia].
  cbn [update_orbits_task]. unfold task_at_origin at 1. cbn [propagator].
  rewrite update_at_origin. reflexivity.
Qed.

End TaskCounterexample.

(** ** Two co-located objects: a High pair at every tick *)

Section Colocated.
Variable env : Env.
Local Open Scope R_scope.

Lemma calculate_distance_self (p : list R) : _calculate_distance p p = 0.
Proof.
  unfold _calculate_distance, sum.
  assert (H : forall acc, foldl Rplus acc
                (map (fun ab : R * R => (ab.1 - ab.2) ^ 2) (zip p p)) = acc).
  { induction p as [|a p IH]; intros acc; [reflexivity|].
    cbn. rewrite IH. ring. }
  rewrite H. apply sqrt_0.
Qed.

Lemma colocated_pair (o1 o2 : SpaceObject) :
  position o1 = position o2 ->
  pair_distance o1 o2 = 0 /\ pair_time o1 o2 = 0.1 /\ pair_risk o1 o2 = High.
Proof.
  intros Hp.
  assert (Hd : pair_distance o1 o2 = 0).
  { unfold pair_distance. rewrite Hp. apply calculate_distance_self. }
  assert (Ht : pair_time o1 o2 = 0.1).
  { unfold pair_time. rewrite Hd. unfold Rdiv. rewrite Rmult_0_l.
    unfold Rmax. destruct (Rle_dec 0.1 0); lra. }
  repeat split; try assumption.
  unfold pair_risk. rewrite Hd, Ht. apply risk_level_high. lra.
Qed.

(** The new position depends on the old position and the altitude only. *)
Lemma update_position_congr (o1 o2 : SpaceObject) (dt g : R) (p : list R) :
  position o1 = position o2 -> altitude o1 = altitude o2 ->
  _update_position o1 dt g = Ok (set_position p o1) ->
  _update_position o2 dt g = Ok (set_position p o2).
Proof.
  intros Hp Ha. unfold _update_position. rewrite <- Hp, <- Ha.
  destruct (position o1) as [|x [|y [|z [|]]]]; try discriminate.
  repeat (case_decide; try discriminate).
  intros [= Heq]. subst p. reflexivity.
Qed.

Lemma update_object_ok (dt : R) (i : nat) (s : State) (obj : SpaceObject)
    (p : list R) :
  space_objects s !! i = Some obj ->
  _update_position obj dt (rand_at env (rng_calls s)) = Ok (set_position p obj) ->
  update_object env dt i s =
  Returned tt
    (set_space_objects
       (<[i := set_last_update (now_at env (clock_reads s)) (set_position p obj)]>
          (space_objects s))
       (tick_clock (tick_rng s))).
Proof. intros Hi Hp. unfold update_object. rewrite Hi, Hp. reflexivity. Qed.

Lemma check_pair_rng_calls (i j : nat) (s : State) :
  rng_calls (check_pair env i j s) = rng_calls s.
Proof.
  destruct (check_pair_cases env i j s) as [->|(o1 & o2 & _ & _ & _ & Hc)];
    [reflexivity|].
  cbn zeta in Hc.
  destruct (annotate_frame i j o1 o2 s) as (_ & _ & _ & Hr & _). cbn zeta in Hr.
  destruct Hc as [->|(_ & _ & ->)]; [exact Hr|].
  cbn [set_emitted set_last_alert_time rng_calls].
  destruct (generate_alert_frame env o1 o2 (pair_distance o1 o2) (pair_time o1 o2)
              (tick_clock (annotate i j o1 o2 s))) as (_ & _ & _ & -> & _).
  exact Hr.
Qed.

Lemma check_conjunctions_rng_calls (s : State) :
  rng_calls (_check_conjunctions env s) = rng_calls s.
Proof.
  rewrite check_conjunctions_pairs. unfold check_pairs.
  generalize (all_pairs (length (space_objects s))) as ps.
  change (rng_calls s) with (rng_calls (clear_risk_objects s)).
  generalize (clear_risk_objects s) as s1. intros s1 ps. revert s1.
  induction ps as [|[i j] ps IH]; intros s1; [reflexivity|].
  cbn [foldl fst snd]. rewrite IH. apply check_pair_rng_calls.
Qed.

Lemma geometry_two (l : list SpaceObject) (g1 g2 : SpaceObject) :
  geometry l = [g1; g2] ->
  exists a b, l = [a; b] /\ set_risk_objects [] a = g1 /\ set_risk_objects [] b = g2.
Proof.
  destruct l as [|a [|b [|c l]]]; try discriminate.
  intros [= H1 H2]. eauto.
Qed.

(** One call of [update] over two co-located objects on the same orbit:
    they stay co-located, and the pair is High, so that an alert is emitted
    exactly when the cooldown test passes. *)
Lemma colocated_update (dt : R) (s : State) (o1 o2 : SpaceObject) :
  space_objects s = [o1; o2] ->
  position o1 = position o2 -> altitude o1 = altitude o2 -> radius_ok o1 ->
  rand_at env (rng_calls s) = rand_at env (S (rng_calls s)) ->
  exists r s' o1' o2',
    update env dt s = Returned r s' /\
    space_objects s' = [o1'; o2'] /\
    position o1' = position o2' /\ altitude o1' = altitude o2' /\
    radius_ok o1' /\
    rng_calls s' = S (S (rng_calls s)) /\
    let c := now_at env (S (S (clock_reads s))) in
    if decide (c - last_alert_time s > seconds 10)%Z then
      exists a,
        alerts s' = last_n 100 (alerts s ++ [a]) /\
        timestamp a = now_at env (S (S (S (clock_reads s)))) /\
        alert_id a = (Z.of_nat (length (alerts s)) + 1)%Z /\
        last_alert_time s' = c /\
        clock_reads s' = S (S (S (S (clock_reads s))))
    else
      alerts s' = alerts s /\ last_alert_time s' = last_alert_time s /\
      clock_reads s' = S (S (S (clock_reads s))).
Proof.
  intros Hso Hp Ha Hok Hrand.
  destruct (update_position_ok o1 dt (rand_at env (rng_calls s)) Hok)
    as (p & Hu1 & Hlen & Hmag).
  pose proof (update_position_congr o1 o2 dt _ p Hp Ha Hu1) as Hu2.
  set (o1' := set_last_update (now_at env (clock_reads s)) (set_position p o1)).
  set (o2' := set_last_update (now_at env (S (clock_reads s))) (set_position p o2)).
  set (s1 := set_space_objects [o1'; o2] (tick_clock (tick_rng s))).
  set (s2 := set_space_objects [o1'; o2'] (tick_clock (tick_rng s1))).
  assert (Hobjs : update_objects env dt [0; 1]%nat s = Returned tt s2).
  { cbn [update_objects].
    rewrite (update_object_ok dt 0 s o1 p); [|rewrite Hso; reflexivity|exact Hu1].
    rewrite Hso. cbn [insert list_insert]. fold o1'. fold s1.
    rewrite (update_object_ok dt 1 s1 o2 p);
      [reflexivity | reflexivity | rewrite Hrand in Hu2; exact Hu2]. }
  unfold update. rewrite Hso.
  change (seq 0 (length [o1; o2])) with [0; 1]%nat. rewrite Hobjs.
  set (s' := _check_conjunctions env s2).
  pose proof (check_conjunctions_geometry env s2) as Hgeo. fold s' in Hgeo.
  apply geometry_two in Hgeo as (a & b & Hab & Hea & Heb).
  pose proof (f_equal position Hea) as Hpa. pose proof (f_equal position Heb) as Hpb.
  pose proof (f_equal altitude Hea) as Haa. pose proof (f_equal altitude Heb) as Hab'.
  cbn in Hpa, Hpb, Haa, Hab'.
  exists (get_objects s', get_alerts s'), s', a, b.
  split; [reflexivity|]. split; [exact Hab|].
  split; [congruence|]. split; [congruence|]. split.
  { destruct Hok as (_ & Hm & Hpos). unfold radius_ok.
    rewrite Hpa, Haa. repeat split; [exact Hlen | congruence | exact Hpos]. }
  split; [unfold s'; rewrite check_conjunctions_rng_calls; reflexivity|].
  assert (Hs' : s' = check_pair env 0 1 (clear_risk_objects s2)).
  { unfold s'. rewrite check_conjunctions_pairs. reflexivity. }
  rewrite (check_pair_unfold env 0 1 (clear_risk_objects s2)
             (set_risk_objects [] o1') (set_risk_objects [] o2') eq_refl eq_refl)
    in Hs'.
  destruct (colocated_pair (set_risk_objects [] o1') (set_risk_objects [] o2') eq_refl)
    as (Hd & Ht & Hrisk).
  rewrite decide_True in Hs' by (rewrite Hd; lra).
  cbn zeta in Hs'. cbn zeta.
  change (clock_reads (clear_risk_objects s2)) with (S (S (clock_reads s))) in Hs'.
  change (last_alert_time (clear_risk_objects s2)) with (last_alert_time s) in Hs'.
  destruct (annotate_frame 0 1 (set_risk_objects [] o1') (set_risk_objects [] o2')
              (clear_risk_objects s2)) as (Hal & Hla & Hcl & _ & _).
  cbn zeta in Hal, Hla, Hcl.
  change (alerts (clear_risk_objects s2)) with (alerts s) in Hal.
  change (last_alert_time (clear_risk_objects s2)) with (last_alert_time s) in Hla.
  change (clock_reads (clear_risk_objects s2)) with (S (S (clock_reads s))) in Hcl.
  destruct (decide (now_at env (S (S (clock_reads s))) - last_alert_time s
                    > seconds 10)%Z) as [Hc|Hc].
  - rewrite decide_True in Hs' by (split; assumption).
    eexists. rewrite Hs'.
    cbn [set_emitted set_last_alert_time alerts last_alert_time clock_reads].
    rewrite generate_alert_alerts.
    destruct (generate_alert_frame env (set_risk_objects [] o1')
                (set_risk_objects [] o2')
                (pair_distance (set_risk_objects [] o1') (set_risk_objects [] o2'))
                (pair_time (set_risk_objects [] o1') (set_risk_objects [] o2'))
                (tick_clock (annotate 0 1 (set_risk_objects [] o1')
                               (set_risk_objects [] o2') (clear_risk_objects s2))))
      as (_ & _ & -> & _).
    cbn [tick_clock alerts clock_reads]. rewrite Hal, Hcl.
    split; [reflexivity|]. split; [|split; [|split; reflexivity]].
    + cbn [new_alert timestamp tick_clock clock_reads]. rewrite Hcl. reflexivity.
    + cbn [new_alert alert_id tick_clock alerts]. rewrite Hal. reflexivity.
  - rewrite decide_False in Hs' by tauto. rewrite Hs'.
    cbn [tick_clock alerts last_alert_time clock_reads].
    rewrite Hal, Hla, Hcl. repeat split.
Qed.

End Colocated.

Section CooldownCounterexample.

Lemma debris_radius_ok (id : string) (v : R) :
  radius_ok (debris id [6771; 0; 0]%R v).
Proof.
  unfold radius_ok. cbn [debris position altitude].
  split; [reflexivity|]. rewrite magnitude3. unfold EARTH_RADIUS.
  split; [|lra].
  replace (6771 ^ 2 + 0 ^ 2 + 0 ^ 2)%R with (6771 * 6771)%R by ring.
  rewrite sqrt_square by lra. lra.
Qed.

Lemma late_stamp_clock_monotone : monotone_clock late_stamp_clock.
Proof.
  intros k k' Hle.
  destruct k as [|[|[|[|[|[|[|k]]]]]]];
    destruct k' as [|[|[|[|[|[|[|k']]]]]]]; cbn; lia.
Qed.

Lemma colocated_fresh : fresh_throttle late_stamp_clock colocated.
Proof.
  split; [reflexivity|]. split; [reflexivity|].
  exists 0. split; [reflexivity|]. reflexivity.
Qed.

Lemma colocated_fresh_set_back : fresh_throttle set_back_clock colocated.
Proof.
  split; [reflexivity|]. split; [reflexivity|].
  exists 0. split; [reflexivity|]. reflexivity.
Qed.

(** With the wall clock set back by an hour after [__init__], the first
    call of [update] over two co-located objects, a High pair, emits no
    alert. *)
Lemma first_high_pair_suppressed :
  exists r s o1 o2,
    update set_back_clock 60 colocated = Returned r s /\
    space_objects s = [o1; o2] /\ pair_risk o1 o2 = High /\
    alerts s = [].
Proof.
  destruct (colocated_update set_back_clock 60 colocated
              (debris "A" [6771; 0; 0]%R 7.66%R) (debris "B" [6771; 0; 0]%R 7.7%R)
              eq_refl eq_refl eq_refl (debris_radius_ok _ _) eq_refl)
    as (r1 & s1 & a & b & Hu1 & Hso1 & Hp1 & _ & _ & _ & Hc1).
  cbn zeta in Hc1.
  change (now_at set_back_clock (S (S (clock_reads colocated))))
    with (- seconds 3600)%Z in Hc1.
  change (last_alert_time colocated) with (- seconds 300)%Z in Hc1.
  rewrite decide_False in Hc1 by (unfold seconds; lia).
  destruct Hc1 as (Hal & _).
  exists r1, s1, a, b. split; [exact Hu1|]. split; [exact Hso1|].
  split; [exact (proj2 (proj2 (colocated_pair a b Hp1)))|].
  exact Hal.
Qed.

(** C3 fails on the code as stated, in both halves.  Under a clock that
    never runs backwards, two calls of [update] over two co-located objects
    emit two alerts whose timestamps, 42 and 10000004 microseconds, are
    less than ten seconds apart: the cooldown is tested on one reading of
    the clock and the alert is stamped with a later one.  And with the wall
    clock set back by an hour after [__init__], the first High pair is
    suppressed: the first call of [update] over the same two objects emits
    no alert. *)
Lemma alert_timestamps_within_cooldown :
  (monotone_clock late_stamp_clock /\
   fresh_throttle late_stamp_clock colocated /\
   exists s a1 a2,
     run_updates late_stamp_clock [60; 60]%R colocated = Returned tt s /\
     alerts s = [a1; a2] /\
     timestamp a1 = 42%Z /\ timestamp a2 = 10000004%Z /\
     (timestamp a2 - timestamp a1 < seconds 10)%Z) /\
  (fresh_throttle set_back_clock colocated /\
   exists r s o1 o2,
     update set_back_clock 60 colocated = Returned r s /\
     space_objects s = [o1; o2] /\ pair_risk o1 o2 = High /\
     alerts s = []).
Proof.
  split.
  2:{ split; [exact colocated_fresh_set_back|].
      exact first_high_pair_suppressed. }
  split; [apply late_stamp_clock_monotone|]. split; [apply colocated_fresh|].
  destruct (colocated_update late_stamp_clock 60 colocated
              (debris "A" [6771; 0; 0]%R 7.66%R) (debris "B" [6771; 0; 0]%R 7.7%R)
              eq_refl eq_refl eq_refl (debris_radius_ok _ _) eq_refl)
    as (r1 & s1 & a & b & Hu1 & Hso1 & Hp1 & Ha1 & Hok1 & _ & Hc1).
  cbn zeta in Hc1.
  change (now_at late_stamp_clock (S (S (clock_reads colocated)))) with 2%Z in Hc1.
  change (now_at late_stamp_clock (S (S (S (clock_reads colocated)))))
    with 42%Z in Hc1.
  change (last_alert_time colocated) with (- seconds 300)%Z in Hc1.
  rewrite decide_True in Hc1 by (unfold seconds; lia).
  destruct Hc1 as (a1 & Hal1 & Hts1 & _ & Hlast1 & Hclk1).
  change (last_n 100 (alerts colocated ++ [a1])) with [a1] in Hal1.
  change (clock_reads colocated) with 0 in Hclk1.
  destruct (colocated_update late_stamp_clock 60 s1 a b
              Hso1 Hp1 Ha1 Hok1 eq_refl)
    as (r2 & s2 & a' & b' & Hu2 & _ & _ & _ & _ & _ & Hc2).
  cbn zeta in Hc2. rewrite Hclk1, Hlast1, Hal1 in Hc2.
  change (now_at late_stamp_clock 6) with 10000003%Z in Hc2.
  change (now_at late_stamp_clock 7) with 10000004%Z in Hc2.
  rewrite decide_True in Hc2 by (unfold seconds; lia).
  destruct Hc2 as (a2 & Hal2 & Hts2 & _).
  change (last_n 100 ([a1] ++ [a2])) with [a1; a2] in Hal2.
  exists s2, a1, a2. cbn [run_updates]. rewrite Hu1, Hu2.
  split; [reflexivity|]. split; [exact Hal2|].
  split; [exact Hts1|]. split; [exact Hts2|].
  rewrite Hts1, Hts2. unfold seconds. lia.
Qed.

End CooldownCounterexample.

(** ** What readers share with the propagator *)

Section Sharing.
Variable env : Env.














End Sharing.

(** ** The statements at concrete inputs *)

Section Instances.
Local Open Scope R_scope.

Lemma far_apart_distance :
  pair_distance (debris "A" [6771; 0; 0] 7.66) (debris "C" [6671; 0; 0] 7.7) = 100.
Proof.
  unfold pair_distance, _calculate_distance. cbn [debris position zip zip_with map fst snd].
  rewrite sum3.
  replace ((6771 - 6671) ^ 2 + (0 - 0) ^ 2 + (0 - 0) ^ 2) with (100 * 100) by ring.
  apply sqrt_square. lra.
Qed.

Lemma far_apart_pass (env : Env) : _check_conjunctions env far_apart = far_apart.
Proof.
  rewrite check_conjunctions_pairs.
  change (all_pairs (length (space_objects far_apart))) with [(0, 1)%nat].
  change (clear_risk_objects far_apart) with far_apart.
  unfold check_pairs. cbn [foldl fst snd].
  apply (check_pair_far env 0 1 far_apart
           (debris "A" [6771; 0; 0] 7.66) (debris "C" [6671; 0; 0] 7.7));
    [reflexivity | reflexivity | rewrite far_apart_distance; lra].
Qed.

Lemma two_ids_distinct (a b : string) (oa ob : SpaceObject) :
  a <> b -> obj_id oa = a -> obj_id ob = b -> NoDup (obj_id <$> [oa; ob]).
Proof.
  intros Hne <- <-. cbn. apply NoDup_cons. split.
  - intros Hin. apply list_elem_of_singleton in Hin. contradiction.
  - apply NoDup_singleton.
Qed.

(** The pass at 100 km exactly: no entry, no alert. *)
Lemma far_pair_not_annotated_witness :
  let A := debris "A" [6771; 0; 0] 7.66 in
  let C := debris "C" [6671; 0; 0] 7.7 in
  (100 <= _calculate_distance (position A) (position C)) /\
  (forall e, e ∈ risk_objects A -> object_id e <> obj_id C) /\
  (forall e, e ∈ risk_objects C -> object_id e <> obj_id A) /\
  exists new,
    emitted (_check_conjunctions clock0 far_apart) = emitted far_apart ++ new /\
    (forall al, al ∈ alerts (_check_conjunctions clock0 far_apart) ->
                al ∈ alerts far_apart \/ al ∈ (snd <$> new)) /\
    (forall c al, (c, al) ∈ new ->
       object_ids al <> [obj_id A; obj_id C] /\
       object_ids al <> [obj_id C; obj_id A]).
Proof.
  cbn zeta.
  assert (Hfar : 100 <= _calculate_distance
                          (position (debris "A" [6771; 0; 0] 7.66))
                          (position (debris "C" [6671; 0; 0] 7.7))).
  { change (100 <= pair_distance (debris "A" [6771; 0; 0] 7.66)
                                 (debris "C" [6671; 0; 0] 7.7)).
    rewrite far_apart_distance. lra. }
  split; [exact Hfar|].
  apply (far_pair_not_annotated clock0 far_apart 0 1).
  - apply (two_ids_distinct "A" "C"); [discriminate | reflexivity | reflexivity].
  - rewrite far_apart_pass. reflexivity.
  - rewrite far_apart_pass. reflexivity.
  - exact Hfar.
Defined.

Lemma colocated_pass_objects (env : Env) :
  let a := debris "A" [6771; 0; 0] 7.66 in
  let b := debris "B" [6771; 0; 0] 7.7 in
  space_objects (_check_conjunctions env colocated) =
  [set_risk_objects [risk_entry a b "B"] a; set_risk_objects [risk_entry a b "A"] b].
Proof.
  cbn zeta. rewrite check_conjunctions_pairs.
  change (all_pairs (length (space_objects colocated))) with [(0, 1)%nat].
  change (clear_risk_objects colocated) with colocated.
  unfold check_pairs. cbn [foldl fst snd].
  rewrite (check_pair_space_objects env 0 1 colocated
             (debris "A" [6771; 0; 0] 7.66) (debris "B" [6771; 0; 0] 7.7)
             eq_refl eq_refl).
  destruct (colocated_pair (debris "A" [6771; 0; 0] 7.66)
              (debris "B" [6771; 0; 0] 7.7) eq_refl) as (Hd & _).
  rewrite decide_True by (rewrite Hd; lra). reflexivity.
Qed.

(** Two co-located objects name each other with the same numbers. *)
Lemma risk_peers_symmetric_witness :
  let a := debris "A" [6771; 0; 0] 7.66 in
  let b := debris "B" [6771; 0; 0] 7.7 in
  let A := set_risk_objects [risk_entry a b "B"] a in
  let B := set_risk_objects [risk_entry a b "A"] b in
  NoDup (obj_id <$> space_objects colocated) /\
  space_objects (_check_conjunctions clock0 colocated) !! 0%nat = Some A /\
  space_objects (_check_conjunctions clock0 colocated) !! 1%nat = Some B /\
  ({| object_id := obj_id B; distance_km := pair_distance a b;
      velocity_kmps := pair_rel_velocity a b;
      time_to_conjunction := pair_time a b; risk_level := pair_risk a b |}
     ∈ risk_objects A <->
   {| object_id := obj_id A; distance_km := pair_distance a b;
      velocity_kmps := pair_rel_velocity a b;
      time_to_conjunction := pair_time a b; risk_level := pair_risk a b |}
     ∈ risk_objects B).
Proof.
  cbn zeta.
  assert (Hnd : NoDup (obj_id <$> space_objects colocated)).
  { apply (two_ids_distinct "A" "B"); [discriminate | reflexivity | reflexivity]. }
  assert (H0 : space_objects (_check_conjunctions clock0 colocated) !! 0%nat =
               Some (set_risk_objects
                       [risk_entry (debris "A" [6771; 0; 0] 7.66)
                          (debris "B" [6771; 0; 0] 7.7) "B"]
                       (debris "A" [6771; 0; 0] 7.66))).
  { rewrite colocated_pass_objects. reflexivity. }
  assert (H1 : space_objects (_check_conjunctions clock0 colocated) !! 1%nat =
               Some (set_risk_objects
                       [risk_entry (debris "A" [6771; 0; 0] 7.66)
                          (debris "B" [6771; 0; 0] 7.7) "A"]
                       (debris "B" [6771; 0; 0] 7.7))).
  { rewrite colocated_pass_objects. reflexivity. }
  split; [exact Hnd|]. split; [exact H0|]. split; [exact H1|].
  exact (risk_peers_symmetric clock0 colocated 0 1 _ _ _ _ _ _ Hnd H0 H1).
Defined.

(** The cooldown at the two co-located objects under the late-stamp clock. *)
Lemma cooldown_between_checks_witness :
  fresh_throttle late_stamp_clock colocated /\
  (forall dts,
     rtc (step late_stamp_clock) colocated
         (outcome_state (run_updates late_stamp_clock dts colocated))) /\
  (forall s, rtc (step late_stamp_clock) colocated s ->
     (forall p q cp ap cq aq,
        (p < q)%nat ->
        emitted s !! p = Some (cp, ap) -> emitted s !! q = Some (cq, aq) ->
        (cq - cp > seconds 10)%Z /\
        (monotone_clock late_stamp_clock ->
         (cp <= timestamp ap)%Z /\ (cq <= timestamp aq)%Z /\
         (timestamp aq - cp > seconds 10)%Z)) /\
     alerts s = last_n 100 (snd <$> emitted s) /\
     (emitted s = [] ->
      exists k,
        (k <= clock_reads s)%nat /\
        last_alert_time s = (now_at late_stamp_clock k - seconds 300)%Z /\
        (monotone_clock late_stamp_clock ->
         (now_at late_stamp_clock k - now_at late_stamp_clock (clock_reads s)
          < seconds 290)%Z) /\
        forall i j obj1 obj2,
          space_objects s !! i = Some obj1 -> space_objects s !! j = Some obj2 ->
          pair_risk obj1 obj2 = High ->
          ((now_at late_stamp_clock k - now_at late_stamp_clock (clock_reads s)
            < seconds 290)%Z ->
           exists a,
             emitted (check_pair late_stamp_clock i j s) =
               [(now_at late_stamp_clock (clock_reads s), a)] /\
             alerts (check_pair late_stamp_clock i j s) = [a] /\
             object_ids a = [obj_id obj1; obj_id obj2]) /\
          ((seconds 290 <= now_at late_stamp_clock k -
                           now_at late_stamp_clock (clock_reads s))%Z ->
           emitted (check_pair late_stamp_clock i j s) = [] /\
           alerts (check_pair late_stamp_clock i j s) = []))).
Proof.
  split; [apply colocated_fresh|].
  apply (cooldown_between_checks late_stamp_clock colocated colocated_fresh).
Defined.

(** Two ticks over the catalog of [__init__]. *)
Lemma radius_invariant_witness :
  Forall radius_ok (space_objects (__init__ clock0)) /\
  exists s, run_updates clock0 [60; 30] (__init__ clock0) = Returned tt s /\
            Forall (fun o => magnitude (position o) = EARTH_RADIUS + altitude o)
                   (space_objects s).
Proof.
  split; [apply (proj1 (radius_invariant clock0))|].
  apply (proj2 (proj2 (radius_invariant clock0))).
  apply (proj1 (radius_invariant clock0)).
Defined.

(** Lookups after one tick over the catalog of [__init__]. *)
Lemma get_object_by_id_stable_witness :
  let s := outcome_state (run_updates clock0 [60] (__init__ clock0)) in
  NoDup (obj_id <$> space_objects (__init__ clock0)) /\
  get_object_by_id "00000" s = None /\
  get_object "00000" s = HTTPException 404 "Object not found" /\
  exists snap,
    get_object_by_id "25544" s = Some snap /\
    get_object "25544" s = Response snap /\
    obj_id snap = "25544" /\ name snap = "ISS (ZARYA)" /\ type_ snap = "satellite".
Proof.
  cbn zeta.
  assert (Hnd : NoDup (obj_id <$> space_objects (__init__ clock0))).
  { cbn. repeat (apply NoDup_cons; split);
      [ intros H; repeat (apply elem_of_cons in H as [H|H]; [discriminate|]);
        apply elem_of_nil in H; exact H ..
      | apply NoDup_nil; exact I ]. }
  destruct (get_object_by_id_stable clock0 (__init__ clock0) [60]) as [Habsent Hknown].
  split; [exact Hnd|].
  destruct (Habsent "00000") as [H1 H2].
  { cbn. intros H. repeat (apply elem_of_cons in H as [H|H]; [discriminate|]).
    apply elem_of_nil in H. exact H. }
  split; [exact H1|]. split; [exact H2|].
  edestruct (Hknown Hnd) as (snap & Hs & Hr & Hid & Hname & Htype).
  { unfold __init__. cbn [space_objects]. left. }
  exists snap. cbn in Hs, Hr, Hid, Hname, Htype. auto.
Defined.

End Instances.

(** ** Alert identifiers over many ticks *)

Section ManyTicks.
Local Open Scope R_scope.

Lemma last_last_n_snoc {A : Type} (l : list A) (a : A) :
  last (last_n 100 (l ++ [a])) = Some a.
Proof.
  unfold last_n. rewrite length_app. simpl (length [_]).
  rewrite drop_app_le by lia. apply last_snoc.
Qed.

Lemma colocated_alerting : alerting 0 colocated.
Proof.
  unfold alerting. split; [|split; [reflexivity|split; [reflexivity|split]]].
  - exists (debris "A" [6771; 0; 0] 7.66), (debris "B" [6771; 0; 0] 7.7).
    split; [reflexivity|]. split; [reflexivity|]. split; [reflexivity|].
    apply debris_radius_ok.
  - cbn. unfold seconds. lia.
  - reflexivity.
Qed.

(** Under the slow clock every call of [update] over the co-located pair
    passes the cooldown test and creates an alert whose id is the length of
    the log plus one. *)
Lemma alerting_update (m : nat) (s : State) :
  alerting m s ->
  exists r s' a,
    update slow_clock 60 s = Returned r s' /\ alerting (S m) s' /\
    alerts s' = last_n 100 (alerts s ++ [a]) /\
    alert_id a = Z.of_nat (Nat.min (S m) 101) /\
    timestamp a = now_at slow_clock (4 * m + 3).
Proof.
  intros ((o1 & o2 & Hso & Hp & Ha & Hok) & Hclk & Hrand & Hlast & Hlen).
  destruct (colocated_update slow_clock 60 s o1 o2 Hso Hp Ha Hok Hrand)
    as (r & s' & o1' & o2' & Hu & Hso' & Hp' & Ha' & Hok' & Hrng & Hc).
  cbn zeta in Hc. rewrite Hclk in Hc.
  rewrite decide_True in Hc.
  2:{ cbn [now_at slow_clock]. unfold seconds in *. lia. }
  destruct Hc as (a & Hal & Hts & Hid & Hla & Hck).
  exists r, s', a. split; [exact Hu|]. split; [|split; [exact Hal|split]].
  - unfold alerting. split; [exists o1', o2'; auto|].
    split; [lia|]. split; [reflexivity|]. split.
    + rewrite Hla. cbn [now_at slow_clock]. unfold seconds. lia.
    + rewrite Hal, length_last_n, length_app, Hlen. simpl (length [_]). lia.
  - rewrite Hid, Hlen. lia.
  - rewrite Hts. f_equal. lia.
Qed.

Lemma alerting_run (k m : nat) (s : State) :
  alerting m s ->
  exists s', run_updates slow_clock (replicate k 60) s = Returned tt s' /\
             alerting (m + k) s'.
Proof.
  revert m s. induction k as [|k IH]; intros m s Hinv.
  - exists s. split; [reflexivity|]. rewrite Nat.add_0_r. exact Hinv.
  - cbn [replicate run_updates].
    destruct (alerting_update m s Hinv) as (r & s1 & a & -> & Hinv1 & _).
    destruct (IH (S m) s1 Hinv1) as (s' & Hrun & Hinv').
    exists s'. split; [exact Hrun|].
    replace (m + S k)%nat with (S m + k)%nat by lia. exact Hinv'.
Qed.

Lemma run_updates_app (env : Env) (dts1 dts2 : list R) (s s1 : State) :
  run_updates env dts1 s = Returned tt s1 ->
  run_updates env (dts1 ++ dts2) s = run_updates env dts2 s1.
Proof.
  revert s. induction dts1 as [|dt dts1 IH]; intros s; cbn [run_updates app].
  - intros [= ->]. reflexivity.
  - destruct (update env dt s) as [r s'|e s']; [apply IH | discriminate].
Qed.

(** C4, evaluated on the code.  At the level of [_generate_alert]: from the
    empty log of [__init__], the 101st and the 102nd alert are both created
    with id 101.  At the level of [update]: over two co-located objects and
    under a clock that advances three seconds per reading, every call of
    [update] emits an alert; the alerts of the 101st and of the 102nd call
    both have id 101, carry different timestamps, and are the last two
    entries of the log. *)
Theorem alert_id_reused_after_cap :
  (forall env obj1 obj2 d t,
     let s100 := emit_alerts env obj1 obj2 d t 100 (__init__ env) in
     let s101 := _generate_alert env obj1 obj2 d t s100 in
     alert_id (new_alert env obj1 obj2 d t s100) = 101%Z /\
     alert_id (new_alert env obj1 obj2 d t s101) = 101%Z) /\
  exists s101 s102 a b,
    run_updates slow_clock (replicate 101 60) colocated = Returned tt s101 /\
    run_updates slow_clock (replicate 102 60) colocated = Returned tt s102 /\
    last (alerts s101) = Some a /\
    alerts s102 !! 98%nat = Some a /\ alerts s102 !! 99%nat = Some b /\
    alert_id a = 101%Z /\ alert_id b = 101%Z /\
    timestamp a <> timestamp b.
Proof.
  split.
  { intros env obj1 obj2 d t.
    destruct (generate_alert_id_at_cap env obj1 obj2 d t) as (H1 & H2 & _).
    split; assumption. }
  destruct (alerting_run 100 0 colocated colocated_alerting)
    as (s100 & Hrun100 & Hinv100).
  destruct (alerting_update _ s100 Hinv100)
    as (r1 & s101 & a & Hu1 & Hinv101 & Hal1 & Hida & Htsa).
  destruct (alerting_update _ s101 Hinv101)
    as (r2 & s102 & b & Hu2 & _ & Hal2 & Hidb & Htsb).
  assert (Hlen101 : length (alerts s101) = 100%nat).
  { destruct Hinv101 as (_ & _ & _ & _ & ->). reflexivity. }
  assert (Hlasta : last (alerts s101) = Some a).
  { rewrite Hal1. apply last_last_n_snoc. }
  assert (Hrun101 : run_updates slow_clock (replicate 101 60) colocated =
                    Returned tt s101).
  { change (replicate 101 60) with (replicate 100 60 ++ [60]).
    rewrite (run_updates_app _ _ _ _ _ Hrun100). cbn [run_updates].
    rewrite Hu1. reflexivity. }
  exists s101, s102, a, b.
  split; [exact Hrun101|]. split.
  { change (replicate 102 60) with (replicate 101 60 ++ [60]).
    rewrite (run_updates_app _ _ _ _ _ Hrun101). cbn [run_updates].
    rewrite Hu2. reflexivity. }
  split; [exact Hlasta|].
  rewrite Hal2, (last_n_snoc_full 100 _ _ ltac:(lia) Hlen101).
  split; [|split; [|split; [|split]]].
  - rewrite lookup_app_l by (rewrite length_drop; lia).
    rewrite lookup_drop. rewrite last_lookup, Hlen101 in Hlasta. exact Hlasta.
  - rewrite lookup_app_r by (rewrite length_drop; lia).
    rewrite length_drop, Hlen101. reflexivity.
  - rewrite Hida. reflexivity.
  - rewrite Hidb. reflexivity.
  - rewrite Htsa, Htsb. cbn [now_at slow_clock]. lia.
Qed.

End ManyTicks.

(** ** The two embeddings agree *)

Section Agreement.
Variable env : Env.





















End Agreement.

(** ** What readers share with the propagator, over runs *)

Section SharingClaims.
Variable env : Env.









End SharingClaims.

Section StoreCounterexample.
Local Open Scope R_scope.





End StoreCounterexample.

Section SharingInstance.



End SharingInstance.

Section MoreInstances.
Local Open Scope R_scope.

(** The task over the object at the centre of the Earth: looping before
    the first iteration, ended by it. *)
Lemma update_orbits_task_outcome_witness :
  update_orbits_task clock0 (fun _ => false) 0 task_at_origin = Looping task_at_origin /\
  update clock0 60 (propagator task_at_origin) =
    Raised ZeroDivisionError (propagator task_at_origin) /\
  update_orbits_task clock0 (fun _ => false) 5 task_at_origin =
    Terminated ZeroDivisionError
      (with_propagator (propagator task_at_origin) task_at_origin).
Proof.
  assert (Hu : update clock0 60 (propagator task_at_origin) =
               Raised ZeroDivisionError (propagator task_at_origin))
    by apply update_at_origin.
  split; [reflexivity|]. split; [exact Hu|].
  apply (proj1 (update_orbits_task_outcome clock0 (fun _ => false))
           0%nat task_at_origin task_at_origin ZeroDivisionError
           (propagator task_at_origin) eq_refl Hu 5%nat).
  lia.
Defined.

(** The first alert after [__init__]: appended to the empty log. *)
Lemma alert_log_bounded_fifo_witness :
  let o := debris "A" [6771; 0; 0] 7.66 in
  let s := __init__ clock0 in
  (length (alerts s) < 100)%nat /\
  alerts (_generate_alert clock0 o o 0 0.1 s) =
    alerts s ++ [new_alert clock0 o o 0 0.1 s].
Proof.
  cbn zeta. split; [cbn; lia|].
  apply (proj1 (proj2 (proj2 (proj2
           (alert_log_bounded_fifo clock0 (debris "A" [6771; 0; 0] 7.66)
              (debris "A" [6771; 0; 0] 7.66) 0 0.1 (__init__ clock0)))))).
  cbn. lia.
Defined.

End MoreInstances.

(** ** The risk model *)

Section RiskModel.
Local Open Scope R_scope.

(** The three numbers [_calculate_risk_score] reads. *)
Lemma calculate_risk_score_cases (features : gmap string R) :
  let d := Model.get features "distance_km" 50 in
  let v := Model.get features "velocity_kmps" 7.5 in
  let t := Model.get features "time_to_conjunction" 48 in
  (d = -1 \/ t = -1) /\
  Model._calculate_risk_score features = Model.Exception Model.ZeroDivisionError
  \/
  d <> -1 /\ t <> -1 /\
  Model._calculate_risk_score features =
  Model.Value (Rmin (Rmax (1 / (d + 1) * v * (1 / (t + 1)) * 10) 0) 1).
Proof.
  cbn zeta. unfold Model._calculate_risk_score.
  case_decide as Hd; [left; split; [left; lra | reflexivity]|].
  case_decide as Ht; [left; split; [right; lra | reflexivity]|].
  right. split; [lra|]. split; [lra|]. reflexivity.
Qed.

Lemma normalized_range (x : R) : 0 <= Rmin (Rmax x 0) 1 <= 1.
Proof.
  unfold Rmin, Rmax.
  destruct (Rle_dec x 0); destruct (Rle_dec _ 1); lra.
Qed.

(** X1. [_calculate_risk_score] raises [ZeroDivisionError] exactly when the
    distance or the time to conjunction it reads (the value under the key,
    or the default 50 resp. 48 when the key is missing) is [-1]; for every
    other input it returns a score between 0 and 1. *)
Theorem risk_score_total_and_bounded (features : gmap string R) :
  let d := Model.get features "distance_km" 50 in
  let t := Model.get features "time_to_conjunction" 48 in
  (Model._calculate_risk_score features = Model.Exception Model.ZeroDivisionError
   <-> d = -1 \/ t = -1) /\
  Model._calculate_risk_score features <> Model.Exception Model.KeyError /\
  (forall score, Model._calculate_risk_score features = Model.Value score ->
     0 <= score <= 1) /\
  (d <> -1 -> t <> -1 ->
   exists score, Model._calculate_risk_score features = Model.Value score).
Proof.
  cbn zeta.
  destruct (calculate_risk_score_cases features) as [[H ->]|(Hd & Ht & ->)].
  - split; [tauto|]. split; [discriminate|]. split; [discriminate|]. tauto.
  - split; [split; [discriminate | tauto]|]. split; [discriminate|].
    split; [|eauto]. intros score [= <-]. apply normalized_range.
Qed.

End RiskModel.

Section RiskModelPrediction.
Local Open Scope R_scope.

Lemma RISK_LEVELS_lookup (idx : Z) :
  Model.RISK_LEVELS !! idx =
  if decide (idx = 0%Z) then Some "Low"
  else if decide (idx = 1%Z) then Some "Medium"
  else if decide (idx = 2%Z) then Some "High"
  else None.
Proof.
  unfold Model.RISK_LEVELS.
  repeat case_decide; subst;
    repeat (rewrite lookup_insert_ne by lia);
    try (rewrite lookup_insert_eq; reflexivity).
  apply lookup_empty.
Qed.

(** [predict_risk] by the score. *)
Lemma predict_risk_unfold (features : gmap string R) :
  Model.predict_risk features =
  match Model._calculate_risk_score features with
  | Model.Exception e => Model.Exception e
  | Model.Value score =>
      if decide (0.6 < score) then
        Model.Value
          {| Model.probability := score;
             Model.risk_level := "High";
             Model.maneuver_suggestion :=
               Model._generate_maneuver_suggestion "High" features;
             Model.explanation := Model._generate_explanation features 2;
             Model.feature_importance := Model._get_feature_importance |}
      else if decide (0.2 < score) then
        Model.Value
          {| Model.probability := 0.5 + score / 2;
             Model.risk_level := "Medium";
             Model.maneuver_suggestion :=
               Model._generate_maneuver_suggestion "Medium" features;
             Model.explanation := Model._generate_explanation features 1;
             Model.feature_importance := Model._get_feature_importance |}
      else
        Model.Value
          {| Model.probability := 1 - score;
             Model.risk_level := "Low";
             Model.maneuver_suggestion :=
               Model._generate_maneuver_suggestion "Low" features;
             Model.explanation := Model._generate_explanation features 0;
             Model.feature_importance := Model._get_feature_importance |}
  end.
Proof.
  unfold Model.predict_risk.
  destruct (Model._calculate_risk_score features) as [score|e]; [|reflexivity].
  destruct (decide (0.6 < score)) as [H6|H6];
    [|destruct (decide (0.2 < score)) as [H2|H2]];
    rewrite RISK_LEVELS_lookup; reflexivity.
Qed.

Lemma suggestion_is_some (level : string) (features : gmap string R) :
  level = "Low" \/ level = "Medium" \/ level = "High" ->
  is_Some (Model._generate_maneuver_suggestion level features) /\
  (Model._generate_maneuver_suggestion level features =
   Some Model.NoManeuverRequired <-> level = "Low").
Proof.
  unfold Model._generate_maneuver_suggestion.
  intros [-> | [-> | ->]].
  - rewrite decide_True by reflexivity. split; [eauto|]. split; reflexivity.
  - rewrite decide_False by discriminate. rewrite decide_True by reflexivity.
    case_decide; (split; [eauto|]); split; discriminate.
  - rewrite !decide_False by discriminate. rewrite decide_True by reflexivity.
    case_decide; (split; [eauto|]); split; discriminate.
Qed.

(** X2. [predict_risk] raises only the [ZeroDivisionError] of the score, and
    exactly when the distance or the time to conjunction it reads is [-1];
    the subscript [RISK_LEVELS[...]] never fails.  When it returns, the
    level is one of the three strings of [RISK_LEVELS], the suggestion is a
    text and never [None], and the suggestion is the "no maneuver" text
    exactly for the level Low. *)
Theorem predict_risk_total (features : gmap string R) :
  let d := Model.get features "distance_km" 50 in
  let t := Model.get features "time_to_conjunction" 48 in
  (Model.predict_risk features = Model.Exception Model.ZeroDivisionError
   <-> d = -1 \/ t = -1) /\
  Model.predict_risk features <> Model.Exception Model.KeyError /\
  (d <> -1 -> t <> -1 ->
   exists p, Model.predict_risk features = Model.Value p) /\
  (forall p, Model.predict_risk features = Model.Value p ->
     (Model.risk_level p = "Low" \/ Model.risk_level p = "Medium" \/
      Model.risk_level p = "High") /\
     is_Some (Model.maneuver_suggestion p) /\
     (Model.maneuver_suggestion p = Some Model.NoManeuverRequired
      <-> Model.risk_level p = "Low")).
Proof.
  cbn zeta. rewrite predict_risk_unfold.
  destruct (calculate_risk_score_cases features) as [[H ->]|(Hd & Ht & ->)].
  - split; [tauto|]. split; [discriminate|]. split; [tauto|]. discriminate.
  - set (score := Rmin _ 1).
    assert (Hshape : forall p,
      (if decide (0.6 < score) then
        Model.Value
          {| Model.probability := score;
             Model.risk_level := "High";
             Model.maneuver_suggestion :=
               Model._generate_maneuver_suggestion "High" features;
             Model.explanation := Model._generate_explanation features 2;
             Model.feature_importance := Model._get_feature_importance |}
      else if decide (0.2 < score) then
        Model.Value
          {| Model.probability := 0.5 + score / 2;
             Model.risk_level := "Medium";
             Model.maneuver_suggestion :=
               Model._generate_maneuver_suggestion "Medium" features;
             Model.explanation := Model._generate_explanation features 1;
             Model.feature_importance := Model._get_feature_importance |}
      else
        Model.Value
          {| Model.probability := 1 - score;
             Model.risk_level := "Low";
             Model.maneuver_suggestion :=
               Model._generate_maneuver_suggestion "Low" features;
             Model.explanation := Model._generate_explanation features 0;
             Model.feature_importance := Model._get_feature_importance |})
      = Model.Value p ->
      (Model.risk_level p = "Low" \/ Model.risk_level p = "Medium" \/
       Model.risk_level p = "High") /\
      is_Some (Model.maneuver_suggestion p) /\
      (Model.maneuver_suggestion p = Some Model.NoManeuverRequired
       <-> Model.risk_level p = "Low")).
    { intros p. repeat case_decide; intros [= <-]; cbn [Model.risk_level
        Model.maneuver_suggestion]; (split; [tauto|]);
        apply suggestion_is_some; tauto. }
    split; [split; [repeat case_decide; discriminate | tauto]|].
    split; [repeat case_decide; discriminate|].
    split; [intros _ _; repeat case_decide; eauto|].
    exact Hshape.
Qed.

(** X3. The probability [predict_risk] reports is the confidence in the
    level it reports, not the score: it lies in (0.6, 1] for every input,
    is at least 0.8 for the level Low and at most 0.8 for the level
    Medium.  For the level High it is the score itself. *)
Theorem predict_risk_probability (features : gmap string R) (p : Model.Prediction) :
  Model.predict_risk features = Model.Value p ->
  0.6 < Model.probability p <= 1 /\
  (Model.risk_level p = "Low" -> 0.8 <= Model.probability p) /\
  (Model.risk_level p = "Medium" -> Model.probability p <= 0.8) /\
  (Model.risk_level p = "High" ->
   Model._calculate_risk_score features = Model.Value (Model.probability p)).
Proof.
  rewrite predict_risk_unfold.
  destruct (calculate_risk_score_cases features) as [[H ->]|(Hd & Ht & ->)];
    [discriminate|].
  set (score := Rmin _ 1).
  assert (Hrange : 0 <= score <= 1) by apply normalized_range.
  repeat case_decide; intros [= <-];
    cbn [Model.probability Model.risk_level];
    (split; [lra|]); (split; [intros; try done; lra|]);
    (split; [intros; try done; lra|]); intros; try done.
Qed.

End RiskModelPrediction.

Section RiskModelInputs.
Local Open Scope R_scope.

(** The features of a request: the keys the model reads are present. *)
Lemma features_get (request : Api.ManeuverRequest) (x : R) :
  Model.get (Api.features request) "distance_km" x = Api.distance_km request /\
  Model.get (Api.features request) "velocity_kmps" x = Api.velocity_kmps request /\
  Model.get (Api.features request) "time_to_conjunction" x =
    Api.time_to_conjunction request.
Proof.
  unfold Model.get, Api.features. split; [|split].
  - rewrite lookup_insert_eq. reflexivity.
  - rewrite lookup_insert_ne by discriminate.
    rewrite lookup_insert_eq. reflexivity.
  - rewrite !lookup_insert_ne by discriminate.
    rewrite lookup_insert_eq. reflexivity.
Qed.

(** The score for divisors that are positive, as one quotient. *)
Lemma risk_score_quotient (features : gmap string R) :
  let d := Model.get features "distance_km" 50 in
  let v := Model.get features "velocity_kmps" 7.5 in
  let t := Model.get features "time_to_conjunction" 48 in
  -1 < d -> -1 < t ->
  Model._calculate_risk_score features =
  Model.Value (Rmin (Rmax (10 * v / ((d + 1) * (t + 1))) 0) 1).
Proof.
  cbn zeta. intros Hd Ht.
  destruct (calculate_risk_score_cases features) as [[H _]|(_ & _ & ->)];
    [lra|].
  f_equal. f_equal. f_equal. field. lra.
Qed.

Lemma normalized_gt (x c : R) :
  0 <= c < 1 -> (c < Rmin (Rmax x 0) 1 <-> c < x).
Proof.
  intros Hc. unfold Rmin, Rmax.
  destruct (Rle_dec x 0); destruct (Rle_dec _ 1); lra.
Qed.

Lemma normalized_mono (x y : R) :
  x <= y -> Rmin (Rmax x 0) 1 <= Rmin (Rmax y 0) 1.
Proof.
  intros Hxy. unfold Rmin, Rmax.
  destruct (Rle_dec x 0); destruct (Rle_dec y 0);
    repeat match goal with |- context [Rle_dec ?a ?b] => destruct (Rle_dec a b) end;
    lra.
Qed.

Lemma quotient_gt (c v D : R) :
  0 < D -> (c < 10 * v / D <-> c * D < 10 * v).
Proof.
  intros HD. split; intros H.
  - apply (Rmult_lt_reg_r (/ D)); [apply Rinv_0_lt_compat; exact HD|].
    replace (c * D * / D) with c by (field; lra). exact H.
  - apply (Rmult_lt_reg_r D); [exact HD|].
    replace (10 * v / D * D) with (10 * v) by (field; lra). exact H.
Qed.

(** X4. The level [predict_risk] reports, in terms of the numbers it reads,
    when distance and time to conjunction are above [-1]: with
    [D = (distance + 1) * (time_to_conjunction + 1)], the level is High
    when [50 * velocity > 3 * D], Medium when [D < 50 * velocity <= 3 * D]
    and Low when [50 * velocity <= D].  Altitude and inclination play no
    part. *)
Theorem predict_risk_level (features : gmap string R) :
  let d := Model.get features "distance_km" 50 in
  let v := Model.get features "velocity_kmps" 7.5 in
  let t := Model.get features "time_to_conjunction" 48 in
  -1 < d -> -1 < t ->
  exists p, Model.predict_risk features = Model.Value p /\
    Model.risk_level p =
    if decide (3 * ((d + 1) * (t + 1)) < 50 * v) then "High"
    else if decide ((d + 1) * (t + 1) < 50 * v) then "Medium"
    else "Low".
Proof.
  cbn zeta. intros Hd Ht.
  rewrite predict_risk_unfold, (risk_score_quotient features Hd Ht).
  set (d := Model.get features "distance_km" 50) in *.
  set (v := Model.get features "velocity_kmps" 7.5).
  set (t := Model.get features "time_to_conjunction" 48) in *.
  assert (HD : 0 < (d + 1) * (t + 1)) by (apply Rmult_lt_0_compat; lra).
  pose proof (normalized_gt (10 * v / ((d + 1) * (t + 1))) 0.6 ltac:(lra)) as H6.
  pose proof (normalized_gt (10 * v / ((d + 1) * (t + 1))) 0.2 ltac:(lra)) as H2.
  rewrite (quotient_gt 0.6 v _ HD) in H6.
  rewrite (quotient_gt 0.2 v _ HD) in H2.
  destruct (decide (0.6 < Rmin (Rmax (10 * v / ((d + 1) * (t + 1))) 0) 1))
    as [Hs6|Hs6].
  - eexists. split; [reflexivity|]. cbn [Model.risk_level].
    rewrite decide_True; [reflexivity|]. apply H6 in Hs6. lra.
  - destruct (decide (0.2 < Rmin (Rmax (10 * v / ((d + 1) * (t + 1))) 0) 1))
      as [Hs2|Hs2].
    + eexists. split; [reflexivity|]. cbn [Model.risk_level].
      rewrite decide_False by (intros Hc; apply Hs6, H6; lra).
      rewrite decide_True; [reflexivity|]. apply H2 in Hs2. lra.
    + eexists. split; [reflexivity|]. cbn [Model.risk_level].
      rewrite decide_False by (intros Hc; apply Hs6, H6; lra).
      rewrite decide_False by (intros Hc; apply Hs2, H2; lra).
      reflexivity.
Qed.

(** X5. The score never rises when the conjunction gets farther, later or
    slower: for non-negative distances and times, a larger distance, a
    larger time to conjunction and a smaller non-negative velocity give a
    score that is at most the original one. *)
Theorem risk_score_monotone (features features' : gmap string R) (score score' : R) :
  let d := Model.get features "distance_km" 50 in
  let v := Model.get features "velocity_kmps" 7.5 in
  let t := Model.get features "time_to_conjunction" 48 in
  let d' := Model.get features' "distance_km" 50 in
  let v' := Model.get features' "velocity_kmps" 7.5 in
  let t' := Model.get features' "time_to_conjunction" 48 in
  0 <= d <= d' -> 0 <= t <= t' -> 0 <= v' <= v ->
  Model._calculate_risk_score features = Model.Value score ->
  Model._calculate_risk_score features' = Model.Value score' ->
  score' <= score.
Proof.
  cbn zeta. intros Hd Ht Hv.
  rewrite (risk_score_quotient features) by lra.
  rewrite (risk_score_quotient features') by lra.
  intros [= <-] [= <-].
  set (d := Model.get features "distance_km" 50) in *.
  set (v := Model.get features "velocity_kmps" 7.5) in *.
  set (t := Model.get features "time_to_conjunction" 48) in *.
  set (d' := Model.get features' "distance_km" 50) in *.
  set (v' := Model.get features' "velocity_kmps" 7.5) in *.
  set (t' := Model.get features' "time_to_conjunction" 48) in *.
  apply normalized_mono.
  assert (HD : 0 < (d + 1) * (t + 1)) by (apply Rmult_lt_0_compat; lra).
  assert (HD' : 0 < (d' + 1) * (t' + 1)) by (apply Rmult_lt_0_compat; lra).
  assert (HDD : (d + 1) * (t + 1) <= (d' + 1) * (t' + 1)).
  { apply Rmult_le_compat; lra. }
  apply (Rmult_le_reg_r ((d + 1) * (t + 1) * ((d' + 1) * (t' + 1))));
    [apply Rmult_lt_0_compat; assumption|].
  replace (10 * v' / ((d' + 1) * (t' + 1)) *
           ((d + 1) * (t + 1) * ((d' + 1) * (t' + 1))))
    with (10 * v' * ((d + 1) * (t + 1))) by (field; lra).
  replace (10 * v / ((d + 1) * (t + 1)) *
           ((d + 1) * (t + 1) * ((d' + 1) * (t' + 1))))
    with (10 * v * ((d' + 1) * (t' + 1))) by (field; lra).
  apply Rmult_le_compat; lra.
Qed.

End RiskModelInputs.

(** ** The maneuver route *)

Section ManeuverRoute.
Local Open Scope R_scope.

(** [predict_risk] reads three keys only. *)
Lemma predict_risk_ext (f f' : gmap string R) :
  f !! "distance_km" = f' !! "distance_km" ->
  f !! "velocity_kmps" = f' !! "velocity_kmps" ->
  f !! "time_to_conjunction" = f' !! "time_to_conjunction" ->
  Model.predict_risk f = Model.predict_risk f'.
Proof.
  intros Hd Hv Ht.
  unfold Model.predict_risk, Model._calculate_risk_score,
    Model._generate_maneuver_suggestion, Model._generate_explanation, Model.get.
  rewrite Hd, Hv, Ht. reflexivity.
Qed.

Lemma features_lookup (request : Api.ManeuverRequest) :
  Api.features request !! "distance_km" = Some (Api.distance_km request) /\
  Api.features request !! "velocity_kmps" = Some (Api.velocity_kmps request) /\
  Api.features request !! "time_to_conjunction" =
    Some (Api.time_to_conjunction request).
Proof.
  unfold Api.features. split; [|split].
  - rewrite lookup_insert_eq. reflexivity.
  - rewrite lookup_insert_ne by discriminate.
    rewrite lookup_insert_eq. reflexivity.
  - rewrite !lookup_insert_ne by discriminate.
    rewrite lookup_insert_eq. reflexivity.
Qed.

Lemma find_by_id_present (x : string) (l : list SpaceObject) :
  x ∈ obj_id <$> l ->
  is_Some (find (fun obj => bool_decide (obj_id obj = x)) l).
Proof.
  induction l as [|o l IH]; intros Hin.
  - apply elem_of_nil in Hin. contradiction.
  - cbn [find]. case_bool_decide as Hid; [eauto|].
    rewrite fmap_cons in Hin. apply elem_of_cons in Hin as [->|Hin];
      [contradiction|]. apply IH. exact Hin.
Qed.

Lemma get_object_by_id_known (x : string) (s : State) :
  x ∈ obj_id <$> space_objects s -> is_Some (get_object_by_id x s).
Proof.
  intros Hin. unfold get_object_by_id.
  destruct (find_by_id_present x _ Hin) as [o ->]. eauto.
Qed.

(** The score of the features of a request. *)
Lemma request_score (request : Api.ManeuverRequest) :
  -1 < Api.distance_km request -> -1 < Api.time_to_conjunction request ->
  Model._calculate_risk_score (Api.features request) =
  Model.Value
    (Rmin (Rmax (10 * Api.velocity_kmps request /
                 ((Api.distance_km request + 1) *
                  (Api.time_to_conjunction request + 1))) 0) 1).
Proof.
  intros Hd Ht.
  destruct (features_get request 50) as (Gd & _ & _).
  destruct (features_get request 7.5) as (_ & Gv & _).
  destruct (features_get request 48) as (_ & _ & Gt).
  pose proof (risk_score_quotient (Api.features request)) as H.
  cbn zeta in H. rewrite Gd, Gv, Gt in H. apply H; assumption.
Qed.

(** X6. [suggest_maneuver] answers 404 for an identifier that is not in the
    catalog, whatever the body, before the model is called.  For an
    identifier of the catalog it lets the [ZeroDivisionError] of the model
    through when the body has distance or time to conjunction [-1], and
    otherwise answers with a prediction that depends on the distance, the
    velocity and the time to conjunction of the body only: not on the
    object asked about, its state, the [object_id] of the body, the altitude
    or the inclination. *)
Theorem suggest_maneuver_answer (x : string) (request : Api.ManeuverRequest)
    (s : State) :
  (x ∉ obj_id <$> space_objects s ->
   Api.suggest_maneuver x request s =
   Model.Value (HTTPException 404 "Object not found")) /\
  (x ∈ obj_id <$> space_objects s ->
   (Api.distance_km request = -1 \/ Api.time_to_conjunction request = -1 ->
    Api.suggest_maneuver x request s = Model.Exception Model.ZeroDivisionError) /\
   (Api.distance_km request <> -1 -> Api.time_to_conjunction request <> -1 ->
    exists p, Api.suggest_maneuver x request s = Model.Value (Response p)) /\
   (forall x' request' s',
      x' ∈ obj_id <$> space_objects s' ->
      Api.distance_km request' = Api.distance_km request ->
      Api.velocity_kmps request' = Api.velocity_kmps request ->
      Api.time_to_conjunction request' = Api.time_to_conjunction request ->
      Api.suggest_maneuver x' request' s' = Api.suggest_maneuver x request s)).
Proof.
  split.
  - intros Hx. unfold Api.suggest_maneuver, get_object_by_id.
    rewrite (find_by_id_absent x _ Hx). reflexivity.
  - intros Hx. unfold Api.suggest_maneuver.
    destruct (get_object_by_id_known x s Hx) as [o ->].
    destruct (features_get request 50) as (Gd & _ & _).
    destruct (features_get request 48) as (_ & _ & Gt).
    pose proof (calculate_risk_score_cases (Api.features request)) as Hcases.
    cbn zeta in Hcases. rewrite Gd, Gt in Hcases.
    split; [|split].
    + intros H. rewrite predict_risk_unfold.
      destruct Hcases as [[_ ->]|(Hd & Ht & _)]; [reflexivity|].
      exfalso. destruct H; contradiction.
    + intros Hd Ht. rewrite predict_risk_unfold.
      destruct Hcases as [[H _]|(_ & _ & ->)];
        [exfalso; destruct H; contradiction|].
      repeat case_decide; eauto.
    + intros x' request' s' Hx' Ed Ev Et.
      destruct (get_object_by_id_known x' s' Hx') as [o' ->].
      destruct (features_lookup request) as (Ld & Lv & Lt).
      destruct (features_lookup request') as (Ld' & Lv' & Lt').
      rewrite (predict_risk_ext (Api.features request') (Api.features request))
        by congruence.
      reflexivity.
Qed.

End ManeuverRoute.

Section RiskModelInstances.
Local Open Scope R_scope.

Lemma normalized_id (x : R) : 0 <= x <= 1 -> Rmin (Rmax x 0) 1 = x.
Proof.
  intros Hx. unfold Rmin, Rmax.
  destruct (Rle_dec x 0); destruct (Rle_dec _ 1); lra.
Qed.

Lemma example_score :
  Model._calculate_risk_score (Api.features example_request) =
  Model.Value (25 / 36).
Proof.
  rewrite request_score by (cbn; lra). cbn [example_request Api.distance_km
    Api.velocity_kmps Api.time_to_conjunction].
  f_equal. rewrite normalized_id by lra. lra.
Qed.

Lemma milder_score :
  Model._calculate_risk_score (Api.features milder_request) =
  Model.Value (50 / 527).
Proof.
  rewrite request_score by (cbn; lra). cbn [milder_request Api.distance_km
    Api.velocity_kmps Api.time_to_conjunction].
  f_equal. rewrite normalized_id by lra. lra.
Qed.

Lemma example_predict :
  Model.predict_risk (Api.features example_request) =
  Model.Value example_prediction.
Proof.
  rewrite predict_risk_unfold, example_score.
  rewrite decide_True by lra. unfold example_prediction. f_equal.
  destruct (features_get example_request 100) as (Gd & _ & _).
  destruct (features_get example_request 24) as (_ & _ & Gt).
  unfold Model._generate_maneuver_suggestion, Model._generate_explanation.
  rewrite Gd, Gt. cbn [example_request Api.distance_km Api.time_to_conjunction].
  rewrite !(decide_False (P := "High" = _)) by discriminate.
  rewrite (decide_True (P := "High" = "High")) by reflexivity.
  rewrite decide_False by lra.
  rewrite !(decide_False (P := 2%Z = _)) by discriminate.
  replace (15 / 15) with 1 by lra.
  replace (Rmin 24 (8 / 2)) with 4
    by (unfold Rmin; destruct (Rle_dec 24 (8 / 2)); lra).
  reflexivity.
Qed.

(** The example of [ml_model.py]: High, with probability [25/36]. *)
Lemma predict_risk_probability_witness :
  Model.predict_risk (Api.features example_request) =
    Model.Value example_prediction /\
  0.6 < Model.probability example_prediction <= 1 /\
  (Model.risk_level example_prediction = "Low" ->
   0.8 <= Model.probability example_prediction) /\
  (Model.risk_level example_prediction = "Medium" ->
   Model.probability example_prediction <= 0.8) /\
  (Model.risk_level example_prediction = "High" ->
   Model._calculate_risk_score (Api.features example_request) =
   Model.Value (Model.probability example_prediction)).
Proof.
  split; [exact example_predict|].
  exact (predict_risk_probability (Api.features example_request)
           example_prediction example_predict).
Defined.

Lemma predict_risk_level_witness :
  -1 < Model.get (Api.features example_request) "distance_km" 50 /\
  -1 < Model.get (Api.features example_request) "time_to_conjunction" 48 /\
  exists p,
    Model.predict_risk (Api.features example_request) = Model.Value p /\
    Model.risk_level p =
    if decide
         (3 * ((Model.get (Api.features example_request) "distance_km" 50 + 1) *
               (Model.get (Api.features example_request) "time_to_conjunction" 48 + 1))
          < 50 * Model.get (Api.features example_request) "velocity_kmps" 7.5)
    then "High"
    else if decide
              ((Model.get (Api.features example_request) "distance_km" 50 + 1) *
               (Model.get (Api.features example_request) "time_to_conjunction" 48 + 1)
               < 50 * Model.get (Api.features example_request) "velocity_kmps" 7.5)
         then "Medium" else "Low".
Proof.
  assert (Hd : -1 < Model.get (Api.features example_request) "distance_km" 50).
  { rewrite (proj1 (features_get example_request 50)). cbn. lra. }
  assert (Ht : -1 < Model.get (Api.features example_request)
                      "time_to_conjunction" 48).
  { rewrite (proj2 (proj2 (features_get example_request 48))). cbn. lra. }
  split; [exact Hd|]. split; [exact Ht|].
  exact (predict_risk_level (Api.features example_request) Hd Ht).
Defined.

Lemma risk_score_monotone_witness :
  0 <= Model.get (Api.features example_request) "distance_km" 50
    <= Model.get (Api.features milder_request) "distance_km" 50 /\
  0 <= Model.get (Api.features example_request) "time_to_conjunction" 48
    <= Model.get (Api.features milder_request) "time_to_conjunction" 48 /\
  0 <= Model.get (Api.features milder_request) "velocity_kmps" 7.5
    <= Model.get (Api.features example_request) "velocity_kmps" 7.5 /\
  Model._calculate_risk_score (Api.features example_request) =
    Model.Value (25 / 36) /\
  Model._calculate_risk_score (Api.features milder_request) =
    Model.Value (50 / 527) /\
  50 / 527 <= 25 / 36.
Proof.
  assert (Hd : 0 <= Model.get (Api.features example_request) "distance_km" 50
                 <= Model.get (Api.features milder_request) "distance_km" 50).
  { rewrite (proj1 (features_get example_request 50)).
    rewrite (proj1 (features_get milder_request 50)). cbn. lra. }
  assert (Ht : 0 <= Model.get (Api.features example_request)
                      "time_to_conjunction" 48
                 <= Model.get (Api.features milder_request)
                      "time_to_conjunction" 48).
  { rewrite (proj2 (proj2 (features_get example_request 48))).
    rewrite (proj2 (proj2 (features_get milder_request 48))). cbn. lra. }
  assert (Hv : 0 <= Model.get (Api.features milder_request) "velocity_kmps" 7.5
                 <= Model.get (Api.features example_request) "velocity_kmps" 7.5).
  { rewrite (proj1 (proj2 (features_get example_request 7.5))).
    rewrite (proj1 (proj2 (features_get milder_request 7.5))). cbn. lra. }
  split; [exact Hd|]. split; [exact Ht|]. split; [exact Hv|].
  split; [exact example_score|]. split; [exact milder_score|].
  exact (risk_score_monotone (Api.features example_request)
           (Api.features milder_request) (25 / 36) (50 / 527)
           Hd Ht Hv example_score milder_score).
Defined.

End RiskModelInstances.

(** ** Propagation as a rotation *)

Section Rotation.
Local Open Scope R_scope.

Lemma sqrt_scale (x y : R) :
  x <> 0 -> sqrt (x ^ 2 + y ^ 2) = Rabs x * sqrt (1 + Rsqr (y / x)).
Proof.
  intros Hx. rewrite <- (sqrt_Rsqr_abs x).
  rewrite <- sqrt_mult; [|apply Rle_0_sqr|pose proof (Rle_0_sqr (y / x)); lra].
  f_equal. unfold Rsqr. field. exact Hx.
Qed.

(** [atan2] gives the polar angle of a point of the plane. *)
Lemma polar_atan2 (x y : R) :
  sqrt (x ^ 2 + y ^ 2) * cos (atan2 y x) = x /\
  sqrt (x ^ 2 + y ^ 2) * sin (atan2 y x) = y.
Proof.
  assert (Hs : 0 < sqrt (1 + Rsqr (y / x))).
  { apply sqrt_lt_R0. pose proof (Rle_0_sqr (y / x)). lra. }
  unfold atan2. case_decide as Hpos; [|case_decide as Hneg].
  - rewrite sqrt_scale by lra. rewrite Rabs_right by lra.
    rewrite cos_atan, sin_atan. split; field; lra.
  - rewrite sqrt_scale by lra. rewrite Rabs_left by lra.
    case_decide.
    + rewrite neg_cos, neg_sin, cos_atan, sin_atan. split; field; lra.
    + rewrite cos_minus, sin_minus, cos_PI, sin_PI, cos_atan, sin_atan.
      split; field; lra.
  - assert (x = 0) as -> by lra.
    replace (0 ^ 2 + y ^ 2) with (Rsqr y) by (unfold Rsqr; ring).
    rewrite sqrt_Rsqr_abs.
    case_decide as Hy; [|case_decide as Hy'].
    + rewrite cos_PI2, sin_PI2, Rabs_right by lra. split; ring.
    + rewrite cos_neg, sin_neg, cos_PI2, sin_PI2, Rabs_left by lra. split; ring.
    + assert (y = 0) as -> by lra. rewrite Rabs_R0. split; ring.
Qed.

(** The polar angle from the vertical axis. *)
Lemma polar_acos (x y z : R) :
  let r := sqrt (x ^ 2 + y ^ 2 + z ^ 2) in
  r <> 0 ->
  r * cos (acos (z / r)) = z /\
  r * sin (acos (z / r)) = sqrt (x ^ 2 + y ^ 2).
Proof.
  cbn zeta. set (r := sqrt (x ^ 2 + y ^ 2 + z ^ 2)). intros Hr0.
  pose proof (pow2_ge_0 x) as Hx. pose proof (pow2_ge_0 y) as Hy.
  pose proof (pow2_ge_0 z) as Hz.
  assert (Hr : 0 < r) by (pose proof (sqrt_pos (x ^ 2 + y ^ 2 + z ^ 2)); fold r in H; lra).
  assert (Hrr : r * r = x ^ 2 + y ^ 2 + z ^ 2) by (apply sqrt_sqrt; lra).
  assert (Hu : -1 <= z / r <= 1).
  { assert (Hzle : z <= r) by (apply Rnot_lt_le; intros Hc; nra).
    assert (Hzge : - r <= z) by (apply Rnot_lt_le; intros Hc; nra).
    split.
    - apply (Rmult_le_reg_r r); [exact Hr|].
      replace (z / r * r) with z by (field; lra). lra.
    - apply (Rmult_le_reg_r r); [exact Hr|].
      replace (z / r * r) with z by (field; lra). lra. }
  split.
  - rewrite cos_acos by exact Hu. field. lra.
  - rewrite sin_acos by exact Hu.
    rewrite <- (sqrt_Rsqr r) at 1 by lra.
    rewrite <- sqrt_mult; [|apply Rle_0_sqr|].
    + f_equal.
      replace (Rsqr r * (1 - Rsqr (z / r))) with (r * r - z ^ 2)
        by (unfold Rsqr; field; lra).
      rewrite Hrr. ring.
    + unfold Rsqr. assert ((z / r) * (z / r) <= 1) by nra. lra.
Qed.

End Rotation.

Section RotationClaims.
Local Open Scope R_scope.

Lemma orbital_period_pos (altitude : R) :
  0 < EARTH_RADIUS + altitude -> 0 < orbital_period altitude.
Proof.
  intros Hpos. unfold orbital_period.
  assert (0 < sqrt ((EARTH_RADIUS + altitude) ^ 3 / MU)).
  { apply sqrt_lt_R0. apply Rdiv_lt_0_compat; [|apply MU_pos].
    apply pow_lt. exact Hpos. }
  pose proof PI_RGT_0. nra.
Qed.

Lemma set_position_same (obj : SpaceObject) :
  set_position (position obj) obj = obj.
Proof. destruct obj. reflexivity. Qed.

(** Without perturbation [_update_position] turns the position about the
    third axis by [angular_velocity * dt]. *)
Lemma update_position_rotation (obj : SpaceObject) (dt x y z : R) :
  position obj = [x; y; z] ->
  magnitude (position obj) <> 0 ->
  0 < EARTH_RADIUS + altitude obj ->
  let a := angular_velocity (altitude obj) * dt in
  _update_position obj dt 0 =
  Ok (set_position [x * cos a - y * sin a; x * sin a + y * cos a; z] obj).
Proof.
  intros Hp Hmag Hpos. cbn zeta. rewrite Hp, magnitude3 in Hmag.
  unfold _update_position. rewrite Hp.
  destruct (polar_acos x y z Hmag) as [Hc Hs].
  destruct (polar_atan2 x y) as [Hx Hy].
  set (r := sqrt (x ^ 2 + y ^ 2 + z ^ 2)) in *.
  rewrite decide_False by exact Hmag.
  rewrite decide_False.
  2:{ apply Rle_not_lt. apply Rabs_le.
      pose proof (COS_bound (acos (z / r))) as Hb.
      assert (Hr : 0 < r)
        by (pose proof (sqrt_pos (x ^ 2 + y ^ 2 + z ^ 2)) as Hsp; fold r in Hsp; lra).
      assert (Hz : z / r = cos (acos (z / r))).
      { apply (Rmult_eq_reg_l r); [|lra]. rewrite Hc. field. lra. }
      rewrite Hz. exact Hb. }
  rewrite decide_False.
  2:{ apply Rle_not_lt. apply Rlt_le. apply Rdiv_lt_0_compat; [|apply MU_pos].
      apply pow_lt. exact Hpos. }
  pose proof (orbital_period_pos (altitude obj) Hpos) as HT.
  unfold orbital_period in HT.
  rewrite decide_False by lra.
  fold (orbital_period (altitude obj)). fold (angular_velocity (altitude obj)).
  set (a := angular_velocity (altitude obj) * dt).
  replace (acos (z / r) + gauss 0 0.001 0) with (acos (z / r))
    by (unfold gauss; ring).
  rewrite Hc, Hs, cos_plus, sin_plus.
  do 2 f_equal. f_equal; [|f_equal].
  - replace (sqrt (x ^ 2 + y ^ 2) * (cos (atan2 y x) * cos a - sin (atan2 y x) * sin a))
      with (sqrt (x ^ 2 + y ^ 2) * cos (atan2 y x) * cos a -
            sqrt (x ^ 2 + y ^ 2) * sin (atan2 y x) * sin a) by ring.
    rewrite Hx, Hy. reflexivity.
  - replace (sqrt (x ^ 2 + y ^ 2) * (sin (atan2 y x) * cos a + cos (atan2 y x) * sin a))
      with (sqrt (x ^ 2 + y ^ 2) * cos (atan2 y x) * sin a +
            sqrt (x ^ 2 + y ^ 2) * sin (atan2 y x) * cos a) by ring.
    rewrite Hx, Hy. reflexivity.
Qed.

(** X7. Without perturbation (a zero sample of [random.gauss]),
    [_update_position] turns the position about the third axis by
    [angular_velocity * dt], whatever the inclination: the third coordinate
    is kept.  Hence a step of zero seconds and a step of one orbital period
    both give the position back.  The angular velocity obeys Kepler's third
    law for the orbital radius [EARTH_RADIUS + altitude]. *)
Theorem update_position_rotates (obj : SpaceObject) (dt x y z : R) :
  position obj = [x; y; z] ->
  magnitude (position obj) <> 0 ->
  0 < EARTH_RADIUS + altitude obj ->
  let a := angular_velocity (altitude obj) * dt in
  _update_position obj dt 0 =
    Ok (set_position [x * cos a - y * sin a; x * sin a + y * cos a; z] obj) /\
  _update_position obj 0 0 = Ok obj /\
  _update_position obj (orbital_period (altitude obj)) 0 = Ok obj /\
  angular_velocity (altitude obj) ^ 2 * (EARTH_RADIUS + altitude obj) ^ 3 = MU.
Proof.
  intros Hp Hmag Hpos. cbn zeta.
  pose proof (orbital_period_pos (altitude obj) Hpos) as HT.
  split; [apply update_position_rotation; assumption|]. split; [|split].
  - rewrite (update_position_rotation obj 0 x y z Hp Hmag Hpos). cbn zeta.
    rewrite Rmult_0_r, cos_0, sin_0.
    replace (x * 1 - y * 0) with x by ring.
    replace (x * 0 + y * 1) with y by ring.
    rewrite <- Hp. rewrite set_position_same. reflexivity.
  - rewrite (update_position_rotation obj _ x y z Hp Hmag Hpos). cbn zeta.
    replace (angular_velocity (altitude obj) * orbital_period (altitude obj))
      with (2 * PI) by (unfold angular_velocity; field; lra).
    rewrite cos_2PI, sin_2PI.
    replace (x * 1 - y * 0) with x by ring.
    replace (x * 0 + y * 1) with y by ring.
    rewrite <- Hp. rewrite set_position_same. reflexivity.
  - unfold angular_velocity, orbital_period in *.
    set (q := (EARTH_RADIUS + altitude obj) ^ 3 / MU) in *.
    assert (Hq : 0 < q).
    { apply Rdiv_lt_0_compat; [|apply MU_pos]. apply pow_lt. exact Hpos. }
    assert (Hsq : sqrt q * sqrt q = q) by (apply sqrt_sqrt; lra).
    assert (Hs : 0 < sqrt q) by (apply sqrt_lt_R0; exact Hq).
    pose proof PI_RGT_0 as Hpi. pose proof MU_pos as Hmu.
    replace ((EARTH_RADIUS + altitude obj) ^ 3) with (q * MU)
      by (unfold q; field; lra).
    replace ((2 * PI / (2 * PI * sqrt q)) ^ 2) with (/ (sqrt q * sqrt q))
      by (field; lra).
    rewrite Hsq. field. lra.
Qed.

End RotationClaims.

Section PositionErrors.
Local Open Scope R_scope.

(** The argument of [math.acos] is within its domain whenever the division
    before it went through. *)
Lemma acos_argument_in_domain (x y z : R) :
  sqrt (x ^ 2 + y ^ 2 + z ^ 2) <> 0 ->
  ~ 1 < Rabs (z / sqrt (x ^ 2 + y ^ 2 + z ^ 2)).
Proof.
  intros Hr0. destruct (polar_acos x y z Hr0) as [Hc _].
  set (r := sqrt (x ^ 2 + y ^ 2 + z ^ 2)) in *.
  apply Rle_not_lt. apply Rabs_le.
  pose proof (COS_bound (acos (z / r))) as Hb.
  replace (z / r) with (cos (acos (z / r))); [exact Hb|].
  apply (Rmult_eq_reg_l r); [|exact Hr0]. rewrite Hc. field. exact Hr0.
Qed.

(** X8. What [_update_position] does, by its input.  A position that does
    not have exactly three coordinates fails the unpacking ([ValueError]).
    A position at the centre of the Earth divides by zero.  Otherwise the
    orbital radius [EARTH_RADIUS + altitude] decides: negative, the square
    root raises [ValueError]; zero, the period is zero and the division
    raises [ZeroDivisionError]; positive, the call returns, for every [dt]
    and every perturbation, a position of three coordinates with the
    magnitude of the old position (not that of the orbital radius), and
    [math.acos] is never outside its domain. *)
Theorem update_position_outcome (obj : SpaceObject) (dt g : R) :
  (length (position obj) <> 3%nat ->
   _update_position obj dt g = Raise ValueError) /\
  (length (position obj) = 3%nat ->
   (magnitude (position obj) = 0 ->
    _update_position obj dt g = Raise ZeroDivisionError) /\
   (magnitude (position obj) <> 0 ->
    (EARTH_RADIUS + altitude obj < 0 ->
     _update_position obj dt g = Raise ValueError) /\
    (EARTH_RADIUS + altitude obj = 0 ->
     _update_position obj dt g = Raise ZeroDivisionError) /\
    (0 < EARTH_RADIUS + altitude obj ->
     exists p, _update_position obj dt g = Ok (set_position p obj) /\
               length p = 3%nat /\
               magnitude p = magnitude (position obj)))).
Proof.
  unfold _update_position.
  destruct (position obj) as [|x [|y [|z [|w l]]]]; cbn [length];
    try (split; [reflexivity | intros; lia]).
  split; [intros; lia|]. intros _. rewrite magnitude3.
  set (r := sqrt (x ^ 2 + y ^ 2 + z ^ 2)).
  pose proof MU_pos as Hmu.
  assert (Hinv : 0 < / MU) by (apply Rinv_0_lt_compat; exact Hmu).
  split.
  - intros Hr. rewrite decide_True by exact Hr. reflexivity.
  - intros Hr. rewrite decide_False by exact Hr.
    rewrite decide_False by (apply acos_argument_in_domain; exact Hr).
    set (R0 := EARTH_RADIUS + altitude obj).
    split; [|split].
    + intros Hneg. rewrite decide_True; [reflexivity|].
      assert (Hsq : 0 < R0 * R0) by nra.
      assert (Hcube : R0 ^ 3 < 0).
      { replace (R0 ^ 3) with (R0 * (R0 * R0)) by ring. nra. }
      unfold Rdiv. nra.
    + intros Hzero. rewrite Hzero.
      replace (0 ^ 3 / MU) with 0 by (field; lra).
      rewrite decide_False by lra. rewrite sqrt_0.
      rewrite decide_True by ring. reflexivity.
    + intros Hpos.
      assert (Hq : 0 < R0 ^ 3 / MU).
      { apply Rdiv_lt_0_compat; [|exact Hmu]. apply pow_lt. exact Hpos. }
      rewrite decide_False by lra.
      rewrite decide_False.
      2:{ pose proof (sqrt_lt_R0 _ Hq). pose proof PI_RGT_0. nra. }
      eexists. split; [reflexivity|]. split; [reflexivity|].
      apply spherical_magnitude. apply sqrt_pos.
Qed.

End PositionErrors.

Section RotationInstance.
Local Open Scope R_scope.

(** One minute of an object on the 400 km orbit. *)
Lemma update_position_rotates_witness :
  let obj := debris "A" [6771; 0; 0] 7.66 in
  let a := angular_velocity (altitude obj) * 60 in
  position obj = [6771; 0; 0] /\
  magnitude (position obj) <> 0 /\
  0 < EARTH_RADIUS + altitude obj /\
  _update_position obj 60 0 =
    Ok (set_position [6771 * cos a - 0 * sin a; 6771 * sin a + 0 * cos a; 0] obj) /\
  _update_position obj 0 0 = Ok obj /\
  _update_position obj (orbital_period (altitude obj)) 0 = Ok obj /\
  angular_velocity (altitude obj) ^ 2 * (EARTH_RADIUS + altitude obj) ^ 3 = MU.
Proof.
  cbn zeta.
  destruct (debris_radius_ok "A" 7.66) as (_ & Hm & Hpos).
  assert (Hmag : magnitude (position (debris "A" [6771; 0; 0] 7.66)) <> 0)
    by (rewrite Hm; lra).
  split; [reflexivity|]. split; [exact Hmag|]. split; [exact Hpos|].
  exact (update_position_rotates (debris "A" [6771; 0; 0] 7.66) 60 6771 0 0
           eq_refl Hmag Hpos).
Defined.

End RotationInstance.

(** ** Distances *)

Section Distance.
Local Open Scope R_scope.

Lemma foldl_Rplus (acc : R) (l : list R) : foldl Rplus acc l = acc + sum l.
Proof.
  unfold sum. revert acc. induction l as [|a l IH]; intros acc; cbn [foldl].
  - ring.
  - rewrite IH, (IH (0 + a)). ring.
Qed.

Lemma sum_cons (a : R) (l : list R) : sum (a :: l) = a + sum l.
Proof. unfold sum at 1. cbn [foldl]. rewrite foldl_Rplus. ring. Qed.

(** The sum under the square root of [_calculate_distance]. *)
Lemma squares_nonneg (p q : list R) :
  0 <= sum (map (fun ab : R * R => (ab.1 - ab.2) ^ 2) (zip p q)).
Proof.
  revert q. induction p as [|a p IH]; intros [|b q]; cbn [zip zip_with map];
    try (unfold sum; cbn; lra).
  rewrite sum_cons. cbn [fst snd].
  pose proof (pow2_ge_0 (a - b)). pose proof (IH q). lra.
Qed.

Lemma squares_zero (p q : list R) :
  length p = length q ->
  sum (map (fun ab : R * R => (ab.1 - ab.2) ^ 2) (zip p q)) = 0 -> p = q.
Proof.
  revert q. induction p as [|a p IH]; intros [|b q] Hlen Hsum;
    try discriminate; [reflexivity|].
  cbn [zip zip_with map] in Hsum. rewrite sum_cons in Hsum. cbn [fst snd] in Hsum.
  pose proof (pow2_ge_0 (a - b)) as Ha. pose proof (squares_nonneg p q) as Hq.
  assert (Hab : (a - b) ^ 2 = 0) by lra.
  assert (Hrest : sum (map (fun ab : R * R => (ab.1 - ab.2) ^ 2) (zip p q)) = 0)
    by lra.
  f_equal.
  - assert ((a - b) * (a - b) = 0) by lra. nra.
  - apply IH; [cbn in Hlen; lia | exact Hrest].
Qed.

Lemma zip_longer (p e q : list R) :
  (length q <= length p)%nat -> zip (p ++ e) q = zip p q.
Proof.
  revert q. induction p as [|a p IH]; intros [|b q] Hlen; cbn in *;
    try reflexivity; try lia.
  - destruct e; reflexivity.
  - f_equal. apply IH. lia.
Qed.

(** In three dimensions the distance of two points is at least the
    difference of their magnitudes. *)
Lemma distance_ge_magnitude_gap (p q : list R) :
  length p = 3%nat -> length q = 3%nat ->
  Rabs (magnitude p - magnitude q) <= _calculate_distance p q.
Proof.
  intros Hp Hq.
  destruct p as [|x1 [|y1 [|z1 [|]]]]; try discriminate.
  destruct q as [|x2 [|y2 [|z2 [|]]]]; try discriminate.
  rewrite !magnitude3. unfold _calculate_distance.
  cbn [zip zip_with map fst snd]. rewrite sum3.
  set (a := sqrt (x1 ^ 2 + y1 ^ 2 + z1 ^ 2)).
  set (b := sqrt (x2 ^ 2 + y2 ^ 2 + z2 ^ 2)).
  pose proof (pow2_ge_0 x1). pose proof (pow2_ge_0 y1). pose proof (pow2_ge_0 z1).
  pose proof (pow2_ge_0 x2). pose proof (pow2_ge_0 y2). pose proof (pow2_ge_0 z2).
  assert (Ha : 0 <= a) by apply sqrt_pos.
  assert (Hb : 0 <= b) by apply sqrt_pos.
  assert (Haa : a * a = x1 ^ 2 + y1 ^ 2 + z1 ^ 2) by (apply sqrt_sqrt; lra).
  assert (Hbb : b * b = x2 ^ 2 + y2 ^ 2 + z2 ^ 2) by (apply sqrt_sqrt; lra).
  set (dot := x1 * x2 + y1 * y2 + z1 * z2).
  assert (Hcs : dot * dot <= (a * a) * (b * b)).
  { rewrite Haa, Hbb. unfold dot.
    pose proof (pow2_ge_0 (x1 * y2 - y1 * x2)).
    pose proof (pow2_ge_0 (x1 * z2 - z1 * x2)).
    pose proof (pow2_ge_0 (y1 * z2 - z1 * y2)).
    nra. }
  assert (Hdot : dot <= a * b).
  { apply Rnot_lt_le. intros Hc.
    assert (0 <= a * b) by nra. nra. }
  rewrite <- (sqrt_Rsqr_abs (a - b)).
  apply sqrt_le_1_alt. unfold Rsqr. unfold dot in Hdot. nra.
Qed.

(** X9. [_calculate_distance] is never negative and is symmetric; on
    positions with the same number of coordinates it is zero exactly for
    equal positions; and the coordinates one position has beyond the other
    are ignored ([zip] stops at the shorter list), so that a position of
    no coordinates is at distance zero from every position. *)
Theorem calculate_distance_facts (p q : list R) :
  0 <= _calculate_distance p q /\
  _calculate_distance p q = _calculate_distance q p /\
  (length p = length q -> (_calculate_distance p q = 0 <-> p = q)) /\
  (forall e, (length q <= length p)%nat ->
     _calculate_distance (p ++ e) q = _calculate_distance p q) /\
  _calculate_distance [] q = 0.
Proof.
  split; [apply sqrt_pos|]. split; [apply calculate_distance_sym|].
  split; [|split].
  - intros Hlen. split.
    + unfold _calculate_distance. intros H0.
      apply squares_zero; [exact Hlen|].
      apply sqrt_eq_0; [apply squares_nonneg | exact H0].
    + intros ->. apply calculate_distance_self.
  - intros e Hlen. unfold _calculate_distance. rewrite zip_longer by exact Hlen.
    reflexivity.
  - unfold _calculate_distance. cbn. unfold sum. cbn. apply sqrt_0.
Qed.

(** X10. Two objects that are on their orbits (the radius invariant) are
    never closer than the difference of their altitudes. *)
Theorem distance_at_least_altitude_gap (obj1 obj2 : SpaceObject) :
  radius_ok obj1 -> radius_ok obj2 ->
  Rabs (altitude obj1 - altitude obj2) <= pair_distance obj1 obj2.
Proof.
  intros (L1 & M1 & _) (L2 & M2 & _).
  pose proof (distance_ge_magnitude_gap _ _ L1 L2) as H.
  rewrite M1, M2 in H. unfold pair_distance.
  replace (altitude obj1 - altitude obj2)
    with (EARTH_RADIUS + altitude obj1 - (EARTH_RADIUS + altitude obj2)) by ring.
  exact H.
Qed.

End Distance.

Section DistanceInstance.
Local Open Scope R_scope.

Lemma station_on_orbit : radius_ok station.
Proof.
  apply (Forall_lookup_1 _ _ 0%nat station (init_radius_ok clock0)). reflexivity.
Qed.

Lemma fragment_on_orbit : radius_ok fragment.
Proof.
  apply (Forall_lookup_1 _ _ 1%nat fragment (init_radius_ok clock0)). reflexivity.
Qed.

(** The first two objects of [__init__]: at least 23 km apart. *)
Lemma distance_at_least_altitude_gap_witness :
  radius_ok station /\ radius_ok fragment /\
  Rabs (altitude station - altitude fragment) <= pair_distance station fragment.
Proof.
  split; [exact station_on_orbit|]. split; [exact fragment_on_orbit|].
  exact (distance_at_least_altitude_gap station fragment
           station_on_orbit fragment_on_orbit).
Defined.

End DistanceInstance.

(** ** What no update changes *)

Section Static.
Variable env : Env.

Lemma static_geometry (l : list SpaceObject) :
  static_of <$> geometry l = static_of <$> l.
Proof.
  unfold geometry.
  change (map (set_risk_objects [])) with (fmap (M:=list) (set_risk_objects [])).
  rewrite <- list_fmap_compose. reflexivity.
Qed.

Lemma step_static (s s' : State) :
  step env s s' ->
  static_of <$> space_objects s' = static_of <$> space_objects s.
Proof.
  intros [dt i s1 s2 Hu | s1 | i j s1].
  - unfold update_object in Hu.
    destruct (space_objects s1 !! i) as [obj|] eqn:Hi;
      [|injection Hu as <-; reflexivity].
    destruct (_update_position obj dt (rand_at env (rng_calls s1)))
      as [obj'|e] eqn:Hp; [|discriminate].
    apply update_position_shape in Hp as [p ->].
    cbn in Hu. injection Hu as <-. cbn [set_space_objects space_objects].
    rewrite list_fmap_insert. apply list_insert_id.
    rewrite list_lookup_fmap, Hi. reflexivity.
  - rewrite <- static_geometry, clear_geometry. apply static_geometry.
  - rewrite <- static_geometry, check_pair_geometry. apply static_geometry.
Qed.

Lemma reachable_static (s0 s : State) :
  rtc (step env) s0 s ->
  static_of <$> space_objects s = static_of <$> space_objects s0.
Proof.
  induction 1 as [|s1 s2 s3 Hstep _ IH]; [reflexivity|].
  rewrite IH. apply step_static. exact Hstep.
Qed.

(** X11. No call of [update], whether it returns or raises, changes the
    number or the order of the objects, or the identifier, name, type,
    orbit type, altitude, inclination or velocity of any of them: only
    positions, update times and risk lists move. *)
Theorem static_keys_invariant (s0 : State) (dts : list R) :
  let s := outcome_state (run_updates env dts s0) in
  length (space_objects s) = length (space_objects s0) /\
  forall k o, space_objects s !! k = Some o ->
    exists o0, space_objects s0 !! k = Some o0 /\
      obj_id o = obj_id o0 /\ name o = name o0 /\ type_ o = type_ o0 /\
      orbit_type o = orbit_type o0 /\ altitude o = altitude o0 /\
      inclination o = inclination o0 /\ velocity o = velocity o0.
Proof.
  cbn zeta.
  pose proof (reachable_static s0 _ (run_updates_steps env dts s0)) as Hst.
  split.
  - rewrite <- (length_fmap static_of), Hst. apply length_fmap.
  - intros k o Hk.
    assert (Hl : (static_of <$> space_objects s0) !! k = Some (static_of o)).
    { rewrite <- Hst, list_lookup_fmap, Hk. reflexivity. }
    rewrite list_lookup_fmap in Hl.
    destruct (space_objects s0 !! k) as [o0|]; [|discriminate].
    exists o0. split; [reflexivity|].
    cbn in Hl. injection Hl as H1 H2 H3 H4 H5 H6 H7.
    repeat split; congruence.
Qed.

End Static.

(** ** Orbits that are apart *)

Section Apart.
Variable env : Env.
Local Open Scope R_scope.

(** A pair on orbits that are apart is outside the box
    [distance < dmin], [time < tmin]. *)
Lemma apart_pair_outside (dmin tmin : R) (o1 o2 : SpaceObject) :
  radius_ok o1 -> radius_ok o2 ->
  dmin <= Rabs (altitude o1 - altitude o2) \/
  tmin * (pair_rel_velocity o1 o2 + 0.001) <= Rabs (altitude o1 - altitude o2) ->
  ~ (pair_distance o1 o2 < dmin /\ pair_time o1 o2 < tmin).
Proof.
  intros (L1 & M1 & _) (L2 & M2 & _) Hgap [Hd Ht].
  pose proof (distance_ge_magnitude_gap _ _ L1 L2) as Hge.
  rewrite M1, M2 in Hge.
  replace (EARTH_RADIUS + altitude o1 - (EARTH_RADIUS + altitude o2))
    with (altitude o1 - altitude o2) in Hge by ring.
  fold (pair_distance o1 o2) in Hge.
  destruct Hgap as [Hgap|Hgap]; [lra|].
  unfold pair_time in Ht.
  pose proof (Rmax_r 0.1 (pair_distance o1 o2 / (pair_rel_velocity o1 o2 + 0.001)))
    as Hmax.
  assert (Hv : 0 < pair_rel_velocity o1 o2 + 0.001).
  { unfold pair_rel_velocity. pose proof (Rabs_pos (velocity o1 - velocity o2)). lra. }
  assert (Hq : pair_distance o1 o2 / (pair_rel_velocity o1 o2 + 0.001) < tmin) by lra.
  apply (Rmult_lt_compat_r _ _ _ Hv) in Hq.
  replace (pair_distance o1 o2 / (pair_rel_velocity o1 o2 + 0.001) *
           (pair_rel_velocity o1 o2 + 0.001))
    with (pair_distance o1 o2) in Hq by (field; lra).
  lra.
Qed.

Lemma orbits_apart_static (dmin tmin : R) (l l' : list SpaceObject) :
  static_of <$> l' = static_of <$> l ->
  orbits_apart dmin tmin l -> orbits_apart dmin tmin l'.
Proof.
  intros Hst Hap i j o1 o2 Hij Hi Hj.
  assert (H1 : (static_of <$> l) !! i = Some (static_of o1))
    by (rewrite <- Hst, list_lookup_fmap, Hi; reflexivity).
  assert (H2 : (static_of <$> l) !! j = Some (static_of o2))
    by (rewrite <- Hst, list_lookup_fmap, Hj; reflexivity).
  rewrite list_lookup_fmap in H1, H2.
  destruct (l !! i) as [a|] eqn:Ha; [|discriminate].
  destruct (l !! j) as [b|] eqn:Hb; [|discriminate].
  cbn in H1, H2. injection H1 as _ _ _ _ A1 _ V1. injection H2 as _ _ _ _ A2 _ V2.
  rewrite <- A1, <- A2, <- V1, <- V2. exact (Hap i j a b Hij Ha Hb).
Qed.

(** An iteration over a pair that is not High leaves the log and the
    throttle alone. *)
Lemma check_pair_no_alert (i j : nat) (s : State) :
  (forall obj1 obj2,
     space_objects s !! i = Some obj1 -> space_objects s !! j = Some obj2 ->
     pair_risk obj1 obj2 <> High) ->
  alerts (check_pair env i j s) = alerts s /\
  emitted (check_pair env i j s) = emitted s /\
  last_alert_time (check_pair env i j s) = last_alert_time s.
Proof.
  intros Hnot.
  destruct (check_pair_cases env i j s)
    as [->|(obj1 & obj2 & Hi & Hj & _ & Hcase)]; [auto|].
  cbn zeta in Hcase.
  destruct (annotate_frame i j obj1 obj2 s) as (Ha & Hl & _ & _ & He).
  cbn zeta in Ha, Hl, He.
  destruct Hcase as [->|(Hhigh & _)].
  - cbn [tick_clock alerts emitted last_alert_time]. auto.
  - exfalso. exact (Hnot obj1 obj2 Hi Hj Hhigh).
Qed.

Lemma check_pairs_no_alert (ps : list (nat * nat)) (s : State) :
  (forall i j obj1 obj2, (i, j) ∈ ps ->
     geometry (space_objects s) !! i = Some obj1 ->
     geometry (space_objects s) !! j = Some obj2 ->
     pair_risk obj1 obj2 <> High) ->
  alerts (check_pairs env ps s) = alerts s /\
  emitted (check_pairs env ps s) = emitted s /\
  last_alert_time (check_pairs env ps s) = last_alert_time s.
Proof.
  revert s. induction ps as [|[i j] ps IH]; intros s Hnot; [auto|].
  unfold check_pairs in *. cbn [foldl fst snd].
  destruct (check_pair_no_alert i j s) as (Ha & He & Hl).
  { intros obj1 obj2 Hi Hj.
    apply (Hnot i j (set_risk_objects [] obj1) (set_risk_objects [] obj2));
      [left | rewrite geometry_lookup, Hi; reflexivity
            | rewrite geometry_lookup, Hj; reflexivity]. }
  destruct (IH (check_pair env i j s)) as (Ha' & He' & Hl').
  { intros i0 j0 obj1 obj2 Hin. rewrite check_pair_geometry.
    apply Hnot. right. exact Hin. }
  rewrite Ha', He', Hl'. auto.
Qed.

Lemma update_objects_frame (dt : R) (idx : list nat) (s : State) :
  let s' := outcome_state (update_objects env dt idx s) in
  alerts s' = alerts s /\ emitted s' = emitted s /\
  last_alert_time s' = last_alert_time s.
Proof.
  cbn zeta. revert s. induction idx as [|i idx IH]; intros s; cbn [update_objects].
  - auto.
  - destruct (update_object env dt i s) as [[] s1|e s1] eqn:Hu.
    + destruct (update_object_frame env dt i s s1 Hu) as (Ha & Hl & He & _).
      destruct (IH s1) as (Ha' & He' & Hl'). rewrite Ha', He', Hl'. auto.
    + apply update_object_raised in Hu as ->. auto.
Qed.

(** The pairs of a catalog on orbits that are apart. *)
Lemma apart_catalog_pairs (dmin tmin : R) (l : list SpaceObject) :
  Forall radius_ok l -> orbits_apart dmin tmin l ->
  forall i j obj1 obj2, (i < j)%nat ->
    geometry l !! i = Some obj1 -> geometry l !! j = Some obj2 ->
    ~ (pair_distance obj1 obj2 < dmin /\ pair_time obj1 obj2 < tmin).
Proof.
  intros Hok Hap i j obj1 obj2 Hij Hi Hj.
  rewrite geometry_lookup in Hi, Hj.
  destruct (l !! i) as [a|] eqn:Ha; [|discriminate].
  destruct (l !! j) as [b|] eqn:Hb; [|discriminate].
  injection Hi as <-. injection Hj as <-.
  apply apart_pair_outside.
  - apply radius_ok_erase. eapply Forall_lookup_1; eassumption.
  - apply radius_ok_erase. eapply Forall_lookup_1; eassumption.
  - exact (Hap i j a b Hij Ha Hb).
Qed.

(** The entries a detection pass writes are outside the box too. *)
Lemma apart_entries_outside (dmin tmin : R) (s : State) (o : SpaceObject)
    (e : RiskData) :
  Forall radius_ok (space_objects s) -> orbits_apart dmin tmin (space_objects s) ->
  o ∈ space_objects (_check_conjunctions env s) -> e ∈ risk_objects o ->
  ~ (distance_km e < dmin /\ time_to_conjunction e < tmin) /\
  risk_level e = _calculate_risk_level (distance_km e) (time_to_conjunction e).
Proof.
  intros Hok Hap Ho He.
  apply list_elem_of_lookup in Ho as [k Hk].
  destruct (check_conjunctions_lookup env s k o Hk) as [_ Hr].
  rewrite Hr in He.
  apply elem_of_entries_for in He
    as (i & j & obj1 & obj2 & Hp & Hi & Hj & _ & Hcase).
  apply elem_of_all_pairs in Hp as [Hij _].
  pose proof (apart_catalog_pairs dmin tmin _ Hok Hap i j obj1 obj2 Hij Hi Hj)
    as Hout.
  destruct Hcase as [[_ ->]|[_ ->]]; (split; [exact Hout | reflexivity]).
Qed.

(** One call of [update] over orbits that are apart. *)
Lemma update_apart (dt : R) (s : State) :
  Forall radius_ok (space_objects s) -> orbits_apart 20 2 (space_objects s) ->
  exists r s',
    update env dt s = Returned r s' /\
    Forall radius_ok (space_objects s') /\
    static_of <$> space_objects s' = static_of <$> space_objects s /\
    alerts s' = alerts s /\ emitted s' = emitted s /\
    last_alert_time s' = last_alert_time s /\
    forall dmin tmin o e,
      orbits_apart dmin tmin (space_objects s) ->
      o ∈ space_objects s' -> e ∈ risk_objects o ->
      ~ (distance_km e < dmin /\ time_to_conjunction e < tmin) /\
      risk_level e = _calculate_risk_level (distance_km e) (time_to_conjunction e).
Proof.
  intros Hok Hap.
  pose proof (update_steps env dt s) as Hsteps.
  destruct (update_radius env dt s Hok) as (r & s' & Hu & Hok').
  pose proof Hu as Hu0. rewrite Hu in Hsteps. cbn [outcome_state] in Hsteps.
  unfold update in Hu.
  pose proof (update_objects_frame dt (seq 0 (length (space_objects s))) s) as Hfr.
  pose proof (update_objects_steps env dt (seq 0 (length (space_objects s))) s)
    as Hsteps1.
  destruct (update_objects_radius env dt (seq 0 (length (space_objects s))) s Hok)
    as (s1 & Hu1 & Hok1).
  rewrite Hu1 in Hu, Hfr, Hsteps1. cbn [outcome_state] in Hfr, Hsteps1.
  cbn zeta in Hfr. destruct Hfr as (Ha1 & He1 & Hl1).
  injection Hu as _ <-.
  pose proof (reachable_static env s s1 Hsteps1) as Hst1.
  assert (Hap1 : forall dmin tmin, orbits_apart dmin tmin (space_objects s) ->
                   orbits_apart dmin tmin (space_objects s1)).
  { intros dmin tmin. apply orbits_apart_static. exact Hst1. }
  exists r, (_check_conjunctions env s1).
  split; [exact Hu0|]. split; [exact Hok'|].
  split; [apply (reachable_static env); exact Hsteps|].
  assert (Hquiet : alerts (_check_conjunctions env s1) = alerts s1 /\
                   emitted (_check_conjunctions env s1) = emitted s1 /\
                   last_alert_time (_check_conjunctions env s1) = last_alert_time s1).
  { rewrite check_conjunctions_pairs.
    destruct (check_pairs_no_alert (all_pairs (length (space_objects s1)))
                (clear_risk_objects s1)) as (Ha & He & Hl); [|auto].
    intros i j obj1 obj2 Hin Hi Hj Hhigh.
    rewrite clear_geometry in Hi, Hj.
    apply elem_of_all_pairs in Hin as [Hij _].
    apply (apart_catalog_pairs 20 2 _ Hok1 (Hap1 20 2 Hap) i j obj1 obj2 Hij Hi Hj).
    apply risk_level_high. exact Hhigh. }
  destruct Hquiet as (Ha & He & Hl).
  split; [congruence|]. split; [congruence|]. split; [congruence|].
  intros dmin tmin o e Hap' Ho Hin.
  exact (apart_entries_outside dmin tmin s1 o e Hok1 (Hap1 dmin tmin Hap') Ho Hin).
Qed.

(** Any number of calls of [update] over orbits that are apart. *)
Lemma run_updates_apart (s0 : State) (dts : list R) :
  Forall radius_ok (space_objects s0) ->
  orbits_apart 20 2 (space_objects s0) ->
  exists s,
    run_updates env dts s0 = Returned tt s /\
    alerts s = alerts s0 /\ emitted s = emitted s0 /\
    last_alert_time s = last_alert_time s0 /\
    (dts <> [] ->
     forall o e, o ∈ space_objects s -> e ∈ risk_objects o ->
       risk_level e <> High /\
       (orbits_apart 50 12 (space_objects s0) -> risk_level e = Low)).
Proof.
  revert s0. induction dts as [|dt dts IH]; intros s0 Hok Hap.
  - exists s0. cbn [run_updates]. split; [reflexivity|]. split; [reflexivity|].
    split; [reflexivity|]. split; [reflexivity|].
    intros Hne. exfalso. apply Hne. reflexivity.
  - cbn [run_updates].
    destruct (update_apart dt s0 Hok Hap)
      as (r & s1 & -> & Hok1 & Hst & Ha & He & Hl & Hentries).
    destruct (IH s1 Hok1 (orbits_apart_static _ _ _ _ Hst Hap))
      as (s & Hrun & Ha' & He' & Hl' & Hent').
    exists s. split; [exact Hrun|].
    split; [congruence|]. split; [congruence|]. split; [congruence|].
    intros _ o e Ho Hin.
    destruct dts as [|dt' dts'].
    + cbn [run_updates] in Hrun. injection Hrun as <-.
      destruct (Hentries 20 2 o e Hap Ho Hin) as [Hout Hlev].
      split.
      * rewrite Hlev. intros Hhigh. apply risk_level_high in Hhigh. tauto.
      * intros Hap50.
        destruct (Hentries 50 12 o e Hap50 Ho Hin) as [Hout50 _].
        rewrite Hlev. apply risk_level_low. tauto.
    + destruct (Hent' ltac:(discriminate) o e Ho Hin) as [Hnh Hlow].
      split; [exact Hnh|]. intros Hap50. apply Hlow.
      exact (orbits_apart_static _ _ _ _ Hst Hap50).
Qed.


Lemma orbits_apart_weaken (l : list SpaceObject) :
  orbits_apart 50 12 l -> orbits_apart 20 2 l.
Proof.
  intros Hap i j o1 o2 Hij Hi Hj.
  pose proof (Rabs_pos (velocity o1 - velocity o2)).
  destruct (Hap i j o1 o2 Hij Hi Hj) as [H50|H12]; [left|right]; lra.
Qed.

(** The three orbits of [__init__]: the altitudes differ by 23, 12 and
    35 km, the speeds by 0.04, 0.04 and 0.08 km/s. *)
Lemma init_orbits_apart : orbits_apart 50 12 (space_objects (__init__ env)).
Proof.
  intros i j o1 o2 Hij Hi Hj. right.
  destruct i as [|[|[|i]]]; destruct j as [|[|[|j]]]; try lia;
    cbn in Hi, Hj; try discriminate;
    injection Hi as <-; injection Hj as <-; cbn [altitude velocity];
    unfold Rabs; repeat destruct Rcase_abs; lra.
Qed.

(** X12. A catalog on orbits that are apart never alerts.  When every
    object is on its orbit and the altitudes of any two objects differ by
    20 km or more, or by at least twice their relative speed plus 0.001,
    every call of [update] returns, no call adds an alert or moves
    [last_alert_time], and no risk entry written is High; if the altitudes
    differ by 50 km or more, or by at least twelve times the relative speed
    plus 0.001, every risk entry written is Low.  The catalog [__init__]
    builds is of the second kind, whatever the random draws and the clock:
    its log stays empty for ever and its risk entries are all Low. *)
Theorem apart_orbits_never_alert :
  (forall s0 dts,
     Forall radius_ok (space_objects s0) ->
     orbits_apart 20 2 (space_objects s0) ->
     exists s,
       run_updates env dts s0 = Returned tt s /\
       alerts s = alerts s0 /\ last_alert_time s = last_alert_time s0 /\
       (dts <> [] ->
        forall o e, o ∈ space_objects s -> e ∈ risk_objects o ->
          risk_level e <> High /\
          (orbits_apart 50 12 (space_objects s0) -> risk_level e = Low))) /\
  (forall dts,
     exists s,
       run_updates env dts (__init__ env) = Returned tt s /\
       alerts s = [] /\
       forall o e, o ∈ space_objects s -> e ∈ risk_objects o ->
         risk_level e = Low).
Proof.
  split.
  - intros s0 dts Hok Hap.
    destruct (run_updates_apart s0 dts Hok Hap) as (s & Hrun & Ha & _ & Hl & Hent).
    exists s. auto.
  - intros dts.
    destruct (run_updates_apart (__init__ env) dts (init_radius_ok env)
                (orbits_apart_weaken _ init_orbits_apart))
      as (s & Hrun & Ha & _ & _ & Hent).
    exists s. split; [exact Hrun|]. split; [exact Ha|].
    intros o e Ho He. destruct dts as [|dt dts].
    + cbn [run_updates] in Hrun. injection Hrun as <-.
      cbn in Ho.
      repeat (apply elem_of_cons in Ho as [->|Ho];
              [cbn in He; apply elem_of_nil in He; contradiction|]).
      apply elem_of_nil in Ho. contradiction.
    + apply (Hent ltac:(discriminate) o e Ho He). exact init_orbits_apart.
Qed.

End Apart.

Section ApartInstance.
Local Open Scope R_scope.

(** The catalog of [__init__], two ticks. *)
Lemma apart_orbits_never_alert_witness :
  Forall radius_ok (space_objects (__init__ clock0)) /\
  orbits_apart 20 2 (space_objects (__init__ clock0)) /\
  exists s,
    run_updates clock0 [60; 30] (__init__ clock0) = Returned tt s /\
    alerts s = alerts (__init__ clock0) /\
    last_alert_time s = last_alert_time (__init__ clock0) /\
    ([60; 30] <> [] ->
     forall o e, o ∈ space_objects s -> e ∈ risk_objects o ->
       risk_level e <> High /\
       (orbits_apart 50 12 (space_objects (__init__ clock0)) ->
        risk_level e = Low)).
Proof.
  split; [apply init_radius_ok|].
  split; [apply orbits_apart_weaken, init_orbits_apart|].
  apply (proj1 (apart_orbits_never_alert clock0)).
  - apply init_radius_ok.
  - apply orbits_apart_weaken, init_orbits_apart.
Defined.

End ApartInstance.

(** ** The risk lists in closed form *)

Section Peers.
Variable env : Env.
Local Open Scope R_scope.

Lemma flat_map_ext_elem {A B : Type} (f g : A -> list B) (l : list A) :
  (forall x, x ∈ l -> f x = g x) -> flat_map f l = flat_map g l.
Proof.
  induction l as [|a l IH]; intros H; [reflexivity|].
  cbn [flat_map]. rewrite (H a) by left. f_equal.
  apply IH. intros x Hx. apply H. right. exact Hx.
Qed.

Lemma flat_map_nil {A B : Type} (f : A -> list B) (l : list A) :
  (forall x, x ∈ l -> f x = []) -> flat_map f l = [].
Proof.
  induction l as [|a l IH]; intros H; [reflexivity|].
  cbn [flat_map]. rewrite (H a) by left. apply IH.
  intros x Hx. apply H. right. exact Hx.
Qed.

Lemma flat_map_flat_map {A B C : Type} (f : B -> list C) (g : A -> list B)
    (l : list A) :
  flat_map f (flat_map g l) = flat_map (fun x => flat_map f (g x)) l.
Proof.
  induction l as [|a l IH]; [reflexivity|].
  cbn [flat_map]. rewrite flat_map_app, IH. reflexivity.
Qed.

Lemma flat_map_map {A B C : Type} (f : B -> list C) (h : A -> B) (l : list A) :
  flat_map f (map h l) = flat_map (fun x => f (h x)) l.
Proof. induction l as [|a l IH]; [reflexivity|]. cbn. rewrite IH. reflexivity. Qed.

Lemma seq_split (a len k : nat) :
  (a <= k < a + len)%nat ->
  seq a len = seq a (k - a) ++ k :: seq (S k) (a + len - S k).
Proof.
  intros Hk. replace len with ((k - a) + S (a + len - S k))%nat at 1 by lia.
  rewrite seq_app. cbn [seq]. replace (a + (k - a))%nat with k by lia.
  reflexivity.
Qed.

Lemma elem_of_seq_iff (a len x : nat) : x ∈ seq a len <-> (a <= x < a + len)%nat.
Proof. rewrite list_elem_of_In. apply in_seq. Qed.

(** A map that is empty off [k], over a range that holds [k]. *)
Lemma flat_map_only {B : Type} (f : nat -> list B) (a len k : nat) :
  (a <= k < a + len)%nat ->
  (forall j, j <> k -> f j = []) ->
  flat_map f (seq a len) = f k.
Proof.
  intros Hk Hf. rewrite (seq_split a len k Hk), flat_map_app. cbn [flat_map].
  rewrite !flat_map_nil, app_nil_r; [reflexivity| |].
  - intros j Hj. apply elem_of_seq_iff in Hj. apply Hf. lia.
  - intros j Hj. apply elem_of_seq_iff in Hj. apply Hf. lia.
Qed.

Lemma risk_entry_sym (o1 o2 : SpaceObject) (peer : string) :
  risk_entry o1 o2 peer = risk_entry o2 o1 peer.
Proof.
  assert (Hd : pair_distance o1 o2 = pair_distance o2 o1)
    by apply pair_distance_sym.
  assert (Hv : pair_rel_velocity o1 o2 = pair_rel_velocity o2 o1)
    by (unfold pair_rel_velocity; apply Rabs_minus_sym).
  unfold risk_entry, pair_risk, pair_time. rewrite Hd, Hv. reflexivity.
Qed.

(** The entries the two loops give the object at index [k] are those of
    its close peers, in catalog order. *)
Lemma entries_for_close_peers (g : list SpaceObject) (k : nat) :
  (k < length g)%nat ->
  entries_for g k (all_pairs (length g)) = close_peers g k.
Proof.
  intros Hk. set (n := length g) in *.
  destruct (g !! k) as [o|] eqn:Hgk;
    [|apply lookup_ge_None in Hgk; fold n in Hgk; lia].
  unfold entries_for, all_pairs, close_peers. rewrite Hgk. fold n.
  rewrite flat_map_flat_map.
  set (c := fun j : nat =>
    match g !! j with
    | Some peer =>
        if decide (j <> k /\ pair_distance o peer < 100)
        then [risk_entry o peer (obj_id peer)] else []
    | None => []
    end).
  set (f := fun p : nat * nat =>
    match g !! p.1, g !! p.2 with
    | Some obj1, Some obj2 =>
        if decide (pair_distance obj1 obj2 < 100) then
          (if decide (p.1 = k) then [risk_entry obj1 obj2 (obj_id obj2)] else []) ++
          (if decide (p.2 = k) then [risk_entry obj1 obj2 (obj_id obj1)] else [])
        else []
    | _, _ => []
    end).
  assert (Hrow : forall i,
    flat_map f (map (fun j => (i, j)) (seq (S i) (n - S i))) =
    flat_map (fun j => f (i, j)) (seq (S i) (n - S i))).
  { intros i. apply flat_map_map. }
  rewrite (flat_map_ext_elem _ _ _ (fun i _ => Hrow i)).
  rewrite (seq_split 0 n k) by lia.
  rewrite !flat_map_app. cbn [flat_map].
  replace (k - 0)%nat with k by lia. replace (0 + n - S k)%nat with (n - S k)%nat by lia.
  assert (Hck : c k = []).
  { unfold c. rewrite Hgk. rewrite decide_False by tauto. reflexivity. }
  rewrite Hck. cbn [app]. f_equal; [|].
  - apply flat_map_ext_elem. intros i Hi. apply elem_of_seq_iff in Hi.
    rewrite (flat_map_only _ (S i) (n - S i) k); [|lia|].
    2:{ intros j Hj. unfold f. cbn [fst snd].
        destruct (g !! i); [|reflexivity]. destruct (g !! j); [|reflexivity].
        case_decide; [|reflexivity].
        rewrite !decide_False by lia. reflexivity. }
    unfold f, c. cbn [fst snd]. rewrite Hgk.
    destruct (g !! i) as [a|]; [|reflexivity].
    rewrite (pair_distance_sym a o).
    destruct (decide (pair_distance o a < 100)) as [Hd|Hd].
    + rewrite decide_False by lia. rewrite decide_True by reflexivity.
      rewrite decide_True by (split; [lia | exact Hd]).
      cbn [app]. rewrite risk_entry_sym. reflexivity.
    + rewrite decide_False by tauto. reflexivity.
  - rewrite (flat_map_nil
               (fun i => flat_map (fun j => f (i, j)) (seq (S i) (n - S i)))
               (seq (S k) (n - S k))).
    + rewrite app_nil_r. apply flat_map_ext_elem. intros j Hj.
      apply elem_of_seq_iff in Hj. unfold f, c. cbn [fst snd]. rewrite Hgk.
      destruct (g !! j) as [b|]; [|reflexivity].
      destruct (decide (pair_distance o b < 100)) as [Hd|Hd].
      * rewrite decide_True by reflexivity. rewrite decide_False by lia.
        rewrite decide_True by (split; [lia | exact Hd]). reflexivity.
      * rewrite decide_False by tauto. reflexivity.
    + intros i Hi. apply elem_of_seq_iff in Hi. apply flat_map_nil.
      intros j Hj. apply elem_of_seq_iff in Hj. unfold f. cbn [fst snd].
      destruct (g !! i); [|reflexivity]. destruct (g !! j); [|reflexivity].
      case_decide; [|reflexivity]. rewrite !decide_False by lia. reflexivity.
Qed.

Lemma close_peers_geometry (l : list SpaceObject) (k : nat) :
  close_peers (geometry l) k = close_peers l k.
Proof.
  unfold close_peers. rewrite geometry_lookup.
  replace (length (geometry l)) with (length l)
    by (unfold geometry; rewrite length_map; reflexivity).
  destruct (l !! k) as [o|]; [|reflexivity]. cbn [fmap option_fmap option_map].
  apply flat_map_ext_elem. intros j _. rewrite geometry_lookup.
  destruct (l !! j) as [peer|]; reflexivity.
Qed.

Lemma elem_of_close_peers (g : list SpaceObject) (k : nat) (e : RiskData) :
  e ∈ close_peers g k <->
  exists o j peer,
    g !! k = Some o /\ g !! j = Some peer /\ j <> k /\
    pair_distance o peer < 100 /\ e = risk_entry o peer (obj_id peer).
Proof.
  unfold close_peers. split.
  - destruct (g !! k) as [o|]; [|intros H; apply elem_of_nil in H; contradiction].
    rewrite list_elem_of_In, in_flat_map. intros (j & _ & Hin).
    destruct (g !! j) as [peer|] eqn:Hj; [|destruct Hin].
    case_decide as Hc; [|destruct Hin]. destruct Hin as [<-|[]].
    exists o, j, peer. tauto.
  - intros (o & j & peer & -> & Hj & Hne & Hd & ->).
    rewrite list_elem_of_In, in_flat_map. exists j. split.
    + apply in_seq. apply lookup_lt_Some in Hj. lia.
    + rewrite Hj, decide_True by tauto. left. reflexivity.
Qed.

Lemma length_flat_map_le {A B : Type} (f : A -> list B) (l : list A) :
  (forall x, (length (f x) <= 1)%nat) -> (length (flat_map f l) <= length l)%nat.
Proof.
  intros Hf. induction l as [|a l IH]; [reflexivity|].
  cbn [flat_map]. rewrite length_app. cbn [length]. pose proof (Hf a). lia.
Qed.

Lemma length_close_peers (g : list SpaceObject) (k : nat) :
  (length (close_peers g k) <= length g - 1)%nat.
Proof.
  unfold close_peers. destruct (g !! k) as [o|] eqn:Hk; [|cbn; lia].
  apply lookup_lt_Some in Hk.
  set (c := fun j : nat => _).
  assert (Hc : forall j, (length (c j) <= 1)%nat).
  { intros j. unfold c. destruct (g !! j); [|cbn; lia]. case_decide; cbn; lia. }
  rewrite (seq_split 0 (length g) k) by lia. rewrite flat_map_app. cbn [flat_map].
  assert (Hck : c k = []).
  { unfold c. destruct (g !! k); [|reflexivity].
    rewrite decide_False by tauto. reflexivity. }
  rewrite Hck, !length_app. cbn [length].
  pose proof (length_flat_map_le c (seq 0 (k - 0)) Hc) as H1.
  pose proof (length_flat_map_le c (seq (S k) (0 + length g - S k)) Hc) as H2.
  rewrite length_seq in H1, H2. lia.
Qed.

(** Over a catalog with unique identifiers, the entries of an object name
    pairwise different peers. *)
Lemma close_peers_NoDup (g : list SpaceObject) (k : nat) :
  NoDup (obj_id <$> g) -> NoDup (object_id <$> close_peers g k).
Proof.
  intros Hnd. unfold close_peers. destruct (g !! k) as [o|]; [|constructor].
  set (c := fun j : nat => _).
  assert (Hin : forall idx x, x ∈ object_id <$> flat_map c idx ->
            exists j peer, j ∈ idx /\ g !! j = Some peer /\ x = obj_id peer).
  { intros idx x Hx. apply list_elem_of_fmap in Hx as (e & -> & He).
    apply list_elem_of_In, in_flat_map in He as (j & Hj & He).
    unfold c in He. destruct (g !! j) as [peer|] eqn:Hgj; [|destruct He].
    case_decide; [|destruct He]. destruct He as [<-|[]].
    exists j, peer. split; [apply list_elem_of_In; exact Hj|]. auto. }
  assert (Hgen : forall idx, NoDup idx -> NoDup (object_id <$> flat_map c idx)).
  { induction idx as [|j idx IH]; intros Hidx; [constructor|].
    apply NoDup_cons in Hidx as [Hfresh Hidx].
    cbn [flat_map]. rewrite fmap_app. apply NoDup_app.
    split; [|split; [|apply IH; exact Hidx]].
    - unfold c. destruct (g !! j); [|constructor].
      case_decide; [apply NoDup_singleton | constructor].
    - intros x Hx Hx'.
      destruct (Hin idx x Hx') as (j' & peer' & Hj' & Hgj' & ->).
      unfold c in Hx. destruct (g !! j) as [peer|] eqn:Hgj;
        [|apply elem_of_nil in Hx; contradiction].
      case_decide; [|apply elem_of_nil in Hx; contradiction].
      apply list_elem_of_singleton in Hx. cbn in Hx.
      assert (j' = j) as -> by (eapply unique_id_index; eassumption).
      contradiction. }
  apply Hgen. apply NoDup_ListNoDup, seq_NoDup.
Qed.

(** X13. After a detection pass the risk list of every object is, whatever
    it was before, the list of its close peers in catalog order: one entry
    for every other object of the catalog closer than 100 km, carrying the
    peer's identifier.  Hence it never has more entries than there are
    other objects, and over a catalog with unique identifiers it names no
    object twice and never the object itself. *)
Theorem risk_list_closed_form (s : State) (k : nat) (o : SpaceObject) :
  space_objects (_check_conjunctions env s) !! k = Some o ->
  risk_objects o = close_peers (space_objects s) k /\
  risk_objects o = close_peers (space_objects (_check_conjunctions env s)) k /\
  (length (risk_objects o) <= length (space_objects s) - 1)%nat /\
  (NoDup (obj_id <$> space_objects s) ->
   NoDup (object_id <$> risk_objects o) /\
   obj_id o ∉ object_id <$> risk_objects o).
Proof.
  intros Hk.
  destruct (check_conjunctions_lookup env s k o Hk) as [Hgk Hr].
  assert (Hlt : (k < length (geometry (space_objects s)))%nat)
    by (eapply lookup_lt_Some; exact Hgk).
  assert (Hlen : length (geometry (space_objects s)) = length (space_objects s))
    by (unfold geometry; apply length_map).
  rewrite <- Hlen in Hr. rewrite entries_for_close_peers in Hr by exact Hlt.
  rewrite close_peers_geometry in Hr.
  split; [exact Hr|]. split; [|split].
  - rewrite <- close_peers_geometry, check_conjunctions_geometry,
      close_peers_geometry. exact Hr.
  - rewrite Hr. apply length_close_peers.
  - intros Hnd. rewrite Hr. split; [apply close_peers_NoDup; exact Hnd|].
    intros Hin. apply list_elem_of_fmap in Hin as (e & Hid & He).
    apply elem_of_close_peers in He as (o0 & j & peer & Hk0 & Hj & Hne & _ & ->).
    cbn [risk_entry object_id] in Hid.
    rewrite geometry_lookup, Hk0 in Hgk. injection Hgk as Hgk.
    apply Hne. apply (unique_id_index (space_objects s) j k peer o0 Hnd Hj Hk0).
    rewrite <- Hid. rewrite <- Hgk. reflexivity.
Qed.

(** X14. Every entry a detection pass writes into the risk list of an
    object is about another object of the catalog less than 100 km away:
    it carries that object's identifier, the distance of the two positions,
    the absolute difference of the two speeds, a time to conjunction that
    is the larger of 0.1 and distance / (relative speed + 0.001), hence at
    least 0.1, and the level [_calculate_risk_level] gives for that
    distance and time. *)
Theorem risk_entries_well_formed (s : State) (k : nat) (o : SpaceObject)
    (e : RiskData) :
  space_objects (_check_conjunctions env s) !! k = Some o ->
  e ∈ risk_objects o ->
  (exists j peer,
     j <> k /\
     space_objects (_check_conjunctions env s) !! j = Some peer /\
     object_id e = obj_id peer /\
     distance_km e = _calculate_distance (position o) (position peer) /\
     velocity_kmps e = Rabs (velocity o - velocity peer)) /\
  0 <= distance_km e < 100 /\
  0 <= velocity_kmps e /\
  time_to_conjunction e = Rmax 0.1 (distance_km e / (velocity_kmps e + 0.001)) /\
  0.1 <= time_to_conjunction e /\
  risk_level e = _calculate_risk_level (distance_km e) (time_to_conjunction e).
Proof.
  intros Hk He.
  destruct (check_conjunctions_lookup env s k o Hk) as [Hgk Hr].
  assert (Hlt : (k < length (geometry (space_objects s)))%nat)
    by (eapply lookup_lt_Some; exact Hgk).
  assert (Hlen : length (geometry (space_objects s)) = length (space_objects s))
    by (unfold geometry; apply length_map).
  rewrite <- Hlen in Hr. rewrite entries_for_close_peers in Hr by exact Hlt.
  rewrite Hr in He.
  apply elem_of_close_peers in He as (o0 & j & peer0 & Hk0 & Hj & Hne & Hd & ->).
  rewrite Hgk in Hk0. injection Hk0 as <-.
  rewrite <- (check_conjunctions_geometry env s), geometry_lookup in Hj.
  destruct (space_objects (_check_conjunctions env s) !! j) as [peer|] eqn:Hpj;
    [|discriminate].
  injection Hj as <-.
  cbn [risk_entry object_id distance_km velocity_kmps time_to_conjunction
       risk_level].
  split; [exists j, peer; repeat split; auto|].
  split; [split; [apply sqrt_pos | exact Hd]|].
  split; [apply Rabs_pos|]. split; [reflexivity|].
  split; [apply Rmax_l | reflexivity].
Qed.

End Peers.

Section PeersInstance.
Local Open Scope R_scope.

Lemma colocated_pass_first :
  space_objects (_check_conjunctions clock0 colocated) !! 0%nat =
  Some (set_risk_objects
          [risk_entry (debris "A" [6771; 0; 0] 7.66)
             (debris "B" [6771; 0; 0] 7.7) "B"]
          (debris "A" [6771; 0; 0] 7.66)).
Proof. rewrite colocated_pass_objects. reflexivity. Qed.

(** The first of two co-located objects holds one entry, naming the
    second. *)
Lemma risk_list_closed_form_witness :
  let a := debris "A" [6771; 0; 0] 7.66 in
  let b := debris "B" [6771; 0; 0] 7.7 in
  let o := set_risk_objects [risk_entry a b "B"] a in
  space_objects (_check_conjunctions clock0 colocated) !! 0%nat = Some o /\
  risk_objects o = close_peers (space_objects colocated) 0 /\
  risk_objects o =
    close_peers (space_objects (_check_conjunctions clock0 colocated)) 0 /\
  (length (risk_objects o) <= length (space_objects colocated) - 1)%nat /\
  (NoDup (obj_id <$> space_objects colocated) ->
   NoDup (object_id <$> risk_objects o) /\
   obj_id o ∉ object_id <$> risk_objects o).
Proof.
  cbn zeta. split; [exact colocated_pass_first|].
  exact (risk_list_closed_form clock0 colocated 0 _ colocated_pass_first).
Defined.

Lemma risk_entries_well_formed_witness :
  let a := debris "A" [6771; 0; 0] 7.66 in
  let b := debris "B" [6771; 0; 0] 7.7 in
  let o := set_risk_objects [risk_entry a b "B"] a in
  let e := risk_entry a b "B" in
  space_objects (_check_conjunctions clock0 colocated) !! 0%nat = Some o /\
  e ∈ risk_objects o /\
  (exists j peer,
     j <> 0%nat /\
     space_objects (_check_conjunctions clock0 colocated) !! j = Some peer /\
     object_id e = obj_id peer /\
     distance_km e = _calculate_distance (position o) (position peer) /\
     velocity_kmps e = Rabs (velocity o - velocity peer)) /\
  0 <= distance_km e < 100 /\
  0 <= velocity_kmps e /\
  time_to_conjunction e = Rmax 0.1 (distance_km e / (velocity_kmps e + 0.001)) /\
  0.1 <= time_to_conjunction e /\
  risk_level e = _calculate_risk_level (distance_km e) (time_to_conjunction e).
Proof.
  cbn zeta.
  assert (He : risk_entry (debris "A" [6771; 0; 0] 7.66)
                 (debris "B" [6771; 0; 0] 7.7) "B"
               ∈ risk_objects
                   (set_risk_objects
                      [risk_entry (debris "A" [6771; 0; 0] 7.66)
                         (debris "B" [6771; 0; 0] 7.7) "B"]
                      (debris "A" [6771; 0; 0] 7.66))).
  { cbn [risk_objects set_risk_objects]. apply list_elem_of_singleton. reflexivity. }
  split; [exact colocated_pass_first|]. split; [exact He|].
  exact (risk_entries_well_formed clock0 colocated 0 _ _ colocated_pass_first He).
Defined.

End PeersInstance.

(** ** The alert log on every run *)

Section Log.
Variable env : Env.

Lemma static_ids (l l' : list SpaceObject) :
  static_of <$> l = static_of <$> l' -> obj_id <$> l = obj_id <$> l'.
Proof.
  intros H.
  assert (Hid : forall k : list SpaceObject,
            obj_id <$> k =
            (fun t : string * string * string * string * R * R * R =>
               t.1.1.1.1.1.1) <$> (static_of <$> k)).
  { intros k. rewrite <- list_fmap_compose. reflexivity. }
  rewrite (Hid l), (Hid l'), H. reflexivity.
Qed.

Lemma log_wf_frame (s s' : State) :
  alerts s' = alerts s ->
  static_of <$> space_objects s' = static_of <$> space_objects s ->
  log_wf s -> log_wf s'.
Proof.
  intros Ha Hst [Hlen Hall]. unfold log_wf.
  rewrite Ha, (static_ids _ _ Hst). auto.
Qed.

Lemma step_log_wf (s s' : State) : step env s s' -> log_wf s -> log_wf s'.
Proof.
  intros Hstep Hwf. pose proof (step_static env s s' Hstep) as Hst.
  destruct Hstep as [dt i s s' Hu | s | i j s].
  - destruct (update_object_frame env dt i s s' Hu) as (Ha & _).
    exact (log_wf_frame s s' Ha Hst Hwf).
  - exact (log_wf_frame s (clear_risk_objects s) eq_refl Hst Hwf).
  - destruct (check_pair_cases env i j s)
      as [Hsame|(obj1 & obj2 & Hi & Hj & _ & Hcase)];
      [rewrite Hsame; exact Hwf|].
    cbn zeta in Hcase.
    destruct (annotate_frame i j obj1 obj2 s) as (Ha & _).
    cbn zeta in Ha.
    destruct Hcase as [Hs1|(_ & _ & Hs1)].
    + apply (log_wf_frame s); [rewrite Hs1; exact Ha | exact Hst | exact Hwf].
    + destruct Hwf as [Hlen Hall]. unfold log_wf.
      rewrite (static_ids _ _ Hst).
      rewrite Hs1. cbn [set_emitted set_last_alert_time alerts].
      rewrite generate_alert_alerts. cbn [tick_clock alerts]. rewrite Ha.
      split; [rewrite length_last_n; lia|].
      apply Forall_forall. intros a Hin. apply elem_of_last_n in Hin.
      apply elem_of_app in Hin as [Hin|Hin].
      * exact (proj1 (Forall_forall _ _) Hall a Hin).
      * apply list_elem_of_singleton in Hin as ->.
        unfold alert_wf, new_alert.
        cbn [severity alert_id object_ids tick_clock alerts]. rewrite Ha.
        split; [reflexivity|]. split; [lia|].
        exists (obj_id obj1), (obj_id obj2). split; [reflexivity|].
        split; apply list_elem_of_fmap_2; eapply list_elem_of_lookup_2; eassumption.
Qed.

Lemma reachable_log_wf (s0 s : State) :
  rtc (step env) s0 s -> log_wf s0 -> log_wf s.
Proof.
  induction 1 as [|s1 s2 s3 Hstep _ IH]; [auto|].
  intros H1. apply IH. eapply step_log_wf; eassumption.
Qed.

(** X15. The alert log is well formed at every point of every run.  From a
    propagator whose log holds at most 100 well-formed alerts (in
    particular an empty log, as [__init__] leaves it), after any number of
    calls of [update], the last of which may have raised, the log holds at
    most 100 alerts, and each has severity "high", an id between 1 and
    101, and exactly two object identifiers, both of objects of the
    catalog. *)
Theorem alert_log_well_formed (s0 : State) (dts : list R) :
  log_wf s0 ->
  let s := outcome_state (run_updates env dts s0) in
  length (alerts s) <= 100 /\
  forall a, a ∈ alerts s ->
    severity a = "high" /\ (1 <= alert_id a <= 101)%Z /\
    exists id1 id2, object_ids a = [id1; id2] /\
      id1 ∈ obj_id <$> space_objects s /\ id2 ∈ obj_id <$> space_objects s.
Proof.
  intros Hwf. cbn zeta.
  destruct (reachable_log_wf s0 _ (run_updates_steps env dts s0) Hwf)
    as [Hlen Hall].
  split; [exact Hlen|]. intros a Hin.
  exact (proj1 (Forall_forall _ _) Hall a Hin).
Qed.

End Log.

Section LogInstance.

Lemma colocated_log_wf : log_wf colocated.
Proof. split; [cbn; lia | constructor]. Qed.

(** Two ticks over the co-located pair. *)
Lemma alert_log_well_formed_witness :
  let s := outcome_state (run_updates slow_clock [60; 60]%R colocated) in
  log_wf colocated /\
  length (alerts s) <= 100 /\
  forall a, a ∈ alerts s ->
    severity a = "high" /\ (1 <= alert_id a <= 101)%Z /\
    exists id1 id2, object_ids a = [id1; id2] /\
      id1 ∈ obj_id <$> space_objects s /\ id2 ∈ obj_id <$> space_objects s.
Proof.
  cbn zeta. split; [exact colocated_log_wf|].
  exact (alert_log_well_formed slow_clock colocated [60; 60]%R colocated_log_wf).
Defined.

End LogInstance.

(** ** The loop of [update] *)

Section UpdateLoop.
Variable env : Env.

(** One iteration that returns. *)
Lemma update_object_returned (dt : R) (i : nat) (s s' : State) (o : SpaceObject) :
  space_objects s !! i = Some o ->
  update_object env dt i s = Returned tt s' ->
  exists p,
    _update_position o dt (rand_at env (rng_calls s)) = Ok (set_position p o) /\
    space_objects s' =
      <[i := set_last_update (now_at env (clock_reads s)) (set_position p o)]>
        (space_objects s) /\
    rng_calls s' = S (rng_calls s) /\ clock_reads s' = S (clock_reads s).
Proof.
  intros Hi. unfold update_object. rewrite Hi.
  destruct (_update_position o dt (rand_at env (rng_calls s))) as [o'|e] eqn:Hp;
    [|discriminate].
  destruct (update_position_shape o o' dt _ Hp) as [p ->].
  cbn. intros [= <-]. exists p. cbn. auto.
Qed.

(** One iteration that raises. *)
Lemma update_object_raised_at (dt : R) (i : nat) (s s' : State) (e : exn) :
  update_object env dt i s = Raised e s' ->
  s' = s /\
  exists o, space_objects s !! i = Some o /\
            _update_position o dt (rand_at env (rng_calls s)) = Raise e.
Proof.
  unfold update_object.
  destruct (space_objects s !! i) as [o|]; [|discriminate].
  destruct (_update_position o dt (rand_at env (rng_calls s))) as [o'|e'] eqn:Hp.
  - cbn. discriminate.
  - intros [= <- <-]. eauto.
Qed.

(** The loop over the indices [a], ..., [a + m - 1]. *)
Lemma update_objects_seq (dt : R) (m a : nat) (s : State) :
  a + m <= length (space_objects s) ->
  let out := update_objects env dt (seq a m) s in
  let s' := outcome_state out in
  exists k,
    k <= m /\
    length (space_objects s') = length (space_objects s) /\
    rng_calls s' = rng_calls s + k /\ clock_reads s' = clock_reads s + k /\
    (forall i o, a <= i < a + k -> space_objects s !! i = Some o ->
       exists p,
         _update_position o dt (rand_at env (rng_calls s + (i - a))) =
           Ok (set_position p o) /\
         space_objects s' !! i =
           Some (set_last_update (now_at env (clock_reads s + (i - a)))
                   (set_position p o))) /\
    (forall i, ~ a <= i < a + k -> space_objects s' !! i = space_objects s !! i) /\
    match out with
    | Returned _ _ => k = m
    | Raised e _ =>
        k < m /\
        exists o, space_objects s !! (a + k) = Some o /\
          _update_position o dt (rand_at env (rng_calls s + k)) = Raise e
    end.
Proof.
  revert a s. induction m as [|m IH]; intros a s Hlen; cbn zeta.
  - exists 0. cbn [seq update_objects outcome_state].
    split; [lia|]. split; [reflexivity|]. split; [lia|]. split; [lia|].
    split; [intros; lia|]. split; [reflexivity|]. reflexivity.
  - cbn [seq update_objects].
    destruct (space_objects s !! a) as [oa|] eqn:Ha;
      [|apply lookup_ge_None in Ha; lia].
    destruct (update_object env dt a s) as [[] s1|e s1] eqn:Hu.
    + destruct (update_object_returned dt a s s1 oa Ha Hu)
        as (p & Hp & Hso & Hrng & Hclk).
      assert (Hlen1 : length (space_objects s1) = length (space_objects s))
        by (rewrite Hso; apply length_insert).
      destruct (IH (S a) s1 ltac:(lia)) as (k & Hk & Hl & Hr & Hc & Hin & Hout & Hend).
      cbn zeta in *.
      set (out := update_objects env dt (seq (S a) m) s1) in *.
      exists (S k). split; [lia|]. split; [lia|]. split; [lia|]. split; [lia|].
      split; [|split].
      * intros i o Hi Hio. destruct (decide (i = a)) as [->|Hne].
        -- rewrite Ha in Hio. injection Hio as <-.
           replace (a - a) with 0 by lia. rewrite !Nat.add_0_r.
           exists p. split; [exact Hp|].
           rewrite (Hout a) by lia. rewrite Hso.
           apply list_lookup_insert_eq. eapply lookup_lt_Some; exact Ha.
        -- assert (Hio1 : space_objects s1 !! i = Some o)
             by (rewrite Hso, list_lookup_insert_ne by lia; exact Hio).
           destruct (Hin i o ltac:(lia) Hio1) as (q & Hq & Hsq).
           exists q.
           replace (rng_calls s + (i - a)) with (rng_calls s1 + (i - S a)) by lia.
           replace (clock_reads s + (i - a)) with (clock_reads s1 + (i - S a)) by lia.
           auto.
      * intros i Hi. rewrite (Hout i) by lia. rewrite Hso.
        apply list_lookup_insert_ne. lia.
      * destruct out as [u s2|e s2]; [lia|].
        destruct Hend as (Hlt & o & Ho & Hraise).
        split; [lia|]. exists o.
        replace (a + S k) with (S a + k) by lia.
        rewrite Hso, list_lookup_insert_ne in Ho by lia.
        replace (rng_calls s + S k) with (rng_calls s1 + k) by lia. auto.
    + destruct (update_object_raised_at dt a s s1 e Hu) as (-> & o & Ho & Hraise).
      exists 0. cbn [outcome_state]. split; [lia|]. split; [reflexivity|].
      split; [lia|]. split; [lia|]. split; [intros; lia|].
      split; [reflexivity|]. split; [lia|].
      exists o. rewrite !Nat.add_0_r. auto.
Qed.

Lemma step_clock_reads (s s' : State) :
  step env s s' -> clock_reads s <= clock_reads s'.
Proof.
  intros [dt i s1 s2 Hu | s1 | i j s1].
  - destruct (update_object_frame env dt i s1 s2 Hu) as (_ & _ & _ & H). exact H.
  - reflexivity.
  - destruct (check_pair_cases env i j s1)
      as [->|(obj1 & obj2 & _ & _ & _ & Hcase)]; [reflexivity|].
    cbn zeta in Hcase.
    destruct (annotate_frame i j obj1 obj2 s1) as (_ & _ & Hc & _).
    cbn zeta in Hc.
    destruct Hcase as [->|(_ & _ & ->)].
    + cbn. lia.
    + cbn [set_emitted set_last_alert_time clock_reads].
      destruct (generate_alert_frame env obj1 obj2 (pair_distance obj1 obj2)
                  (pair_time obj1 obj2) (tick_clock (annotate i j obj1 obj2 s1)))
        as (_ & _ & Hck & _).
      cbn zeta in Hck. rewrite Hck. cbn. lia.
Qed.

Lemma reachable_clock_reads (s0 s : State) :
  rtc (step env) s0 s -> clock_reads s0 <= clock_reads s.
Proof.
  induction 1 as [|s1 s2 s3 Hstep _ IH]; [reflexivity|].
  pose proof (step_clock_reads _ _ Hstep). lia.
Qed.

(** X16. A call of [update] that returns has moved every object once, in
    catalog order: the object at index [k] with the [k]-th random sample of
    the call, stamped with the [k]-th clock reading of the call (the
    detection pass reads the clock after all of them and draws no sample).
    The value returned is the pair of [get_objects] and [get_alerts] of the
    state the call leaves. *)
Theorem update_returned (dt : R) (s s' : State)
    (r : list SpaceObject * list Alert) :
  update env dt s = Returned r s' ->
  r = (get_objects s', get_alerts s') /\
  length (space_objects s') = length (space_objects s) /\
  rng_calls s' = rng_calls s + length (space_objects s) /\
  clock_reads s + length (space_objects s) <= clock_reads s' /\
  forall k o, space_objects s !! k = Some o ->
    exists p o',
      _update_position o dt (rand_at env (rng_calls s + k)) =
        Ok (set_position p o) /\
      space_objects s' !! k = Some o' /\
      position o' = p /\
      last_update o' = now_at env (clock_reads s + k).
Proof.
  unfold update. intros Hu.
  destruct (update_objects_seq dt (length (space_objects s)) 0 s ltac:(lia))
    as (k & _ & Hlen & Hrng & Hclk & Hin & _ & Hend).
  cbn zeta in *.
  destruct (update_objects env dt (seq 0 (length (space_objects s))) s)
    as [u s1|e s1]; [|discriminate].
  cbn [outcome_state] in *. subst k. injection Hu as <- <-.
  pose proof (check_conjunctions_geometry env s1) as Hgeo.
  split; [reflexivity|]. split; [|split; [|split]].
  - transitivity (length (geometry (space_objects (_check_conjunctions env s1))));
      [unfold geometry; rewrite length_map; reflexivity|].
    rewrite Hgeo. unfold geometry. rewrite length_map. exact Hlen.
  - rewrite check_conjunctions_rng_calls. exact Hrng.
  - pose proof (reachable_clock_reads s1 _ (check_conjunctions_steps env s1)). lia.
  - intros i o Hi.
    assert (Hlt : i < length (space_objects s)) by (eapply lookup_lt_Some; exact Hi).
    destruct (Hin i o ltac:(lia) Hi) as (p & Hp & Hs1).
    replace (i - 0) with i in Hp, Hs1 by lia.
    assert (Hg : geometry (space_objects (_check_conjunctions env s1)) !! i =
                 Some (set_risk_objects []
                         (set_last_update (now_at env (clock_reads s + i))
                            (set_position p o))))
      by (rewrite Hgeo, geometry_lookup, Hs1; reflexivity).
    rewrite geometry_lookup in Hg.
    destruct (space_objects (_check_conjunctions env s1) !! i) as [o'|];
      [|discriminate].
    exists p, o'. split; [exact Hp|]. split; [reflexivity|].
    cbn [fmap option_fmap option_map] in Hg.
    assert (E : set_risk_objects [] o' =
                set_risk_objects []
                  (set_last_update (now_at env (clock_reads s + i))
                     (set_position p o))) by congruence.
    split.
    + exact (f_equal position E).
    + exact (f_equal last_update E).
Qed.

(** X17. A call of [update] that raises leaves the catalog half updated
    and undetected.  The exception is that of [_update_position] on the
    first object it fails for; the objects before it have been moved and
    stamped and stay so (nothing is rolled back), that object and the ones
    after it are untouched, and since [_check_conjunctions] has not run,
    every risk list, the alert log and [last_alert_time] are those of the
    previous call.  One sample and one clock reading were used per object
    moved. *)
Theorem update_raised (dt : R) (s s' : State) (e : exn) :
  update env dt s = Raised e s' ->
  exists k o,
    space_objects s !! k = Some o /\
    _update_position o dt (rand_at env (rng_calls s + k)) = Raise e /\
    (forall i oi, i < k -> space_objects s !! i = Some oi ->
       exists p,
         _update_position oi dt (rand_at env (rng_calls s + i)) =
           Ok (set_position p oi) /\
         space_objects s' !! i =
           Some (set_last_update (now_at env (clock_reads s + i))
                   (set_position p oi))) /\
    (forall i, k <= i -> space_objects s' !! i = space_objects s !! i) /\
    risk_objects <$> space_objects s' = risk_objects <$> space_objects s /\
    alerts s' = alerts s /\ last_alert_time s' = last_alert_time s /\
    rng_calls s' = rng_calls s + k /\ clock_reads s' = clock_reads s + k.
Proof.
  unfold update. intros Hu.
  destruct (update_objects_seq dt (length (space_objects s)) 0 s ltac:(lia))
    as (k & _ & Hlen & Hrng & Hclk & Hin & Hout & Hend).
  pose proof (update_objects_frame env dt (seq 0 (length (space_objects s))) s)
    as Hfr.
  cbn zeta in *.
  destruct (update_objects env dt (seq 0 (length (space_objects s))) s)
    as [u s1|e1 s1]; [discriminate|].
  cbn [outcome_state] in *. injection Hu as <- <-.
  destruct Hend as (Hlt & o & Ho & Hraise). cbn [Nat.add] in Ho.
  destruct Hfr as (Ha & _ & Hl).
  assert (Hbefore : forall i oi, i < k -> space_objects s !! i = Some oi ->
            exists p,
              _update_position oi dt (rand_at env (rng_calls s + i)) =
                Ok (set_position p oi) /\
              space_objects s1 !! i =
                Some (set_last_update (now_at env (clock_reads s + i))
                        (set_position p oi))).
  { intros i oi Hi Hio. destruct (Hin i oi ltac:(lia) Hio) as (p & Hp & Hs1).
    replace (i - 0) with i in Hp, Hs1 by lia. eauto. }
  exists k, o. split; [exact Ho|]. split; [exact Hraise|].
  split; [exact Hbefore|]. split; [intros i Hi; apply Hout; lia|].
  split; [|auto].
  apply list_eq. intros i. rewrite !list_lookup_fmap.
  destruct (decide (i < k)) as [Hi|Hi].
  - destruct (space_objects s !! i) as [oi|] eqn:Hio.
    + destruct (Hbefore i oi Hi Hio) as (p & _ & ->). reflexivity.
    + apply lookup_ge_None in Hio. lia.
  - rewrite (Hout i) by lia. reflexivity.
Qed.

End UpdateLoop.

Section UpdateLoopInstances.
Local Open Scope R_scope.

Lemma colocated_on_orbit : Forall radius_ok (space_objects colocated).
Proof.
  constructor; [apply debris_radius_ok|].
  constructor; [apply debris_radius_ok | constructor].
Qed.

(** One tick over the co-located pair. *)
Lemma update_returned_witness :
  exists r s',
    update clock0 60 colocated = Returned r s' /\
    r = (get_objects s', get_alerts s') /\
    length (space_objects s') = length (space_objects colocated) /\
    rng_calls s' = (rng_calls colocated + length (space_objects colocated))%nat /\
    (clock_reads colocated + length (space_objects colocated) <= clock_reads s')%nat /\
    forall k o, space_objects colocated !! k = Some o ->
      exists p o',
        _update_position o 60 (rand_at clock0 (rng_calls colocated + k)) =
          Ok (set_position p o) /\
        space_objects s' !! k = Some o' /\
        position o' = p /\
        last_update o' = now_at clock0 (clock_reads colocated + k).
Proof.
  destruct (update_radius clock0 60 colocated colocated_on_orbit)
    as (r & s' & Hu & _).
  exists r, s'. split; [exact Hu|].
  exact (update_returned clock0 60 colocated s' r Hu).
Defined.

Lemma half_broken_update :
  exists p,
    update clock0 60 half_broken =
    Raised ZeroDivisionError
      (set_space_objects
         [set_last_update (now_at clock0 0)
            (set_position p (debris "A" [6771; 0; 0] 7.66));
          debris "X" [0; 0; 0] 7.7]
         (tick_clock (tick_rng half_broken))).
Proof.
  destruct (update_position_ok (debris "A" [6771; 0; 0] 7.66) 60
              (rand_at clock0 (rng_calls half_broken)) (debris_radius_ok "A" 7.66))
    as (p & Hp & _).
  exists p. unfold update.
  change (seq 0 (length (space_objects half_broken))) with [0%nat; 1%nat].
  cbn [update_objects].
  rewrite (update_object_ok clock0 60 0 half_broken
             (debris "A" [6771; 0; 0] 7.66) p eq_refl Hp).
  rewrite (update_object_raise clock0 60 1 _ (debris "X" [0; 0; 0] 7.7)
             ZeroDivisionError);
    [reflexivity | reflexivity | apply update_position_origin; reflexivity].
Qed.

(** One tick over a catalog whose second object is at the centre of the
    Earth: the call raises at index 1, after the first object has been
    moved and stamped. *)
Lemma update_raised_witness :
  let a := debris "A" [6771; 0; 0] 7.66 in
  let x := debris "X" [0; 0; 0] 7.7 in
  exists p,
    let s' := set_space_objects [set_last_update (now_at clock0 0) (set_position p a); x]
                (tick_clock (tick_rng half_broken)) in
    update clock0 60 half_broken = Raised ZeroDivisionError s' /\
    space_objects half_broken !! 1%nat = Some x /\
    _update_position x 60 (rand_at clock0 (rng_calls half_broken + 1)) =
      Raise ZeroDivisionError /\
    (forall i oi, (i < 1)%nat -> space_objects half_broken !! i = Some oi ->
       exists q,
         _update_position oi 60 (rand_at clock0 (rng_calls half_broken + i)) =
           Ok (set_position q oi) /\
         space_objects s' !! i =
           Some (set_last_update (now_at clock0 (clock_reads half_broken + i))
                   (set_position q oi))) /\
    (forall i, (1 <= i)%nat -> space_objects s' !! i = space_objects half_broken !! i) /\
    risk_objects <$> space_objects s' = risk_objects <$> space_objects half_broken /\
    alerts s' = alerts half_broken /\
    last_alert_time s' = last_alert_time half_broken /\
    rng_calls s' = (rng_calls half_broken + 1)%nat /\
    clock_reads s' = (clock_reads half_broken + 1)%nat.
Proof.
  cbn zeta. destruct half_broken_update as [p Hu]. exists p.
  split; [exact Hu|].
  destruct (update_raised clock0 60 half_broken _ ZeroDivisionError Hu)
    as (k & o & Hk & Hraise & Hbefore & Hafter & Hrisk & Hal & Hlast & Hrng & Hclk).
  assert (Hk1 : k = 1%nat) by (cbn in Hrng; lia).
  subst k. cbn in Hk. injection Hk as <-.
  split; [reflexivity|]. split; [exact Hraise|]. split; [exact Hbefore|].
  split; [exact Hafter|]. split; [exact Hrisk|]. split; [exact Hal|].
  split; [exact Hlast|]. split; [exact Hrng | exact Hclk].
Defined.

End UpdateLoopInstances.

(** ** Broadcasting and disconnecting *)

Section Broadcast.
Variable send_fails : nat -> bool.

Lemma remove_first_absent (x : WebSocket) (l : list WebSocket) :
  x ∉ l -> remove_first x l = l.
Proof.
  induction l as [|y l IH]; intros Hx; [reflexivity|].
  apply not_elem_of_cons in Hx as [Hne Hx]. cbn [remove_first].
  rewrite decide_False by congruence. rewrite IH by exact Hx. reflexivity.
Qed.

Lemma remove_first_middle (x : WebSocket) (pre l : list WebSocket) :
  x ∉ pre -> remove_first x (pre ++ x :: l) = pre ++ l.
Proof.
  induction pre as [|y pre IH]; intros Hx; cbn [app remove_first].
  - rewrite decide_True by reflexivity. reflexivity.
  - apply not_elem_of_cons in Hx as [Hne Hx].
    rewrite decide_False by congruence. rewrite IH by exact Hx. reflexivity.
Qed.

Lemma remove_first_subseteq (x : WebSocket) (l : list WebSocket) :
  remove_first x l ⊆ l.
Proof.
  induction l as [|y l IH]; [reflexivity|]. cbn [remove_first].
  case_decide.
  - intros z Hz. right. exact Hz.
  - intros z Hz. apply elem_of_cons in Hz as [->|Hz]; [left|right; apply IH, Hz].
Qed.

(** The counters and the log after the sends to [cs]. *)
Lemma foldl_send_to_frame (cs : list WebSocket) (ts : TaskState) :
  let ts' := foldl (send_to send_fails) ts cs in
  sends ts' = sends ts + length cs /\
  log ts' = log ts ++ (ErrorSendingToClient <$> dropped send_fails (sends ts) cs) /\
  connected_clients ts' ⊆ connected_clients ts.
Proof.
  cbn zeta. revert ts. induction cs as [|c cs IH]; intros ts; cbn [foldl].
  - cbn. rewrite app_nil_r. split; [lia|]. split; reflexivity.
  - destruct (IH (send_to send_fails ts c)) as (Hs & Hl & Hc).
    rewrite Hs, Hl. clear Hs Hl. unfold send_to in *. cbn [dropped length].
    destruct (send_fails (sends ts)); cbn [sends log connected_clients] in *.
    + split; [lia|]. split; [rewrite fmap_cons, <- app_assoc; reflexivity|].
      etrans; [exact Hc | apply remove_first_subseteq].
    + split; [lia|]. split; [reflexivity | exact Hc].
Qed.

(** The list of clients after the sends to [cs], the part of the list not
    yet visited. *)
Lemma foldl_send_to_clients (cs pre : list WebSocket) (ts : TaskState) :
  connected_clients ts = pre ++ cs -> NoDup (pre ++ cs) ->
  connected_clients (foldl (send_to send_fails) ts cs) =
  pre ++ delivered send_fails (sends ts) cs.
Proof.
  revert pre ts. induction cs as [|c cs IH]; intros pre ts Hcl Hnd; cbn [foldl].
  - exact Hcl.
  - cbn [delivered]. unfold send_to at 2.
    assert (Hfresh : c ∉ pre).
    { apply NoDup_app in Hnd as (_ & Hdisj & _). intros Hin.
      apply (Hdisj c Hin). left. }
    destruct (send_fails (sends ts)) eqn:Hf.
    + rewrite (IH pre); cbn [connected_clients sends].
      * reflexivity.
      * rewrite Hcl. apply remove_first_middle. exact Hfresh.
      * apply NoDup_app in Hnd as (Hp & Hdisj & Hc).
        apply NoDup_cons in Hc as [_ Hc]. apply NoDup_app.
        split; [exact Hp|]. split; [|exact Hc].
        intros x Hx Hx'. apply (Hdisj x Hx). right. exact Hx'.
    + rewrite (IH (pre ++ [c])); cbn [connected_clients sends].
      * rewrite <- app_assoc. reflexivity.
      * rewrite Hcl, <- app_assoc. reflexivity.
      * rewrite <- app_assoc. exact Hnd.
Qed.

Lemma elem_of_delivered (k : nat) (cs : list WebSocket) (c : WebSocket) :
  c ∈ delivered send_fails k cs <->
  exists i, cs !! i = Some c /\ send_fails (k + i) = false.
Proof.
  revert k. induction cs as [|c0 cs IH]; intros k; cbn [delivered].
  - split; [intros H; apply elem_of_nil in H; contradiction|].
    intros (i & Hi & _). rewrite lookup_nil in Hi. discriminate.
  - destruct (send_fails k) eqn:Hf.
    + rewrite IH. split.
      * intros (i & Hi & Hs). exists (S i). split; [exact Hi|].
        replace (k + S i) with (S k + i) by lia. exact Hs.
      * intros ([|i] & Hi & Hs).
        -- rewrite Nat.add_0_r in Hs. congruence.
        -- exists i. split; [exact Hi|].
           replace (S k + i) with (k + S i) by lia. exact Hs.
    + rewrite elem_of_cons, IH. split.
      * intros [->|(i & Hi & Hs)].
        -- exists 0. rewrite Nat.add_0_r. auto.
        -- exists (S i). split; [exact Hi|].
           replace (k + S i) with (S k + i) by lia. exact Hs.
      * intros ([|i] & Hi & Hs).
        -- left. cbn in Hi. congruence.
        -- right. exists i. split; [exact Hi|].
           replace (S k + i) with (k + S i) by lia. exact Hs.
Qed.

(** The endpoints change the list of clients and nothing else. *)
Lemma client_event_frame (ts : TaskState) (ev : ClientEvent) :
  propagator (client_event ts ev) = propagator ts /\
  sends (client_event ts ev) = sends ts /\
  log (client_event ts ev) = log ts.
Proof.
  destruct ev as [ws|ws]; cbn [client_event]; [auto|].
  unfold websocket_disconnected. case_decide; auto.
Qed.

Lemma client_events_frame (evs : list ClientEvent) (ts : TaskState) :
  propagator (foldl client_event ts evs) = propagator ts /\
  sends (foldl client_event ts evs) = sends ts /\
  log (foldl client_event ts evs) = log ts.
Proof.
  revert ts. induction evs as [|ev evs IH]; intros ts; cbn [foldl]; [auto|].
  destruct (IH (client_event ts ev)) as (-> & -> & ->).
  apply client_event_frame.
Qed.

(** The propagator and the count of sends after the sends to [cs],
    whatever the endpoints do meanwhile. *)
Lemma foldl_send_to_interleaved (during_send : nat -> list ClientEvent)
    (cs : list WebSocket) (ts : TaskState) :
  let ts' := foldl (send_to_interleaved send_fails during_send) ts cs in
  propagator ts' = propagator ts /\ sends ts' = sends ts + length cs.
Proof.
  cbn zeta. revert ts. induction cs as [|c cs IH]; intros ts; cbn [foldl].
  - cbn. split; [reflexivity | lia].
  - destruct (IH (send_to_interleaved send_fails during_send ts c)) as (-> & ->).
    unfold send_to_interleaved. cbn zeta.
    destruct (client_events_frame (during_send (sends ts)) ts) as (Hp & Hs & _).
    destruct (send_fails (sends ts)); cbn [propagator sends length];
      rewrite Hp, Hs; split; [reflexivity | lia | reflexivity | lia].
Qed.

(** Without events the loop is the one of [broadcast]. *)
Lemma foldl_send_to_quiet (during_send : nat -> list ClientEvent)
    (cs : list WebSocket) (ts : TaskState) :
  (forall k, during_send k = []) ->
  foldl (send_to_interleaved send_fails during_send) ts cs =
  foldl (send_to send_fails) ts cs.
Proof.
  intros Hquiet. revert ts. induction cs as [|c cs IH]; intros ts; cbn [foldl];
    [reflexivity|].
  assert (Hstep : send_to_interleaved send_fails during_send ts c =
                  send_to send_fails ts c).
  { unfold send_to_interleaved, send_to. cbn zeta. rewrite Hquiet. reflexivity. }
  rewrite Hstep. apply IH.
Qed.

(** X18. One broadcast of the update task makes exactly one send attempt
    per client of the copy of the list taken when the broadcast began, and
    leaves the propagator alone, whatever clients are accepted or
    disconnect while a send is awaited.  When no client is accepted or
    disconnects during the broadcast, the broadcast logs one error per
    failed send, in order, and never adds a client; and when, moreover,
    the list holds no client twice, the clients left are exactly those
    whose send succeeded, in their old order. *)
Theorem broadcast_outcome :
  (forall during_send ts,
     propagator (broadcast_interleaved send_fails during_send ts) = propagator ts /\
     sends (broadcast_interleaved send_fails during_send ts) =
       sends ts + length (connected_clients ts)) /\
  (forall during_send ts,
     (forall k, during_send k = []) ->
     broadcast_interleaved send_fails during_send ts = broadcast send_fails ts /\
     log (broadcast send_fails ts) =
       log ts ++ (ErrorSendingToClient <$>
                    dropped send_fails (sends ts) (connected_clients ts)) /\
     connected_clients (broadcast send_fails ts) ⊆ connected_clients ts /\
     (NoDup (connected_clients ts) ->
      connected_clients (broadcast send_fails ts) =
      delivered send_fails (sends ts) (connected_clients ts))).
Proof.
  split.
  - intros during_send ts. unfold broadcast_interleaved.
    apply (foldl_send_to_interleaved during_send (connected_clients ts) ts).
  - intros during_send ts Hquiet. unfold broadcast_interleaved, broadcast.
    split; [apply foldl_send_to_quiet; exact Hquiet|].
    destruct (foldl_send_to_frame (connected_clients ts) ts) as (_ & Hl & Hc).
    cbn zeta in *.
    split; [exact Hl|]. split; [exact Hc|].
    intros Hnd.
    exact (foldl_send_to_clients (connected_clients ts) [] ts eq_refl Hnd).
Qed.

(** X19. A client the update task has dropped cannot be disconnected any
    more.  When the list holds no client twice and the send to a client
    fails during a broadcast, the handler of [WebSocketDisconnect] of that
    client's endpoint, run afterwards, raises [ValueError] from
    [connected_clients.remove]; run before the broadcast instead, it
    removes the client.  A client that connects and disconnects with no
    broadcast in between leaves the list as it was. *)
Theorem disconnect_after_drop (ts : TaskState) (i : nat) (client : WebSocket) :
  NoDup (connected_clients ts) ->
  connected_clients ts !! i = Some client ->
  send_fails (sends ts + i) = true ->
  websocket_disconnected client (broadcast send_fails ts) = Raise ValueError /\
  (exists ts', websocket_disconnected client ts = Ok ts' /\
               client ∉ connected_clients ts') /\
  (forall fresh, fresh ∉ connected_clients ts ->
     websocket_disconnected fresh (websocket_accepted fresh ts) = Ok ts).
Proof.
  intros Hnd Hi Hf. split; [|split].
  - unfold websocket_disconnected. rewrite decide_False; [reflexivity|].
    unfold broadcast.
    rewrite (foldl_send_to_clients (connected_clients ts) [] ts eq_refl Hnd).
    cbn [app]. intros Hin. apply elem_of_delivered in Hin as (j & Hj & Hs).
    assert (j = i) as -> by (eapply NoDup_lookup; eassumption).
    congruence.
  - unfold websocket_disconnected.
    assert (Hin : client ∈ connected_clients ts)
      by (eapply list_elem_of_lookup_2; exact Hi).
    rewrite decide_True by exact Hin. eexists. split; [reflexivity|].
    cbn [connected_clients].
    apply list_elem_of_split in Hin as (l1 & l2 & Heq).
    rewrite Heq in Hnd |- *.
    apply NoDup_app in Hnd as (_ & Hdisj & Hn2).
    apply NoDup_cons in Hn2 as [Hfresh2 _].
    assert (Hfresh1 : client ∉ l1).
    { intros Hin1. apply (Hdisj client Hin1). left. }
    rewrite remove_first_middle by exact Hfresh1.
    intros Hin. apply elem_of_app in Hin as [Hin|Hin]; contradiction.
  - intros fresh Hfresh. unfold websocket_disconnected, websocket_accepted.
    cbn [connected_clients propagator sends log].
    rewrite decide_True by (apply elem_of_app; right; left).
    rewrite remove_first_middle by exact Hfresh. rewrite app_nil_r.
    destruct ts. reflexivity.
Qed.

End Broadcast.

Section BroadcastInstance.

Lemma two_clients_distinct : NoDup (connected_clients task_at_origin).
Proof.
  cbn. apply NoDup_cons. split.
  - intros Hin. apply list_elem_of_singleton in Hin. discriminate.
  - apply NoDup_singleton.
Qed.

(** Two clients; the send to the first one fails. *)
Lemma disconnect_after_drop_witness :
  NoDup (connected_clients task_at_origin) /\
  connected_clients task_at_origin !! 0 = Some 1 /\
  first_send_fails (sends task_at_origin + 0) = true /\
  websocket_disconnected 1 (broadcast first_send_fails task_at_origin) =
    Raise ValueError /\
  (exists ts', websocket_disconnected 1 task_at_origin = Ok ts' /\
               1 ∉ connected_clients ts') /\
  (forall fresh, fresh ∉ connected_clients task_at_origin ->
     websocket_disconnected fresh (websocket_accepted fresh task_at_origin) =
       Ok task_at_origin).
Proof.
  split; [exact two_clients_distinct|]. split; [reflexivity|].
  split; [reflexivity|].
  exact (disconnect_after_drop first_send_fails task_at_origin 0 1
           two_clients_distinct eq_refl eq_refl).
Defined.

(** A client accepted while the first of two sends is awaited is in the
    list after the broadcast, which has sent it nothing: the list after a
    broadcast need not be part of the list before it. *)
Lemma accepted_during_broadcast :
  let during_send (k : nat) := if Nat.eqb k 0 then [ClientAccepted 3] else [] in
  let ts' := broadcast_interleaved (fun _ => false) during_send task_at_origin in
  connected_clients task_at_origin = [1; 2] /\
  connected_clients ts' = [1; 2; 3] /\
  sends ts' = sends task_at_origin + 2.
Proof. cbn zeta. split; [reflexivity|]. split; reflexivity. Qed.

End BroadcastInstance.

(** ** The level of an entry, by distance and relative speed *)

Section EntryLevel.
Variable env : Env.
Local Open Scope R_scope.

(** The time to conjunction is below a bound that exceeds 0.1 exactly when
    the distance is below the bound times the shifted relative speed. *)
Lemma time_below (d v b : R) :
  0 <= v -> 0.1 < b ->
  (Rmax 0.1 (d / (v + 0.001)) < b <-> d < b * (v + 0.001)).
Proof.
  intros Hv Hb.
  assert (Hpos : 0 < v + 0.001) by lra.
  assert (Hq : d / (v + 0.001) < b <-> d < b * (v + 0.001)).
  { split; intros H.
    - apply (Rmult_lt_compat_r _ _ _ Hpos) in H.
      replace (d / (v + 0.001) * (v + 0.001)) with d in H by (field; lra).
      exact H.
    - apply (Rmult_lt_reg_r (v + 0.001)); [exact Hpos|].
      replace (d / (v + 0.001) * (v + 0.001)) with d by (field; lra).
      exact H. }
  unfold Rmax. destruct (Rle_dec 0.1 (d / (v + 0.001))) as [Hle|Hgt].
  - exact Hq.
  - split; [|lra]. intros _. apply Hq. lra.
Qed.

(** X20. The level of an entry in terms of what is measured.  For every
    entry a detection pass writes, with distance [d] and relative speed
    [v]: the level is High exactly when [d < 20] and [d < 2 * (v + 0.001)];
    otherwise Medium exactly when [d < 50] and [d < 12 * (v + 0.001)];
    otherwise Low.  So a pair is High only if it is closer than twice its
    relative speed plus 0.002 km, however small the distance bound of the
    classification. *)
Theorem entry_level_by_distance_and_speed (s : State) (k : nat)
    (o : SpaceObject) (e : RiskData) :
  space_objects (_check_conjunctions env s) !! k = Some o ->
  e ∈ risk_objects o ->
  let d := distance_km e in
  let v := velocity_kmps e in
  (risk_level e = High <-> d < 20 /\ d < 2 * (v + 0.001)) /\
  (risk_level e = Medium <->
   ~ (d < 20 /\ d < 2 * (v + 0.001)) /\ d < 50 /\ d < 12 * (v + 0.001)) /\
  (risk_level e = Low <->
   ~ (d < 20 /\ d < 2 * (v + 0.001)) /\ ~ (d < 50 /\ d < 12 * (v + 0.001))).
Proof.
  intros Hk He. cbn zeta.
  destruct (check_conjunctions_lookup env s k o Hk) as [Hgk Hr].
  assert (Hlt : (k < length (geometry (space_objects s)))%nat)
    by (eapply lookup_lt_Some; exact Hgk).
  assert (Hlen : length (geometry (space_objects s)) = length (space_objects s))
    by (unfold geometry; apply length_map).
  rewrite <- Hlen in Hr. rewrite entries_for_close_peers in Hr by exact Hlt.
  rewrite Hr in He.
  apply elem_of_close_peers in He as (o0 & j & peer & _ & _ & _ & _ & ->).
  cbn [risk_entry distance_km velocity_kmps risk_level]. unfold pair_risk.
  rewrite risk_level_high, risk_level_medium, risk_level_low.
  unfold pair_time.
  pose proof (Rabs_pos (velocity o0 - velocity peer)) as Hv.
  fold (pair_rel_velocity o0 peer) in Hv.
  pose proof (time_below (pair_distance o0 peer) (pair_rel_velocity o0 peer) 2
                Hv ltac:(lra)) as H2.
  pose proof (time_below (pair_distance o0 peer) (pair_rel_velocity o0 peer) 12
                Hv ltac:(lra)) as H12.
  tauto.
Qed.

End EntryLevel.

Section EntryLevelInstance.
Local Open Scope R_scope.

Lemma entry_level_by_distance_and_speed_witness :
  let a := debris "A" [6771; 0; 0] 7.66 in
  let b := debris "B" [6771; 0; 0] 7.7 in
  let o := set_risk_objects [risk_entry a b "B"] a in
  let e := risk_entry a b "B" in
  let d := distance_km e in
  let v := velocity_kmps e in
  space_objects (_check_conjunctions clock0 colocated) !! 0%nat = Some o /\
  e ∈ risk_objects o /\
  (risk_level e = High <-> d < 20 /\ d < 2 * (v + 0.001)) /\
  (risk_level e = Medium <->
   ~ (d < 20 /\ d < 2 * (v + 0.001)) /\ d < 50 /\ d < 12 * (v + 0.001)) /\
  (risk_level e = Low <->
   ~ (d < 20 /\ d < 2 * (v + 0.001)) /\ ~ (d < 50 /\ d < 12 * (v + 0.001))).
Proof.
  cbn zeta.
  assert (He : risk_entry (debris "A" [6771; 0; 0] 7.66)
                 (debris "B" [6771; 0; 0] 7.7) "B"
               ∈ risk_objects
                   (set_risk_objects
                      [risk_entry (debris "A" [6771; 0; 0] 7.66)
                         (debris "B" [6771; 0; 0] 7.7) "B"]
                      (debris "A" [6771; 0; 0] 7.66))).
  { cbn [risk_objects set_risk_objects]. apply list_elem_of_singleton. reflexivity. }
  split; [exact colocated_pass_first|]. split; [exact He|].
  exact (entry_level_by_distance_and_speed clock0 colocated 0 _ _
           colocated_pass_first He).
Defined.

End EntryLevelInstance.

(** ** The task and the propagator *)

Section TaskRuns.
Variable env : Env.
Variable send_fails : nat -> bool.

(** X21. The propagator of the update task evolves as successive calls of
    [update] with the default step of 60 seconds and nothing else: after
    any number of iterations the task is suspended with the propagator
    these calls leave, or has ended with the exception and the state of the
    first call that raised.  Clients and failed sends have no influence on
    it. *)
Theorem task_runs_updates (fuel : nat) (ts : TaskState) :
  match update_orbits_task env send_fails fuel ts with
  | Looping ts' =>
      run_updates env (replicate fuel 60%R) (propagator ts) =
      Returned tt (propagator ts')
  | Terminated e ts' =>
      run_updates env (replicate fuel 60%R) (propagator ts) =
      Raised e (propagator ts')
  end.
Proof.
  revert ts. induction fuel as [|fuel IH]; intros ts;
    cbn [update_orbits_task replicate run_updates]; [reflexivity|].
  destruct (update env 60 (propagator ts)) as [r p|e p]; [|reflexivity].
  specialize (IH (broadcast send_fails (with_propagator p ts))).
  rewrite broadcast_propagator in IH. exact IH.
Qed.

(** X22. The pause between two iterations of the update task is at least
    2 and less than 5 seconds, whatever the time of day. *)
Theorem sleep_interval_bounds (time_time : R) :
  (2 <= sleep_interval time_time < 5)%R.
Proof.
  unfold sleep_interval. destruct (base_fp time_time) as [H0 H1]. lra.
Qed.

End TaskRuns.

(** ** Identifiers and timestamps of the alerts *)

Section AlertOrder.
Variable env : Env.

Lemma ids_inv_frame (s s' : State) :
  emitted s' = emitted s -> ids_inv s -> ids_inv s'.
Proof. intros He H. unfold ids_inv. rewrite He. exact H. Qed.

Lemma step_ids_inv (s s' : State) :
  step env s s' -> throttle_inv env s -> ids_inv s -> ids_inv s'.
Proof.
  intros Hstep (I1 & _) Hids.
  destruct Hstep as [dt i s s' Hu | s | i j s].
  - destruct (update_object_frame env dt i s s' Hu) as (_ & _ & He & _).
    exact (ids_inv_frame s s' He Hids).
  - exact (ids_inv_frame s (clear_risk_objects s) eq_refl Hids).
  - destruct (check_pair_cases env i j s)
      as [Hsame|(obj1 & obj2 & _ & _ & _ & Hcase)];
      [rewrite Hsame; exact Hids|].
    cbn zeta in Hcase.
    destruct (annotate_frame i j obj1 obj2 s) as (Ha & _ & _ & _ & He).
    cbn zeta in Ha, He.
    destruct Hcase as [Hs1|(_ & _ & Hs1)].
    + apply (ids_inv_frame s); [rewrite Hs1; exact He | exact Hids].
    + rewrite Hs1. intros k c a. cbn [set_emitted emitted]. intros Hk.
      assert (Hlen : k < length (emitted s) \/ k = length (emitted s)).
      { apply lookup_lt_Some in Hk. rewrite length_app in Hk.
        simpl (length [_]) in Hk. lia. }
      destruct Hlen as [Hlt | ->].
      * rewrite lookup_app_l in Hk by exact Hlt. exact (Hids k c a Hk).
      * rewrite lookup_app_r in Hk by lia.
        replace (length (emitted s) - length (emitted s)) with 0 in Hk by lia.
        cbn in Hk. injection Hk as _ <-.
        cbn [new_alert alert_id tick_clock alerts]. rewrite Ha, I1.
        rewrite length_last_n, length_fmap. lia.
Qed.

Lemma reachable_ids_inv (s0 s : State) :
  rtc (step env) s0 s -> throttle_inv env s0 -> ids_inv s0 -> ids_inv s.
Proof.
  induction 1 as [|s1 s2 s3 Hstep _ IH]; [auto|].
  intros Ht Hi. apply IH.
  - eapply step_throttle_inv; eassumption.
  - eapply step_ids_inv; eassumption.
Qed.

(** X23. The ids of all alerts, on every run.  From a propagator as
    [__init__] leaves it (nothing emitted yet), at every point of every
    run the log holds the last 100 of the alerts emitted so far, and the
    n-th alert ever emitted (counting from 1) has the id [min n 101]: the
    first hundred ids are 1 to 100, and every later alert has the id 101. *)
Theorem alert_ids_on_every_run (s0 s : State) :
  fresh_throttle env s0 ->
  rtc (step env) s0 s ->
  alerts s = last_n 100 (snd <$> emitted s) /\
  forall i c a, emitted s !! i = Some (c, a) ->
    alert_id a = Z.of_nat (Nat.min (S i) 101).
Proof.
  intros Hfresh Hreach.
  pose proof (fresh_throttle_inv env s0 Hfresh) as Hinv0.
  destruct (reachable_throttle_inv env s0 s Hreach Hinv0) as (I1 & _).
  split; [exact I1|].
  apply (reachable_ids_inv s0 s Hreach Hinv0).
  destruct Hfresh as (_ & He & _). intros i c a Hi.
  rewrite He, lookup_nil in Hi. discriminate.
Qed.

(** X24. Under a clock that never runs backwards, the alert log is in
    the order of its timestamps at every point of every run from a
    propagator as [__init__] leaves it: an alert is never stamped earlier
    than one before it in the log. *)
Theorem alert_log_sorted (s0 s : State) :
  monotone_clock env ->
  fresh_throttle env s0 ->
  rtc (step env) s0 s ->
  forall p q a b, p <= q ->
    alerts s !! p = Some a -> alerts s !! q = Some b ->
    (timestamp a <= timestamp b)%Z.
Proof.
  intros Hmono Hfresh Hreach p q a b Hpq Hp Hq.
  destruct (decide (p = q)) as [->|Hne]; [rewrite Hp in Hq; injection Hq as ->; lia|].
  pose proof (fresh_throttle_inv env s0 Hfresh) as Hinv0.
  destruct (reachable_throttle_inv env s0 s Hreach Hinv0) as (I1 & I2 & I3 & _).
  rewrite I1 in Hp, Hq. unfold last_n in Hp, Hq.
  rewrite lookup_drop, list_lookup_fmap in Hp, Hq.
  set (off := length (snd <$> emitted s) - 100) in *.
  destruct (emitted s !! (off + p)) as [[cp a']|] eqn:Ep; [|discriminate].
  destruct (emitted s !! (off + q)) as [[cq b']|] eqn:Eq; [|discriminate].
  cbn in Hp, Hq. injection Hp as ->. injection Hq as ->.
  pose proof (I2 (off + p) (off + q) cp a cq b ltac:(lia) Ep Eq) as Hgap.
  destruct (I3 cp a) as (_ & kp & -> & Hta);
    [eapply list_elem_of_lookup_2; exact Ep|].
  destruct (I3 cq b) as (_ & kq & -> & Htb);
    [eapply list_elem_of_lookup_2; exact Eq|].
  rewrite Hta, Htb.
  assert (Hk : S kp <= kq).
  { destruct (decide (S kp <= kq)) as [H|H]; [exact H|].
    pose proof (Hmono kq kp ltac:(lia)). unfold seconds in Hgap. lia. }
  pose proof (Hmono (S kp) kq Hk). pose proof (Hmono kq (S kq) ltac:(lia)). lia.
Qed.

End AlertOrder.

Section AlertOrderInstances.

(** The co-located pair under the clock that stamps late. *)
Lemma alert_ids_on_every_run_witness :
  fresh_throttle late_stamp_clock colocated /\
  let s := outcome_state (run_updates late_stamp_clock [60; 60]%R colocated) in
  rtc (step late_stamp_clock) colocated s /\
  alerts s = last_n 100 (snd <$> emitted s) /\
  forall i c a, emitted s !! i = Some (c, a) ->
    alert_id a = Z.of_nat (Nat.min (S i) 101).
Proof.
  split; [exact colocated_fresh|]. cbn zeta.
  split; [apply run_updates_steps|].
  exact (alert_ids_on_every_run late_stamp_clock colocated _ colocated_fresh
           (run_updates_steps late_stamp_clock [60; 60]%R colocated)).
Defined.

Lemma alert_log_sorted_witness :
  monotone_clock late_stamp_clock /\
  fresh_throttle late_stamp_clock colocated /\
  let s := outcome_state (run_updates late_stamp_clock [60; 60]%R colocated) in
  rtc (step late_stamp_clock) colocated s /\
  forall p q a b, p <= q ->
    alerts s !! p = Some a -> alerts s !! q = Some b ->
    (timestamp a <= timestamp b)%Z.
Proof.
  split; [exact late_stamp_clock_monotone|]. split; [exact colocated_fresh|].
  cbn zeta. split; [apply run_updates_steps|].
  exact (alert_log_sorted late_stamp_clock colocated _ late_stamp_clock_monotone
           colocated_fresh
           (run_updates_steps late_stamp_clock [60; 60]%R colocated)).
Defined.

End AlertOrderInstances.
